(** * The B-tree index of the Go sources: model and properties

    The Go program keeps a B-tree ([type BTree], [type BTreeNode]) of [int]
    keys and [string] values behind the three methods [NewBTree], [Search]
    and [Insert].  Every node is owned by exactly one parent slot, so the
    pointer structure is a tree and in-place mutation is rendered by
    returning the updated node.

    Run-time panics (index or slice bound out of range) are the only way a
    Go call of this program can fail; they are rendered by [None].

    [int] is taken at 64 bits: [degree] is any [Z] and the arithmetic on it
    ([2*degree-1], [degree-1]) wraps around.  Indices into a slice are
    bounded by its length and are computed without wrap-around.

    The in-memory file system, the shortest-path search and the decision
    tree of the same source file follow the B-tree, each in a module of its
    own. *)

From Equations Require Import Equations.
From Equations.Prop Require Import Logic.
From Stdlib Require Import String.
From Stdlib Require Import List ZArith Lia Bool Arith Permutation Sorted.
From Stdlib Require PrimFloat.
Import ListNotations.

(** ** Go run-time primitives *)

Module Go.

(** [int] is a 64-bit two's complement integer. *)
Definition int_min : Z := - 2 ^ 63.
Definition int_max : Z := 2 ^ 63 - 1.

Definition wrap (z : Z) : Z := ((z + 2 ^ 63) mod 2 ^ 64 - 2 ^ 63)%Z.

Definition add (x y : Z) : Z := wrap (x + y).
Definition sub (x y : Z) : Z := wrap (x - y).
Definition mul (x y : Z) : Z := wrap (x * y).

(** [len(s)] *)
Definition len {A} (s : list A) : Z := Z.of_nat (length s).

(** [s[i]]: panics unless [0 <= i < len(s)]. *)
Definition index {A} (s : list A) (i : Z) : option A :=
  if (0 <=? i)%Z then nth_error s (Z.to_nat i) else None.

Fixpoint update {A} (s : list A) (i : nat) (x : A) : option (list A) :=
  match s, i with
  | [], _ => None
  | _ :: s', O => Some (x :: s')
  | y :: s', S i' =>
      match update s' i' x with
      | Some r => Some (y :: r)
      | None => None
      end
  end.

(** [s[i] = x]: panics unless [0 <= i < len(s)]. *)
Definition store {A} (s : list A) (i : Z) (x : A) : option (list A) :=
  if (0 <=? i)%Z then update s (Z.to_nat i) x else None.

(** [s[lo:]]: panics unless [0 <= lo <= len(s)]. *)
Definition slice_from {A} (s : list A) (lo : Z) : option (list A) :=
  if ((0 <=? lo) && (lo <=? len s))%Z then Some (skipn (Z.to_nat lo) s)
  else None.

(** [s[:hi]]: panics when [hi < 0].  Go allows [hi] up to [cap(s)]; what
    lies between [len(s)] and [cap(s)] depends on the allocator, so the
    model stops at [len(s)]. *)
Definition slice_to {A} (s : list A) (hi : Z) : option (list A) :=
  if ((0 <=? hi) && (hi <=? len s))%Z then Some (firstn (Z.to_nat hi) s)
  else None.

(** [append(s, x)] *)
Definition append {A} (s : list A) (x : A) : list A := s ++ [x].

End Go.

Notation "x <- e ;; k" :=
  (match e with Some x => k | None => None end)
    (at level 61, e at next level, right associativity, only parsing).
Notation "' p <- e ;; k" :=
  (match e with Some p => k | None => None end)
    (at level 61, p pattern, e at next level, right associativity, only parsing).

(** ** Data model *)

#[warnings="-register-all"]
Inductive BTreeNode : Type :=
  mkNode {
    keys : list Z;
    values : list string;
    children : list BTreeNode;
    leaf : bool
  }.

Record BTree : Type :=
  mkBTree {
    root : BTreeNode;
    degree : Z
  }.

(** [node.children = cs] *)
Definition set_children (n : BTreeNode) (cs : list BTreeNode) : BTreeNode :=
  mkNode (keys n) (values n) cs (leaf n).

(** Number of levels below and including a node. *)
Fixpoint height (n : BTreeNode) : nat :=
  match n with
  | mkNode _ _ cs _ => S (list_max (map height cs))
  end.

(** ** Operations *)

(** [NewBTree] has no error result and cannot panic. *)
Definition NewBTree (degree : Z) : option BTree :=
  Some (mkBTree (mkNode [] [] [] true) degree).

(** The position loop of [searchNode]:
    [for i < len(node.keys) && key > node.keys[i] { i++ }], started at the
    head of [ks]; the result is the final [i]. *)
Fixpoint search_pos (key : Z) (ks : list Z) : nat :=
  match ks with
  | [] => O
  | k :: ks' => if (key >? k)%Z then S (search_pos key ks') else O
  end.

Lemma height_child (n c : BTreeNode) (i : Z) :
  Go.index (children n) i = Some c -> height c < height n.
Proof.
  unfold Go.index. destruct (0 <=? i)%Z; [ | discriminate ].
  intros H. apply nth_error_In in H.
  destruct n as [ks vs cs lf]. simpl in *.
  assert (Hmax : list_max (map height cs) <= list_max (map height cs)) by lia.
  rewrite list_max_le in Hmax. rewrite Forall_forall in Hmax.
  specialize (Hmax (height c) (in_map height _ _ H)). lia.
Qed.

Equations searchNode (bt : BTree) (node : BTreeNode) (key : Z)
  : option (string * bool) by wf (height node) lt :=
  searchNode bt node key :=
    let i := Z.of_nat (search_pos key (keys node)) in
    if (i <? Go.len (keys node))%Z
       && match Go.index (keys node) i with
          | Some k => (key =? k)%Z
          | None => false
          end
    then v <- Go.index (values node) i ;; Some (v, true)
    else if leaf node then Some (EmptyString, false)
    else match Go.index (children node) i as o
               return Go.index (children node) i = o -> _ with
         | Some c => fun Hc => searchNode bt c key
         | None => fun _ => None
         end eq_refl.
Next Obligation. eapply height_child; eauto. Qed.

Definition Search (bt : BTree) (key : Z) : option (string * bool) :=
  searchNode bt (root bt) key.

Definition isFull (bt : BTree) (node : BTreeNode) : bool :=
  (Go.len (keys node) =? Go.sub (Go.mul 2 (degree bt)) 1)%Z.

(** The descending loop of the internal branch of [insertNonFull],
    [for i >= 0 && key < node.keys[i] { i-- }], followed by [i++].
    [n] is [i+1] on entry and the result is [i+1] on exit. *)
Fixpoint insert_pos (key : Z) (ks : list Z) (n : nat) : option nat :=
  match n with
  | O => Some O
  | S i =>
      k <- Go.index ks (Z.of_nat i) ;;
      if (key <? k)%Z then insert_pos key ks i else Some (S i)
  end.

(** The shifting loop of the leaf branch of [insertNonFull]:
    [for i >= 0 && key < node.keys[i] {
       node.keys[i+1] = node.keys[i]; node.values[i+1] = node.values[i]; i-- }].
    [n] is [i+1]; the result carries the final [i+1]. *)
Fixpoint shift_insert (key : Z) (n : nat) (ks : list Z) (vs : list string)
  : option (list Z * list string * nat) :=
  match n with
  | O => Some (ks, vs, O)
  | S i =>
      k <- Go.index ks (Z.of_nat i) ;;
      if (key <? k)%Z then
        ks' <- Go.store ks (Z.of_nat i + 1) k ;;
        v <- Go.index vs (Z.of_nat i) ;;
        vs' <- Go.store vs (Z.of_nat i + 1) v ;;
        shift_insert key i ks' vs'
      else Some (ks, vs, S i)
  end.

(** Leaf branch of [insertNonFull].  [n] is [i+1] for the
    [i := len(node.keys) - 1] taken before the two [append]s. *)
Definition insertLeaf (node : BTreeNode) (key : Z) (value : string)
  : option BTreeNode :=
  let n := length (keys node) in
  let ks := Go.append (keys node) 0%Z in
  let vs := Go.append (values node) EmptyString in
  '(ks, vs, n) <- shift_insert key n ks vs ;;
  ks <- Go.store ks (Z.of_nat n) key ;;
  vs <- Go.store vs (Z.of_nat n) value ;;
  Some (mkNode ks vs (children node) (leaf node)).

(** The loop of [splitChild] that opens a slot in the parent:
    [for i := len(parent.keys) - 1; i > index; i-- {
       parent.keys[i] = parent.keys[i-1]
       parent.values[i] = parent.values[i-1]
       parent.children[i+1] = parent.children[i] }].
    The child slots are pointers: the slot just appended holds [nil],
    rendered by [None]. *)
Fixpoint shift_right (index : Z) (i : nat)
  (ks : list Z) (vs : list string) (cs : list (option BTreeNode))
  : option (list Z * list string * list (option BTreeNode)) :=
  if (Z.of_nat i >? index)%Z then
    match i with
    | O => None
    | S j =>
        k <- Go.index ks (Z.of_nat j) ;;
        ks' <- Go.store ks (Z.of_nat i) k ;;
        v <- Go.index vs (Z.of_nat j) ;;
        vs' <- Go.store vs (Z.of_nat i) v ;;
        c <- Go.index cs (Z.of_nat i) ;;
        cs' <- Go.store cs (Z.of_nat i + 1) c ;;
        shift_right index j ks' vs' cs'
    end
  else Some (ks, vs, cs).

(** A child slice without [nil] slots. *)
Fixpoint non_nil (cs : list (option BTreeNode)) : option (list BTreeNode) :=
  match cs with
  | [] => Some []
  | None :: _ => None
  | Some c :: cs' => r <- non_nil cs' ;; Some (c :: r)
  end.

(** [splitChild] returns the parent as the call leaves it.  [fullChild] is
    the pointer in [parent.children[index]]; the loop does not move that
    slot, so the two final assignments to [fullChild.keys] and
    [fullChild.values] (and the one to [fullChild.children]) are seen
    through it: the model writes the shortened child back into the slot. *)
Definition splitChild (bt : BTree) (parent : BTreeNode) (index : Z)
  : option BTreeNode :=
  fullChild <- Go.index (children parent) index ;;
  let mid := Go.sub (degree bt) 1 in
  newKeys <- Go.slice_from (keys fullChild) (Go.add mid 1) ;;
  newValues <- Go.slice_from (values fullChild) (Go.add mid 1) ;;
  '(newChildren, fullChildren) <-
     (if negb (leaf fullChild) then
        nc <- Go.slice_from (children fullChild) (Go.add mid 1) ;;
        fc <- Go.slice_to (children fullChild) (Go.add mid 1) ;;
        Some (nc, fc)
      else Some ([], children fullChild)) ;;
  let newChild := mkNode newKeys newValues newChildren (leaf fullChild) in
  let pkeys := Go.append (keys parent) 0%Z in
  let pvalues := Go.append (values parent) EmptyString in
  let pchildren := Go.append (map Some (children parent)) None in
  '(pkeys, pvalues, pchildren) <-
     shift_right index (length pkeys - 1) pkeys pvalues pchildren ;;
  midKey <- Go.index (keys fullChild) mid ;;
  pkeys <- Go.store pkeys index midKey ;;
  midValue <- Go.index (values fullChild) mid ;;
  pvalues <- Go.store pvalues index midValue ;;
  pchildren <- Go.store pchildren (index + 1) (Some newChild) ;;
  fullKeys <- Go.slice_to (keys fullChild) mid ;;
  fullValues <- Go.slice_to (values fullChild) mid ;;
  let fullChild := mkNode fullKeys fullValues fullChildren (leaf fullChild) in
  pchildren <- Go.store pchildren index (Some fullChild) ;;
  pchildren <- non_nil pchildren ;;
  Some (mkNode pkeys pvalues pchildren (leaf parent)).

(** Internal branch of [insertNonFull] up to the recursive call: the node
    after the optional split of the chosen child, and the final [i]. *)
Definition descend (bt : BTree) (node : BTreeNode) (key : Z)
  : option (BTreeNode * Z) :=
  p <- insert_pos key (keys node) (length (keys node)) ;;
  let i := Z.of_nat p in
  c <- Go.index (children node) i ;;
  if isFull bt c then
    node <- splitChild bt node i ;;
    k <- Go.index (keys node) i ;;
    Some (node, if (key >? k)%Z then (i + 1)%Z else i)
  else Some (node, i).

(** *** Termination of the descent *)

Ltac inv_bind H :=
  repeat match type of H with
    | match ?e with Some _ => _ | None => None end = Some _ =>
        let E := fresh "E" in
        destruct e eqn:E; [ | discriminate H ]
    | (let (_, _) := ?p in _) = Some _ => destruct p
    | match ?p with (_, _) => _ end = Some _ => destruct p
    | (if ?b then _ else None) = Some _ =>
        let E := fresh "E" in
        destruct b eqn:E; [ | discriminate H ]
    end.

Lemma index_In {A} (s : list A) i x : Go.index s i = Some x -> In x s.
Proof.
  unfold Go.index. destruct (0 <=? i)%Z; [ | discriminate ].
  apply nth_error_In.
Qed.

Lemma update_In {A} (s : list A) i x s' :
  Go.update s i x = Some s' -> forall y, In y s' -> y = x \/ In y s.
Proof.
  revert i s'. induction s as [ | a s IH ]; intros i s' H y Hy; simpl in H.
  - discriminate.
  - destruct i as [ | i ].
    + injection H as <-. simpl in *. intuition.
    + inv_bind H. injection H as <-. simpl in *.
      destruct Hy as [ -> | Hy ]; [ now auto | ].
      destruct (IH _ _ E _ Hy); auto.
Qed.

Lemma store_In {A} (s : list A) i x s' :
  Go.store s i x = Some s' -> forall y, In y s' -> y = x \/ In y s.
Proof.
  unfold Go.store. destruct (0 <=? i)%Z; [ | discriminate ].
  apply update_In.
Qed.

Lemma shift_right_In index i ks vs cs ks' vs' cs' :
  shift_right index i ks vs cs = Some (ks', vs', cs') ->
  forall c, In c cs' -> In c cs.
Proof.
  revert ks vs cs. induction i as [ | j IH ]; intros ks vs cs H c Hc.
  - simpl in H. destruct (0 >? index)%Z; [ discriminate | ].
    now injection H as <- <- <-.
  - cbn [shift_right] in H.
    destruct (Z.of_nat (S j) >? index)%Z.
    + inv_bind H. apply IH with (c := c) in H; [ | assumption ].
      match goal with
      | Hs : Go.store cs _ _ = Some _ |- _ =>
          destruct (store_In _ _ _ _ Hs _ H) as [ -> | ]; [ | assumption ]
      end.
      eapply index_In; eauto.
    + now injection H as <- <- <-.
Qed.

Lemma non_nil_In cs l :
  non_nil cs = Some l -> forall c, In c l -> In (Some c) cs.
Proof.
  revert l. induction cs as [ | [ a | ] cs IH ]; intros l H c Hc; simpl in H.
  - injection H as <-. destruct Hc.
  - inv_bind H. injection H as <-. simpl in *.
    destruct Hc as [ -> | Hc ]; eauto.
  - discriminate.
Qed.

Lemma height_In (n c : BTreeNode) : In c (children n) -> height c < height n.
Proof.
  intros H. destruct n as [ks vs cs lf]. simpl in *.
  assert (Hmax : list_max (map height cs) <= list_max (map height cs)) by lia.
  rewrite list_max_le, Forall_forall in Hmax.
  specialize (Hmax (height c) (in_map height _ _ H)). lia.
Qed.

Lemma height_le_children ks vs cs lf (n : BTreeNode) :
  incl cs (children n) -> height (mkNode ks vs cs lf) <= height n.
Proof.
  intros H. destruct n as [ks0 vs0 cs0 lf0]. simpl in *.
  apply le_n_S. rewrite list_max_le, Forall_forall.
  intros x Hx. apply in_map_iff in Hx. destruct Hx as (c & <- & Hc).
  apply H in Hc.
  assert (Hmax : list_max (map height cs0) <= list_max (map height cs0)) by lia.
  rewrite list_max_le, Forall_forall in Hmax.
  apply Hmax. now apply in_map.
Qed.

Lemma slice_from_incl {A} (s : list A) lo r :
  Go.slice_from s lo = Some r -> incl r s.
Proof.
  unfold Go.slice_from. destruct (_ && _); [ | discriminate ].
  intros H; injection H as <-. intros x Hx.
  rewrite <- (firstn_skipn (Z.to_nat lo) s). apply in_or_app. now right.
Qed.

Lemma slice_to_incl {A} (s : list A) hi r :
  Go.slice_to s hi = Some r -> incl r s.
Proof.
  unfold Go.slice_to. destruct (_ && _); [ | discriminate ].
  intros H; injection H as <-. intros x Hx.
  rewrite <- (firstn_skipn (Z.to_nat hi) s). apply in_or_app. now left.
Qed.

Lemma splitChild_height bt parent index parent' :
  splitChild bt parent index = Some parent' ->
  forall c, In c (children parent') -> height c < height parent.
Proof.
  unfold splitChild. intros H c Hc.
  destruct (Go.index (children parent) index) as [ full | ] eqn:Hfull;
    [ | discriminate ].
  apply index_In, height_In in Hfull.
  destruct (Go.slice_from (keys full) _) as [ nk | ]; [ | discriminate ].
  destruct (Go.slice_from (values full) _) as [ nv | ]; [ | discriminate ].
  match type of H with
  | match ?e with Some _ => _ | None => None end = _ =>
      destruct e as [ [nc fc] | ] eqn:Hcs; [ | discriminate ]
  end.
  assert (Hnc : incl nc (children full) /\ incl fc (children full)).
  { destruct (negb (leaf full)).
    - inv_bind Hcs. injection Hcs as <- <-.
      split; [ eapply slice_from_incl | eapply slice_to_incl ]; eauto.
    - injection Hcs as <- <-. split; [ intros x [] | apply incl_refl ]. }
  destruct Hnc as [Hnc Hfc].
  match type of H with
  | match ?e with Some _ => _ | None => None end = _ =>
      destruct e as [ [[pk pv] pc] | ] eqn:Hshift; [ | discriminate ]
  end.
  inv_bind H. injection H as <-. simpl in Hc.
  repeat match goal with
  | Hn : non_nil _ = Some _ |- _ => apply (non_nil_In _ _ Hn) in Hc; clear Hn
  | Hs : Go.store _ _ (Some _) = Some ?l, Hc : In _ ?l |- _ =>
      destruct (store_In _ _ _ _ Hs _ Hc) as [ Heq | Hc' ]; clear Hs Hc;
      [ injection Heq as ->;
        eapply Nat.le_lt_trans; [ apply height_le_children | exact Hfull ];
        assumption
      | rename Hc' into Hc ]
  end.
  apply (shift_right_In _ _ _ _ _ _ _ _ Hshift) in Hc.
  unfold Go.append in Hc. apply in_app_or in Hc.
  destruct Hc as [ Hc | [ Hc | [] ] ]; [ | discriminate ].
  apply in_map_iff in Hc. destruct Hc as (x & Hx & Hin).
  injection Hx as ->. now apply height_In.
Qed.

Lemma descend_height bt node key node' i c :
  descend bt node key = Some (node', i) ->
  Go.index (children node') i = Some c ->
  height c < height node.
Proof.
  unfold descend. intros H Hc.
  destruct (insert_pos key (keys node) _) as [ p | ]; [ | discriminate ].
  destruct (Go.index (children node) _) as [ ch | ]; [ | discriminate ].
  destruct (isFull bt ch).
  - inv_bind H. injection H as <- <-.
    eapply splitChild_height; eauto. eapply index_In; eauto.
  - injection H as <- <-. apply height_In. eapply index_In; eauto.
Qed.

(** [insertNonFull] returns the node as the call leaves it.  The recursive
    call mutates the child behind [node.children[i]]; the model writes the
    returned child back into that slot. *)
Equations insertNonFull (bt : BTree) (node : BTreeNode) (key : Z) (value : string)
  : option BTreeNode by wf (height node) lt :=
  insertNonFull bt node key value :=
    if leaf node then insertLeaf node key value
    else
      match descend bt node key as o return descend bt node key = o -> _ with
      | Some (node', i) => fun Hd =>
          match Go.index (children node') i as oc
                return Go.index (children node') i = oc -> _ with
          | Some c => fun Hc =>
              c' <- insertNonFull bt c key value ;;
              cs <- Go.store (children node') i c' ;;
              Some (set_children node' cs)
          | None => fun _ => None
          end eq_refl
      | None => fun _ => None
      end eq_refl.
Next Obligation. eapply descend_height; eauto. Qed.

(** The first statement of [Insert]: a full root is put under a new root
    and split; the tree [Insert] goes on with. *)
Definition splitRoot (bt : BTree) : option BTree :=
  if isFull bt (root bt) then
    let newRoot := mkNode [] [] [] false in
    let newRoot :=
      set_children newRoot (Go.append (children newRoot) (root bt)) in
    newRoot <- splitChild bt newRoot 0 ;;
    Some (mkBTree newRoot (degree bt))
  else Some bt.

Definition Insert (bt : BTree) (key : Z) (value : string) : option BTree :=
  bt <- splitRoot bt ;;
  r <- insertNonFull bt (root bt) key value ;;
  Some (mkBTree r (degree bt)).

(** A run of the program: [NewBTree(degree)] followed by the given
    [Insert] calls, in order. *)
Fixpoint inserts (bt : BTree) (ops : list (Z * string)) : option BTree :=
  match ops with
  | [] => Some bt
  | (k, v) :: ops' => bt' <- Insert bt k v ;; inserts bt' ops'
  end.

Definition build (degree : Z) (ops : list (Z * string)) : option BTree :=
  bt <- NewBTree degree ;; inserts bt ops.

(** ** Facts about the run-time primitives *)

Ltac split_all := repeat match goal with |- _ /\ _ => split end.

Ltac int_consts :=
  unfold Go.int_min, Go.int_max, Go.wrap in *;
  let p63 := eval vm_compute in (2 ^ 63)%Z in
  let p64 := eval vm_compute in (2 ^ 64)%Z in
  change (2 ^ 63)%Z with p63 in *; change (2 ^ 64)%Z with p64 in *.

Section Primitives.

Context {A : Type}.
Implicit Types (s : list A) (i : nat) (x : A).

Lemma wrap_small z :
  (Go.int_min <= z <= Go.int_max)%Z -> Go.wrap z = z.
Proof.
  intros H. int_consts. rewrite Z.mod_small; lia.
Qed.

Lemma index_nat s i : Go.index s (Z.of_nat i) = nth_error s i.
Proof.
  unfold Go.index. rewrite Nat2Z.id.
  destruct (Z.leb_spec 0 (Z.of_nat i)); [ reflexivity | lia ].
Qed.

Lemma store_nat s i x : Go.store s (Z.of_nat i) x = Go.update s i x.
Proof.
  unfold Go.store. rewrite Nat2Z.id.
  destruct (Z.leb_spec 0 (Z.of_nat i)); [ reflexivity | lia ].
Qed.

Lemma store_nat_succ s i x :
  Go.store s (Z.of_nat i + 1) x = Go.update s (S i) x.
Proof. rewrite <- store_nat. f_equal. lia. Qed.

Lemma update_app s1 s2 y x :
  Go.update (s1 ++ y :: s2) (length s1) x = Some (s1 ++ x :: s2).
Proof.
  induction s1 as [ | a s1 IH ]; simpl; [ reflexivity | ].
  now rewrite IH.
Qed.

Lemma update_Some s i x :
  i < length s ->
  Go.update s i x = Some (firstn i s ++ x :: skipn (S i) s).
Proof.
  revert i. induction s as [ | a s IH ]; intros i H; simpl in H.
  - lia.
  - destruct i as [ | i ]; [ reflexivity | ].
    simpl. rewrite IH by lia. reflexivity.
Qed.

Lemma slice_from_nat s i :
  i <= length s -> Go.slice_from s (Z.of_nat i) = Some (skipn i s).
Proof.
  intros H. unfold Go.slice_from, Go.len. rewrite Nat2Z.id.
  destruct (Z.leb_spec 0 (Z.of_nat i)); [ | lia ].
  destruct (Z.leb_spec (Z.of_nat i) (Z.of_nat (length s))); [ | lia ].
  reflexivity.
Qed.

Lemma slice_to_nat s i :
  i <= length s -> Go.slice_to s (Z.of_nat i) = Some (firstn i s).
Proof.
  intros H. unfold Go.slice_to, Go.len. rewrite Nat2Z.id.
  destruct (Z.leb_spec 0 (Z.of_nat i)); [ | lia ].
  destruct (Z.leb_spec (Z.of_nat i) (Z.of_nat (length s))); [ | lia ].
  reflexivity.
Qed.

(** Opening a slot at position [i]. *)
Definition insert_at i x s : list A := firstn i s ++ x :: skipn i s.

Lemma insert_at_length i x s : length (insert_at i x s) = S (length s).
Proof.
  unfold insert_at. rewrite length_app. simpl.
  rewrite <- (firstn_skipn i s) at 3. rewrite length_app. lia.
Qed.

Lemma nth_error_insert_at i x s :
  i <= length s -> nth_error (insert_at i x s) i = Some x.
Proof.
  intros H. unfold insert_at.
  rewrite nth_error_app2; rewrite length_firstn, Nat.min_l by lia; [ | lia ].
  now rewrite Nat.sub_diag.
Qed.

Lemma nth_error_split s i x :
  nth_error s i = Some x -> s = firstn i s ++ x :: skipn (S i) s.
Proof.
  revert i. induction s as [ | a s IH ]; intros [ | i ] H; simpl in *;
    try discriminate.
  - now injection H as ->.
  - f_equal. now apply IH.
Qed.

Lemma insert_at_end x s : insert_at (length s) x s = s ++ [x].
Proof.
  unfold insert_at. now rewrite firstn_all, skipn_all.
Qed.

Lemma nth_error_insert_at_lt i j x s :
  j < i -> i <= length s -> nth_error (insert_at i x s) j = nth_error s j.
Proof.
  intros H1 H2. unfold insert_at.
  rewrite nth_error_app1 by (rewrite length_firstn; lia).
  rewrite nth_error_firstn.
  destruct (Nat.ltb_spec j i); [ reflexivity | lia ].
Qed.

Lemma insert_at_dup i x s :
  nth_error s i = Some x -> insert_at (S i) x s = insert_at i x s.
Proof.
  intros H. unfold insert_at.
  rewrite (nth_error_split _ _ _ H) at 1.
  assert (Hi : i < length s) by (apply nth_error_Some; congruence).
  rewrite firstn_app, length_firstn, Nat.min_l by lia.
  replace (S i - i) with 1 by lia.
  rewrite firstn_firstn, Nat.min_r by lia. simpl.
  rewrite <- app_assoc. simpl. do 2 f_equal.
  rewrite (nth_error_split _ _ _ H) at 2.
  rewrite skipn_app, length_firstn, Nat.min_l by lia.
  rewrite skipn_all2 by (rewrite length_firstn; lia).
  now rewrite Nat.sub_diag.
Qed.

Lemma update_insert_at i x y s :
  i <= length s -> Go.update (insert_at i y s) i x = Some (insert_at i x s).
Proof.
  intros H. unfold insert_at.
  assert (E : length (firstn i s) = i) by (rewrite length_firstn; lia).
  pose proof (update_app (firstn i s) (skipn i s) y x) as U.
  now rewrite E in U.
Qed.

Lemma firstn_succ s i x :
  nth_error s i = Some x -> firstn (S i) s = firstn i s ++ [x].
Proof.
  revert i. induction s as [ | a s IH ]; intros [ | i ] H; simpl in *;
    try discriminate.
  - now injection H as ->.
  - f_equal. now apply IH.
Qed.

Lemma skipn_nth s i x :
  nth_error s i = Some x -> skipn i s = x :: skipn (S i) s.
Proof.
  revert i. induction s as [ | a s IH ]; intros [ | i ] H; simpl in *;
    try discriminate.
  - now injection H as ->.
  - now apply IH.
Qed.

Lemma nth_error_insert_at_gt i j x s :
  i <= j -> i <= length s ->
  nth_error (insert_at i x s) (S j) = nth_error s j.
Proof.
  intros H1 H2. unfold insert_at.
  rewrite nth_error_app2 by (rewrite length_firstn; lia).
  rewrite length_firstn, Nat.min_l by lia.
  replace (S j - i) with (S (j - i)) by lia. simpl.
  rewrite nth_error_skipn. f_equal. lia.
Qed.

Lemma Forall_firstn (P : A -> Prop) i s : Forall P s -> Forall P (firstn i s).
Proof.
  intros H. rewrite <- (firstn_skipn i s) in H.
  now apply Forall_app in H.
Qed.

Lemma Forall_skipn (P : A -> Prop) i s : Forall P s -> Forall P (skipn i s).
Proof.
  intros H. rewrite <- (firstn_skipn i s) in H.
  now apply Forall_app in H.
Qed.

Lemma Forall_nth_error (P : A -> Prop) s i x :
  Forall P s -> nth_error s i = Some x -> P x.
Proof.
  intros H Hx. rewrite Forall_forall in H. eapply H, nth_error_In; eauto.
Qed.

Lemma nth_error_pair i s x y r :
  i <= length s ->
  nth_error (firstn i s ++ x :: y :: r) i = Some x
  /\ nth_error (firstn i s ++ x :: y :: r) (S i) = Some y.
Proof.
  intros H.
  rewrite !nth_error_app2 by (rewrite length_firstn; lia).
  rewrite length_firstn, Nat.min_l by lia.
  replace (S i - i) with 1 by lia. rewrite Nat.sub_diag. now split.
Qed.

Lemma firstn_insert_at_le i j x s :
  j <= i -> i <= length s -> firstn j (insert_at i x s) = firstn j s.
Proof.
  intros H1 H2. unfold insert_at.
  rewrite firstn_app, length_firstn, Nat.min_l by lia.
  replace (j - i) with 0 by lia. simpl. rewrite app_nil_r.
  rewrite firstn_firstn. f_equal. lia.
Qed.

Lemma skipn_insert_at_same i x s :
  i <= length s -> skipn i (insert_at i x s) = x :: skipn i s.
Proof.
  intros H. unfold insert_at.
  rewrite skipn_app, length_firstn, Nat.min_l by lia.
  rewrite skipn_all2 by (rewrite length_firstn; lia).
  now rewrite Nat.sub_diag.
Qed.

End Primitives.

(** ** The loops *)

Lemma search_pos_le key ks : search_pos key ks <= length ks.
Proof.
  induction ks as [ | k ks IH ]; simpl; [ lia | ].
  destruct (key >? k)%Z; simpl; lia.
Qed.

Lemma search_pos_before key ks :
  Forall (fun k => (k < key)%Z) (firstn (search_pos key ks) ks).
Proof.
  induction ks as [ | k ks IH ]; simpl; [ constructor | ].
  destruct (Z.gtb_spec key k) as [ Hgt | Hle ]; simpl; constructor;
    [ lia | assumption ].
Qed.

Lemma search_pos_at key ks k :
  nth_error ks (search_pos key ks) = Some k -> (key <= k)%Z.
Proof.
  induction ks as [ | k0 ks IH ]; simpl; [ discriminate | ].
  destruct (Z.gtb_spec key k0) as [ Hgt | Hle ]; simpl; [ assumption | ].
  intros Hk; injection Hk as <-. lia.
Qed.

Lemma insert_pos_spec key ks n :
  n <= length ks ->
  exists p,
    insert_pos key ks n = Some p /\ p <= n
    /\ (forall j k, p <= j < n -> nth_error ks j = Some k -> (key < k)%Z)
    /\ (forall q k, p = S q -> nth_error ks q = Some k -> (k <= key)%Z).
Proof.
  induction n as [ | i IH ]; intros Hn.
  - exists 0. simpl. repeat split; lia.
  - cbn [insert_pos]. rewrite index_nat.
    destruct (nth_error ks i) as [ k | ] eqn:Hk;
      [ | apply nth_error_None in Hk; lia ].
    destruct (Z.ltb_spec key k) as [ Hlt | Hge ].
    + destruct IH as (p & Hp & Hle & Habove & Hbelow); [ lia | ].
      exists p. repeat split; auto.
      intros j k' Hj Hk'. destruct (Nat.eq_dec j i) as [ -> | Hne ].
      * congruence.
      * apply (Habove j); [ lia | assumption ].
    + exists (S i). repeat split; try lia.
      intros q k' Hq Hk'. injection Hq as <-. congruence.
Qed.

Lemma shift_insert_spec key ks vs :
  length vs = length ks ->
  forall n g gv p,
    n <= length ks ->
    insert_pos key ks n = Some p ->
    exists g' gv',
      shift_insert key n (insert_at n g ks) (insert_at n gv vs)
      = Some (insert_at p g' ks, insert_at p gv' vs, p).
Proof.
  intros Hlen. induction n as [ | i IH ]; intros g gv p Hn Hp.
  - simpl in Hp. injection Hp as <-. exists g, gv. reflexivity.
  - cbn [insert_pos shift_insert] in *. rewrite index_nat in Hp.
    rewrite !index_nat, !nth_error_insert_at_lt by lia.
    destruct (nth_error ks i) as [ k | ] eqn:Hk; [ | discriminate ].
    destruct (key <? k)%Z.
    + destruct (nth_error vs i) as [ v | ] eqn:Hv;
        [ | apply nth_error_None in Hv; lia ].
      rewrite !store_nat_succ, !update_insert_at by lia.
      rewrite (insert_at_dup _ _ _ Hk), (insert_at_dup _ _ _ Hv).
      apply IH; [ lia | assumption ].
    + injection Hp as <-. exists g, gv. reflexivity.
Qed.

Lemma insertLeaf_spec node key value p :
  length (values node) = length (keys node) ->
  insert_pos key (keys node) (length (keys node)) = Some p ->
  insertLeaf node key value
  = Some (mkNode (insert_at p key (keys node)) (insert_at p value (values node))
            (children node) (leaf node)).
Proof.
  intros Hlen Hp. unfold insertLeaf, Go.append.
  destruct (insert_pos_spec key (keys node) _ (le_n _)) as (p' & Hp' & Hle & _).
  assert (p' = p) by congruence. subst p'.
  destruct (shift_insert_spec key _ _ Hlen _ 0%Z EmptyString _ (le_n _) Hp)
    as (g' & gv' & Hshift).
  assert (Ek : keys node ++ [0%Z]
               = insert_at (length (keys node)) 0%Z (keys node))
    by (symmetry; apply insert_at_end).
  assert (Ev : values node ++ [EmptyString]
               = insert_at (length (keys node)) EmptyString (values node))
    by (rewrite <- Hlen; symmetry; apply insert_at_end).
  rewrite Ek, Ev, Hshift.
  rewrite !store_nat, !update_insert_at by lia. reflexivity.
Qed.

Lemma shift_right_S index j ks vs cs :
  shift_right index (S j) ks vs cs
  = if (Z.of_nat (S j) >? index)%Z then
      k <- Go.index ks (Z.of_nat j) ;;
      ks' <- Go.store ks (Z.of_nat (S j)) k ;;
      v <- Go.index vs (Z.of_nat j) ;;
      vs' <- Go.store vs (Z.of_nat (S j)) v ;;
      c <- Go.index cs (Z.of_nat (S j)) ;;
      cs' <- Go.store cs (Z.of_nat (S j) + 1) c ;;
      shift_right index j ks' vs' cs'
    else Some (ks, vs, cs).
Proof. reflexivity. Qed.

Lemma shift_right_spec {C} idx ks vs (cs : list C) (f : C -> option BTreeNode) :
  length vs = length ks ->
  length cs = S (length ks) ->
  forall i g gv gc,
    idx <= i <= length ks ->
    exists g' gv' gc',
      shift_right (Z.of_nat idx) i
        (insert_at i g ks) (insert_at i gv vs) (insert_at (S i) gc (map f cs))
      = Some (insert_at idx g' ks, insert_at idx gv' vs,
              insert_at (S idx) gc' (map f cs)).
Proof.
  intros Hvs Hcs. induction i as [ | j IH ]; intros g gv gc Hi.
  - assert (idx = 0) by lia. subst idx. exists g, gv, gc. reflexivity.
  - rewrite shift_right_S.
    destruct (Z.gtb_spec (Z.of_nat (S j)) (Z.of_nat idx)) as [ Hgt | Hle ].
    + rewrite !index_nat.
      rewrite !nth_error_insert_at_lt by (rewrite ?length_map; lia).
      destruct (nth_error ks j) as [ k | ] eqn:Hk;
        [ | apply nth_error_None in Hk; lia ].
      destruct (nth_error vs j) as [ v | ] eqn:Hv;
        [ | apply nth_error_None in Hv; lia ].
      destruct (nth_error (map f cs) (S j)) as [ c | ] eqn:Hc;
        [ | apply nth_error_None in Hc; rewrite length_map in Hc; lia ].
      rewrite !store_nat, !store_nat_succ.
      rewrite !update_insert_at by (rewrite ?length_map; lia).
      rewrite (insert_at_dup _ _ _ Hk), (insert_at_dup _ _ _ Hv),
        (insert_at_dup _ _ _ Hc).
      apply IH. lia.
    + assert (idx = S j) by lia. subst idx. exists g, gv, gc. reflexivity.
Qed.


(** ** What [splitChild] computes *)

(** The two nodes a child is divided into around the key at index [m]. *)
Definition left_half (m : nat) (c : BTreeNode) : BTreeNode :=
  mkNode (firstn m (keys c)) (firstn m (values c))
    (if leaf c then children c else firstn (S m) (children c)) (leaf c).

Definition right_half (m : nat) (c : BTreeNode) : BTreeNode :=
  mkNode (skipn (S m) (keys c)) (skipn (S m) (values c))
    (if leaf c then [] else skipn (S m) (children c)) (leaf c).

(** [mid] of [splitChild] as a position. *)
Definition mid_of (bt : BTree) : nat := Z.to_nat (degree bt - 1).

Lemma mid_of_eq bt :
  (1 <= degree bt <= Go.int_max)%Z ->
  Go.sub (degree bt) 1 = Z.of_nat (mid_of bt)
  /\ Go.add (Go.sub (degree bt) 1) 1 = Z.of_nat (S (mid_of bt)).
Proof.
  intros H. unfold Go.sub, Go.add, mid_of.
  assert (E : Go.wrap (degree bt - 1) = (degree bt - 1)%Z)
    by (apply wrap_small; int_consts; lia).
  rewrite E. rewrite wrap_small by (int_consts; lia).
  split; lia.
Qed.

Lemma non_nil_map cs : non_nil (map Some cs) = Some cs.
Proof.
  induction cs as [ | c cs IH ]; simpl; [ reflexivity | now rewrite IH ].
Qed.

Lemma splitChild_spec bt parent idx child mk mv :
  (1 <= degree bt <= Go.int_max)%Z ->
  length (values parent) = length (keys parent) ->
  length (children parent) = S (length (keys parent)) ->
  nth_error (children parent) idx = Some child ->
  nth_error (keys child) (mid_of bt) = Some mk ->
  nth_error (values child) (mid_of bt) = Some mv ->
  (leaf child = false -> S (mid_of bt) <= length (children child)) ->
  splitChild bt parent (Z.of_nat idx)
  = Some (mkNode (insert_at idx mk (keys parent))
            (insert_at idx mv (values parent))
            (firstn idx (children parent)
               ++ left_half (mid_of bt) child
               :: right_half (mid_of bt) child
               :: skipn (S idx) (children parent))
            (leaf parent)).
Proof.
  intros Hdeg Hvs Hcs Hchild Hmk Hmv Hcc.
  destruct (mid_of_eq bt Hdeg) as [Emid Emid1].
  set (m := mid_of bt) in *.
  assert (Hidx : idx < length (children parent))
    by (apply nth_error_Some; congruence).
  assert (Hm : m < length (keys child)) by (apply nth_error_Some; congruence).
  assert (Hm' : m < length (values child)) by (apply nth_error_Some; congruence).
  unfold splitChild. rewrite index_nat, Hchild, Emid1, Emid.
  rewrite (slice_from_nat (keys child)), (slice_from_nat (values child)),
    (slice_to_nat (keys child)), (slice_to_nat (values child)),
    !index_nat, Hmk, Hmv by lia.
  assert (Ehalves :
    (if negb (leaf child) then
       nc <- Go.slice_from (children child) (Z.of_nat (S m)) ;;
       fc <- Go.slice_to (children child) (Z.of_nat (S m)) ;;
       Some (nc, fc)
     else Some ([], children child))
    = Some (children (right_half m child), children (left_half m child))).
  { unfold left_half, right_half. cbn [children].
    destruct (leaf child); cbn [negb]; [ reflexivity | ].
    rewrite slice_from_nat, slice_to_nat by auto. reflexivity. }
  rewrite Ehalves. clear Ehalves.
  unfold Go.append. rewrite length_app, Nat.add_sub.
  rewrite <- (insert_at_end 0%Z (keys parent)).
  assert (Ev : values parent ++ [EmptyString]
               = insert_at (length (keys parent)) EmptyString (values parent))
    by (rewrite <- Hvs; symmetry; apply insert_at_end).
  assert (Ec : map Some (children parent) ++ [None]
               = insert_at (S (length (keys parent))) None
                   (map Some (children parent)))
    by (rewrite <- Hcs, <- (length_map Some); symmetry; apply insert_at_end).
  rewrite Ev, Ec. clear Ev Ec.
  destruct (shift_right_spec idx (keys parent) (values parent)
              (children parent) Some Hvs Hcs (length (keys parent))
              0%Z EmptyString None) as (g' & gv' & gc' & Hshift); [ lia | ].
  rewrite Hshift. clear Hshift.
  rewrite !store_nat, !store_nat_succ.
  rewrite !update_insert_at by (rewrite ?length_map; lia).
  cbv beta iota.
  rewrite store_nat, update_Some by (rewrite insert_at_length, length_map; lia).
  rewrite firstn_insert_at_le, skipn_insert_at_same by (rewrite ?length_map; lia).
  rewrite firstn_map, skipn_map.
  match goal with
  | |- context [non_nil ?l] =>
      replace l
        with (map Some (firstn idx (children parent)
                          ++ left_half m child :: right_half m child
                          :: skipn (S idx) (children parent)))
        by (rewrite map_app; reflexivity)
  end.
  rewrite non_nil_map. reflexivity.
Qed.

(** ** In-order listing *)

(** Walks of the subtrees [cs] with the entries [es] of the node between
    them: [c0 e0 c1 e1 ... ]. *)
Fixpoint interleave {E} (cs : list (list E)) (es : list E) : list E :=
  match cs with
  | [] => es
  | c :: cs' =>
      c ++ match es with
           | [] => concat cs'
           | e :: es' => e :: interleave cs' es'
           end
  end.

(** Modelled from the spec: the read-only in-order walk of section 6
    ("an implicit read-only traversal capability"), which the source does
    not implement: subtree [i], then entry [i], and the last subtree at the
    end. *)
Fixpoint inorder (n : BTreeNode) : list (Z * string) :=
  match n with
  | mkNode ks vs cs _ => interleave (map inorder cs) (combine ks vs)
  end.

Definition inorder_keys (n : BTreeNode) : list Z := map fst (inorder n).

Definition entries (n : BTreeNode) : list (Z * string) :=
  combine (keys n) (values n).

Lemma inorder_eq n :
  inorder n = interleave (map inorder (children n)) (entries n).
Proof. destruct n; reflexivity. Qed.

Section ListFacts.

Context {A B : Type}.

Lemma skipn_combine (l : list A) (l' : list B) n :
  skipn n (combine l l') = combine (skipn n l) (skipn n l').
Proof.
  revert l l'. induction n as [ | n IH ]; intros l l'; [ reflexivity | ].
  destruct l as [ | a l ]; [ reflexivity | ].
  destruct l' as [ | b l' ]; simpl.
  - now destruct (skipn n l).
  - apply IH.
Qed.

Lemma map_fst_combine (l : list A) (l' : list B) :
  length l' = length l -> map fst (combine l l') = l.
Proof.
  revert l'. induction l as [ | a l IH ]; intros [ | b l' ] H;
    simpl in *; try discriminate; try reflexivity.
  f_equal. apply IH. lia.
Qed.

Lemma nth_error_combine (l : list A) (l' : list B) i a b :
  nth_error l i = Some a -> nth_error l' i = Some b ->
  nth_error (combine l l') i = Some (a, b).
Proof.
  revert l l'. induction i as [ | i IH ]; intros [ | x l ] [ | y l' ];
    simpl; try discriminate.
  - intros H1 H2. injection H1 as ->. injection H2 as ->. reflexivity.
  - apply IH.
Qed.

Lemma combine_insert_at (l : list A) (l' : list B) i a b :
  length l' = length l ->
  combine (insert_at i a l) (insert_at i b l')
  = insert_at i (a, b) (combine l l').
Proof.
  intros H. unfold insert_at.
  rewrite combine_firstn, skipn_combine.
  revert l l' H. induction i as [ | i IH ]; intros l l' H.
  - reflexivity.
  - destruct l as [ | x l ]; destruct l' as [ | y l' ];
      simpl in *; try discriminate; try reflexivity.
    f_equal. apply IH. lia.
Qed.

Lemma interleave_app (cs1 cs2 : list (list A)) es1 es2 :
  length cs1 = length es1 ->
  interleave (cs1 ++ cs2) (es1 ++ es2)
  = interleave cs1 es1 ++ interleave cs2 es2.
Proof.
  revert es1. induction cs1 as [ | c cs1 IH ]; intros [ | e es1 ] H;
    simpl in *; try discriminate; try reflexivity.
  rewrite IH by lia. now rewrite <- app_assoc.
Qed.

(** With one more subtree than entries, the listing around subtree [i]. *)
Lemma interleave_at (cs : list (list A)) es i c :
  length cs = S (length es) ->
  nth_error cs i = Some c ->
  interleave cs es
  = interleave (firstn i cs) (firstn i es)
      ++ c ++ interleave ([] :: skipn (S i) cs) (skipn i es).
Proof.
  intros Hlen Hc.
  assert (Hi : i < length cs) by (apply nth_error_Some; congruence).
  rewrite (nth_error_split _ _ _ Hc) at 1.
  rewrite <- (firstn_skipn i es) at 1.
  rewrite interleave_app by (rewrite !length_firstn; lia).
  f_equal.
Qed.

End ListFacts.

Section Sortedness.

Context {A : Type} (R : A -> A -> Prop).

Lemma StronglySorted_app_iff (l1 l2 : list A) :
  StronglySorted R (l1 ++ l2)
  <-> StronglySorted R l1 /\ StronglySorted R l2
      /\ (forall x y, In x l1 -> In y l2 -> R x y).
Proof.
  induction l1 as [ | a l1 IH ]; simpl.
  - split.
    + intros H. repeat split; [ constructor | assumption | intros ? ? [] ].
    + now intros (_ & H & _).
  - split.
    + intros H. apply StronglySorted_inv in H. destruct H as [Hs Hall].
      apply IH in Hs. destruct Hs as (H1 & H2 & H12).
      rewrite Forall_forall in Hall.
      repeat split.
      * constructor; [ assumption | ].
        apply Forall_forall. intros x Hx. apply Hall, in_or_app. now left.
      * assumption.
      * intros x y [ <- | Hx ] Hy; [ | now apply H12 ].
        apply Hall, in_or_app. now right.
    + intros (H1 & H2 & H12). apply StronglySorted_inv in H1.
      destruct H1 as [H1 Hall]. rewrite Forall_forall in Hall.
      constructor.
      * apply IH. repeat split; auto.
      * apply Forall_forall. intros x Hx. apply in_app_or in Hx.
        destruct Hx; auto.
Qed.

End Sortedness.

(** ** Unfolding the recursive operations *)

Lemma convoy_elim {A T} (e : option A) (f : A -> T) (d : T) :
  match e as o return e = o -> T with
  | Some a => fun _ => f a
  | None => fun _ => d
  end eq_refl
  = match e with Some a => f a | None => d end.
Proof. destruct e; reflexivity. Qed.

Lemma searchNode_eq bt node key :
  searchNode bt node key =
    let i := Z.of_nat (search_pos key (keys node)) in
    if (i <? Go.len (keys node))%Z
       && match Go.index (keys node) i with
          | Some k => (key =? k)%Z
          | None => false
          end
    then v <- Go.index (values node) i ;; Some (v, true)
    else if leaf node then Some (EmptyString, false)
    else c <- Go.index (children node) i ;; searchNode bt c key.
Proof.
  rewrite searchNode_equation_1. cbv zeta.
  destruct (_ && _); [ reflexivity | ].
  destruct (leaf node); [ reflexivity | ].
  apply convoy_elim.
Qed.

Lemma insertNonFull_eq bt node key value :
  insertNonFull bt node key value =
    if leaf node then insertLeaf node key value
    else
      ' (node', i) <- descend bt node key ;;
      c <- Go.index (children node') i ;;
      c' <- insertNonFull bt c key value ;;
      cs <- Go.store (children node') i c' ;;
      Some (set_children node' cs).
Proof.
  rewrite insertNonFull_equation_1.
  destruct (leaf node); [ reflexivity | ].
  destruct (descend bt node key) as [ [node' i] | ]; [ | reflexivity ].
  apply convoy_elim.
Qed.

(** ** Listing around a child *)

Definition before (i : nat) (n : BTreeNode) : list (Z * string) :=
  interleave (map inorder (firstn i (children n))) (firstn i (entries n)).

Definition after (i : nat) (n : BTreeNode) : list (Z * string) :=
  interleave ([] :: map inorder (skipn (S i) (children n))) (skipn i (entries n)).

Lemma entries_length n :
  length (values n) = length (keys n) -> length (entries n) = length (keys n).
Proof. intros H. unfold entries. rewrite length_combine. lia. Qed.

Lemma entries_keys n :
  length (values n) = length (keys n) -> map fst (entries n) = keys n.
Proof. apply map_fst_combine. Qed.

Lemma nth_error_entries n i e :
  nth_error (entries n) i = Some e -> nth_error (keys n) i = Some (fst e).
Proof.
  unfold entries. revert i. generalize (values n).
  induction (keys n) as [ | k ks IH ]; intros [ | v vs ] [ | i ]; simpl;
    try discriminate.
  - intros H. now injection H as <-.
  - apply IH.
Qed.

Lemma inorder_at_child n i c :
  length (values n) = length (keys n) ->
  length (children n) = S (length (keys n)) ->
  nth_error (children n) i = Some c ->
  inorder n = before i n ++ inorder c ++ after i n.
Proof.
  intros Hvs Hcs Hc. rewrite inorder_eq. unfold before, after.
  rewrite <- firstn_map, <- skipn_map.
  apply interleave_at.
  - rewrite length_map, entries_length; assumption.
  - now rewrite nth_error_map, Hc.
Qed.

Lemma inorder_set_child n i c c' :
  length (values n) = length (keys n) ->
  length (children n) = S (length (keys n)) ->
  nth_error (children n) i = Some c ->
  inorder (set_children n
             (firstn i (children n) ++ c' :: skipn (S i) (children n)))
  = before i n ++ inorder c' ++ after i n.
Proof.
  intros Hvs Hcs Hc.
  assert (Hi : i < length (children n)) by (apply nth_error_Some; congruence).
  set (n' := set_children n _).
  assert (Hc' : nth_error (children n') i = Some c').
  { unfold n'. cbn [children set_children].
    rewrite nth_error_app2; rewrite length_firstn, Nat.min_l by lia; [ | lia ].
    now rewrite Nat.sub_diag. }
  rewrite (inorder_at_child n' i c'); try assumption.
  - unfold before, after, n', entries. cbn [children keys values set_children].
    rewrite firstn_app, length_firstn, Nat.min_l, Nat.sub_diag by lia.
    rewrite firstn_firstn, Nat.min_id. cbn [firstn]. rewrite app_nil_r.
    rewrite skipn_app, length_firstn, Nat.min_l by lia.
    rewrite skipn_all2 by (rewrite length_firstn; lia).
    replace (S i - i) with 1 by lia. reflexivity.
  - unfold n'. cbn [children keys set_children].
    rewrite length_app, length_firstn, Nat.min_l by lia. cbn [length].
    rewrite length_skipn. lia.
Qed.

Lemma before_last n q e :
  children n = [] \/ q < length (children n) ->
  nth_error (entries n) q = Some e ->
  exists l, before (S q) n = l ++ [e].
Proof.
  intros Hq He. unfold before.
  assert (Hq' : q < length (entries n)) by (apply nth_error_Some; congruence).
  destruct Hq as [ Hnil | Hq ].
  { rewrite Hnil, firstn_nil, (firstn_succ _ _ _ He). simpl. eauto. }
  destruct (nth_error (children n) q) as [ c | ] eqn:Hc;
    [ | apply nth_error_None in Hc; lia ].
  rewrite (firstn_succ _ _ _ He), (firstn_succ _ _ _ Hc).
  rewrite map_app, interleave_app
    by (rewrite length_map, !length_firstn; lia).
  simpl. exists (interleave (map inorder (firstn q (children n)))
                   (firstn q (entries n)) ++ inorder c).
  now rewrite <- app_assoc.
Qed.

Lemma after_first n i e :
  nth_error (entries n) i = Some e ->
  exists l, after i n = e :: l.
Proof.
  intros He. unfold after.
  rewrite (skipn_nth _ _ _ He). simpl. eauto.
Qed.

Lemma after_end n i :
  children n = [] \/ length (children n) = S (length (entries n)) ->
  nth_error (entries n) i = None ->
  after i n = [].
Proof.
  intros Hcs He. apply nth_error_None in He. unfold after.
  destruct Hcs as [ Hnil | Hcs ].
  - rewrite Hnil, skipn_nil, skipn_all2 by lia. reflexivity.
  - rewrite !skipn_all2 by lia. reflexivity.
Qed.

(** Slices agree with the node shape: a leaf has no children, an internal
    node one more child than keys. *)
Definition slices_ok (n : BTreeNode) : Prop :=
  length (values n) = length (keys n)
  /\ (children n = [] \/ length (children n) = S (length (keys n))).

Lemma leaf_around n i :
  children n = [] ->
  before i n = firstn i (entries n) /\ after i n = skipn i (entries n).
Proof.
  intros Hnil. unfold before, after. rewrite Hnil, firstn_nil, skipn_nil.
  simpl. split; [ reflexivity | ]. now destruct (skipn i (entries n)).
Qed.

Lemma leaf_inorder n i :
  children n = [] -> inorder n = before i n ++ after i n.
Proof.
  intros Hnil. destruct (leaf_around n i Hnil) as [-> ->].
  rewrite firstn_skipn, inorder_eq, Hnil. reflexivity.
Qed.

Section Bounds.

Variable R : Z -> Z -> Prop.

Lemma before_bound (P : Z -> Prop) n i :
  (forall x y, R x y -> P y -> P x) ->
  slices_ok n ->
  i <= length (keys n) ->
  StronglySorted R (map fst (before i n)) ->
  (forall q k, i = S q -> nth_error (keys n) q = Some k -> P k) ->
  Forall (fun e => P (fst e)) (before i n).
Proof.
  intros HP [Hvs Hcs] Hi Hs Hk.
  destruct i as [ | q ]; [ constructor | ].
  destruct (nth_error (entries n) q) as [ e | ] eqn:He;
    [ | apply nth_error_None in He; rewrite entries_length in He; lia ].
  destruct (before_last n q e) as (l & Hl);
    [ destruct Hcs; [ now left | right; lia ] | assumption | ].
  rewrite Hl in *. rewrite map_app in Hs.
  apply StronglySorted_app_iff in Hs. destruct Hs as (_ & _ & Hs).
  assert (Pe : P (fst e))
    by (apply (Hk q); [ reflexivity | now apply nth_error_entries ]).
  apply Forall_app. split; [ | now repeat constructor ].
  apply Forall_forall. intros x Hx.
  apply (HP _ (fst e)); [ | assumption ].
  apply Hs; [ now apply in_map | now left ].
Qed.

Lemma after_bound (Q : Z -> Prop) n i :
  (forall x y, R x y -> Q x -> Q y) ->
  slices_ok n ->
  StronglySorted R (map fst (after i n)) ->
  (forall k, nth_error (keys n) i = Some k -> Q k) ->
  Forall (fun e => Q (fst e)) (after i n).
Proof.
  intros HQ [Hvs Hcs] Hs Hk.
  destruct (nth_error (entries n) i) as [ e | ] eqn:He.
  - destruct (after_first n i e He) as (l & Hl). rewrite Hl in *.
    simpl in Hs. apply StronglySorted_inv in Hs. destruct Hs as [_ Hs].
    assert (Qe : Q (fst e)) by (now apply Hk, nth_error_entries).
    constructor; [ assumption | ].
    rewrite Forall_forall in *. intros x Hx.
    apply (HQ (fst e)); [ | assumption ].
    apply Hs. now apply in_map.
  - rewrite after_end; [ constructor | | assumption ].
    now rewrite entries_length.
Qed.

End Bounds.

(** ** Structural invariant *)

(** The right-hand side of the test in [isFull]. *)
Definition max_keys (t : Z) : Z := Go.sub (Go.mul 2 t) 1.

Lemma isFull_eq bt n :
  isFull bt n = (Go.len (keys n) =? max_keys (degree bt))%Z.
Proof. reflexivity. Qed.

Lemma max_keys_cases t :
  (2 <= t <= Go.int_max)%Z ->
  (max_keys t = 2 * t - 1 \/ (max_keys t < 0 /\ Go.int_max < 2 * t - 1))%Z.
Proof.
  intros H. unfold max_keys, Go.sub, Go.mul.
  destruct (Z_le_gt_dec t (2 ^ 62)) as [ Hle | Hgt ]; [ left | right ].
  - destruct (Z.eq_dec t (2 ^ 62)) as [ -> | Hne ]; [ reflexivity | ].
    assert (Hlt : (t < 2 ^ 62)%Z) by lia.
    change (2 ^ 62)%Z with 4611686018427387904%Z in *.
    rewrite (wrap_small (2 * t)) by (int_consts; lia).
    apply wrap_small. int_consts. lia.
  - change (2 ^ 62)%Z with 4611686018427387904%Z in *.
    assert (E : Go.wrap (2 * t) = (2 * t - 2 ^ 64)%Z).
    { int_consts.
      replace (2 * t + 9223372036854775808)%Z
        with ((2 * t - 9223372036854775808) + 1 * 18446744073709551616)%Z by lia.
      rewrite Z.mod_add by lia. rewrite Z.mod_small; lia. }
    rewrite E. rewrite wrap_small; int_consts; lia.
Qed.

(** Key-count bounds of a node other than the root. *)
Definition key_bounds (t : Z) (n : BTreeNode) : Prop :=
  (t - 1 <= Go.len (keys n) <= max_keys t)%Z.

(** [shaped t h n]: the subtree under [n] has all its leaves [h] levels
    below [n], values and children slices are as long as the keys require,
    and every node below [n] respects the key-count bounds. *)
Fixpoint shaped (t : Z) (h : nat) (n : BTreeNode) : Prop :=
  length (values n) = length (keys n)
  /\ match h with
     | O => leaf n = true /\ children n = []
     | S h' =>
         leaf n = false
         /\ length (children n) = S (length (keys n))
         /\ Forall (fun c => key_bounds t c /\ shaped t h' c) (children n)
     end.

Lemma shaped_values t h n :
  shaped t h n -> length (values n) = length (keys n).
Proof. destruct h; simpl; tauto. Qed.

Lemma shaped_leaf t h n : shaped t h n -> leaf n = match h with O => true | _ => false end.
Proof. destruct h; simpl; tauto. Qed.

Lemma shaped_children_length t h n :
  shaped t h n -> leaf n = false -> length (children n) = S (length (keys n)).
Proof. destruct h; simpl; intros H E; [ | tauto ]. destruct H as (_ & H & _). congruence. Qed.

Lemma halves_inorder n m mk mv :
  length (values n) = length (keys n) ->
  (if leaf n then children n = []
   else length (children n) = S (length (keys n))) ->
  nth_error (keys n) m = Some mk ->
  nth_error (values n) m = Some mv ->
  inorder n = inorder (left_half m n) ++ (mk, mv) :: inorder (right_half m n).
Proof.
  intros Hvs Hcs Hmk Hmv.
  assert (He : nth_error (entries n) m = Some (mk, mv))
    by (now apply nth_error_combine).
  assert (Hm : m < length (keys n)) by (apply nth_error_Some; congruence).
  rewrite !inorder_eq. unfold left_half, right_half, entries.
  cbn [keys values children].
  rewrite <- combine_firstn, <- skipn_combine. fold (entries n).
  destruct (leaf n).
  - rewrite Hcs. simpl. apply nth_error_split. assumption.
  - destruct (nth_error (children n) m) as [ c | ] eqn:Hc;
      [ | apply nth_error_None in Hc; lia ].
    rewrite (interleave_at (map inorder (children n)) (entries n) m (inorder c));
      [ | rewrite length_map, entries_length; assumption
        | now rewrite nth_error_map, Hc ].
    rewrite (firstn_succ _ _ _ Hc), map_app.
    rewrite <- (app_nil_r (firstn m (entries n))) at 2.
    rewrite interleave_app
      by (rewrite length_map, !length_firstn, entries_length; lia).
    rewrite (skipn_nth _ _ _ He), firstn_map, skipn_map. simpl.
    rewrite app_nil_r, <- app_assoc. reflexivity.
Qed.

Lemma split_inorder parent idx child mk mv m :
  length (values parent) = length (keys parent) ->
  length (children parent) = S (length (keys parent)) ->
  nth_error (children parent) idx = Some child ->
  inorder child
  = inorder (left_half m child) ++ (mk, mv) :: inorder (right_half m child) ->
  inorder (mkNode (insert_at idx mk (keys parent))
             (insert_at idx mv (values parent))
             (firstn idx (children parent)
                ++ left_half m child :: right_half m child
                :: skipn (S idx) (children parent))
             (leaf parent))
  = inorder parent.
Proof.
  intros Hvs Hcs Hchild Hhalves.
  assert (Hidx : idx < length (children parent))
    by (apply nth_error_Some; congruence).
  rewrite (inorder_at_child parent idx child Hvs Hcs Hchild).
  unfold before, after. rewrite Hhalves.
  simpl. rewrite combine_insert_at by assumption. fold (entries parent).
  unfold insert_at. rewrite map_app.
  rewrite interleave_app
    by (rewrite length_map, !length_firstn, entries_length; lia).
  simpl. rewrite <- !app_assoc. reflexivity.
Qed.

(** The root may hold fewer keys than [degree - 1]; it never holds more
    than the threshold of [isFull]. *)
Definition root_bound (t : Z) (n : BTreeNode) : Prop :=
  (0 <= max_keys t -> Go.len (keys n) <= max_keys t)%Z.

(** [l'] is [l] with the entry [(key, value)] added at a place that keeps a
    sorted listing sorted. *)
Definition inserted (key : Z) (value : string) (l l' : list (Z * string))
  : Prop :=
  exists l1 l2,
    l = l1 ++ l2 /\ l' = l1 ++ (key, value) :: l2
    /\ (StronglySorted Z.le (map fst l) ->
        Forall (fun e => (fst e <= key)%Z) l1
        /\ Forall (fun e => (key <= fst e)%Z) l2).

Lemma shaped_slices_ok t h n : shaped t h n -> slices_ok n.
Proof.
  destruct h; simpl; intros (Hvs & H); split; try assumption.
  - left. tauto.
  - right. tauto.
Qed.

Lemma shaped_height t h n : shaped t h n -> height n = S h.
Proof.
  revert n. induction h as [ | h IH ]; intros [ks vs cs lf]; simpl.
  - intros (_ & _ & ->). reflexivity.
  - intros (_ & _ & Hlen & Hall). f_equal.
    destruct cs as [ | c cs ]; [ discriminate | ].
    apply Nat.le_antisymm.
    + apply list_max_le, Forall_map.
      eapply Forall_impl; [ | exact Hall ].
      intros a [_ Ha]. rewrite (IH _ Ha). lia.
    + simpl. apply Forall_inv in Hall. destruct Hall as [_ Hc].
      rewrite (IH _ Hc). lia.
Qed.

Lemma around_sorted key n i mid :
  slices_ok n ->
  i <= length (keys n) ->
  StronglySorted Z.le (map fst (before i n ++ mid ++ after i n)) ->
  (forall q k, i = S q -> nth_error (keys n) q = Some k -> (k <= key)%Z) ->
  (forall k, nth_error (keys n) i = Some k -> (key <= k)%Z) ->
  Forall (fun e => (fst e <= key)%Z) (before i n)
  /\ StronglySorted Z.le (map fst mid)
  /\ Forall (fun e => (key <= fst e)%Z) (after i n).
Proof.
  intros Hok Hi Hs Hlo Hhi.
  rewrite !map_app in Hs.
  apply StronglySorted_app_iff in Hs. destruct Hs as (Hb & Hs & _).
  apply StronglySorted_app_iff in Hs. destruct Hs as (Hm & Ha & _).
  split_all.
  - apply (before_bound Z.le (fun k => (k <= key)%Z)); try assumption.
    intros x y. lia.
  - assumption.
  - apply (after_bound Z.le (fun k => (key <= k)%Z)); try assumption.
    intros x y. lia.
Qed.

Section Insertion.

Variables (bt : BTree) (key : Z) (value : string).
Hypothesis Hdeg : (2 <= degree bt <= Go.int_max)%Z.

Let t := degree bt.
Let m := mid_of bt.

Lemma full_length n :
  key_bounds t n -> isFull bt n = true ->
  max_keys t = (2 * t - 1)%Z /\ length (keys n) = S (2 * m).
Proof.
  intros Hb Hfull. rewrite isFull_eq in Hfull. apply Z.eqb_eq in Hfull.
  unfold key_bounds, Go.len in *. fold t in Hfull.
  destruct (max_keys_cases t Hdeg) as [ E | [E _] ]; [ | lia ].
  split; [ assumption | ]. unfold m, mid_of. fold t. lia.
Qed.

Lemma halves_shaped h c :
  shaped t h c -> key_bounds t c -> isFull bt c = true ->
  shaped t h (left_half m c) /\ shaped t h (right_half m c)
  /\ length (keys (left_half m c)) = m
  /\ length (keys (right_half m c)) = m.
Proof.
  intros Hs Hb Hfull.
  destruct (full_length c Hb Hfull) as [_ Hlen].
  pose proof (shaped_values _ _ _ Hs) as Hvs.
  assert (Hl : length (firstn m (keys c)) = m)
    by (rewrite length_firstn; lia).
  assert (Hr : length (skipn (S m) (keys c)) = m)
    by (rewrite length_skipn; lia).
  repeat split; try assumption; unfold left_half, right_half;
    cbn [keys values children leaf];
    try (rewrite !length_firstn; lia);
    try (rewrite !length_skipn; lia).
  - destruct h as [ | h ]; simpl in Hs.
    + destruct Hs as (_ & -> & ->).
      cbn [shaped keys values children leaf].
      repeat split. rewrite !length_firstn. lia.
    + destruct Hs as (_ & -> & Hcs & Hall).
      cbn [shaped keys values children leaf]. repeat split.
      * rewrite !length_firstn. lia.
      * rewrite !length_firstn. lia.
      * now apply Forall_firstn.
  - destruct h as [ | h ]; simpl in Hs.
    + destruct Hs as (_ & -> & _).
      cbn [shaped keys values children leaf].
      repeat split. rewrite !length_skipn. lia.
    + destruct Hs as (_ & -> & Hcs & Hall).
      cbn [shaped keys values children leaf]. repeat split.
      * rewrite !length_skipn. lia.
      * rewrite !length_skipn. lia.
      * now apply Forall_skipn.
Qed.

Lemma half_bounds n :
  max_keys t = (2 * t - 1)%Z -> length (keys n) = m ->
  key_bounds t n /\ isFull bt n = false.
Proof.
  intros Hmax Hlen. unfold key_bounds. rewrite isFull_eq. fold t.
  unfold Go.len. rewrite Hlen, Hmax. unfold m, mid_of. fold t.
  split; [ lia | ]. apply Z.eqb_neq. lia.
Qed.

Lemma descend_ok h node :
  shaped t (S h) node -> isFull bt node = false -> root_bound t node ->
  exists node' i c,
    descend bt node key = Some (node', Z.of_nat i)
    /\ nth_error (children node') i = Some c
    /\ shaped t (S h) node'
    /\ root_bound t node'
    /\ length (keys node) <= length (keys node')
    /\ isFull bt c = false
    /\ inorder node' = inorder node
    /\ i <= length (keys node')
    /\ (forall q k, i = S q -> nth_error (keys node') q = Some k ->
                    (k <= key)%Z)
    /\ (forall k, nth_error (keys node') i = Some k -> (key <= k)%Z).
Proof.
  intros Hs Hnf Hrb.
  pose proof Hs as Hs0. simpl in Hs0.
  destruct Hs0 as (Hvs & Hleaf & Hcs & Hall).
  destruct (insert_pos_spec key (keys node) _ (le_n _))
    as (p & Hp & Hple & Habove & Hbelow).
  destruct (nth_error (children node) p) as [ c | ] eqn:Hc;
    [ | apply nth_error_None in Hc; lia ].
  destruct (Forall_nth_error _ _ _ _ Hall Hc) as [Hcb Hcsh].
  unfold descend. rewrite Hp. cbv zeta. rewrite index_nat, Hc.
  destruct (isFull bt c) eqn:Hfull.
  - destruct (full_length c Hcb Hfull) as [Hmax Hclen].
    pose proof (shaped_values _ _ _ Hcsh) as Hcvs.
    destruct (nth_error (keys c) m) as [ mk | ] eqn:Hmk;
      [ | apply nth_error_None in Hmk; lia ].
    destruct (nth_error (values c) m) as [ mv | ] eqn:Hmv;
      [ | apply nth_error_None in Hmv; lia ].
    assert (Hcc : leaf c = false -> S m <= length (children c)).
    { intros Hl. rewrite (shaped_children_length _ _ _ Hcsh Hl). lia. }
    rewrite (splitChild_spec bt node p c mk mv);
      try assumption; try lia.
    match goal with
    | |- context [Some (?n, _)] => set (node' := n)
    end.
    destruct (halves_shaped h c Hcsh Hcb Hfull) as (HLs & HRs & HLlen & HRlen).
    destruct (half_bounds _ Hmax HLlen) as [HLb HLnf].
    destruct (half_bounds _ Hmax HRlen) as [HRb HRnf].
    destruct (nth_error_pair p (children node) (left_half m c)
                (right_half m c) (skipn (S p) (children node)))
      as [HnL HnR]; [ lia | ].
    assert (Hs' : shaped t (S h) node').
    { unfold node'. cbn [shaped keys values children leaf].
      repeat split.
      - rewrite !insert_at_length. lia.
      - assumption.
      - rewrite length_app, length_firstn. cbn [length].
        rewrite length_skipn, insert_at_length. lia.
      - apply Forall_app. split; [ now apply Forall_firstn | ].
        constructor; [ now split | ].
        constructor; [ now split | ].
        now apply Forall_skipn. }
    assert (Hrb' : root_bound t node').
    { unfold root_bound, Go.len, node' in *. cbn [keys].
      rewrite insert_at_length. rewrite isFull_eq in Hnf. fold t in Hnf.
      apply Z.eqb_neq in Hnf. unfold Go.len in Hnf. lia. }
    assert (Hin : inorder node' = inorder node).
    { apply split_inorder; try assumption.
      apply halves_inorder; try assumption.
      destruct h; simpl in Hcsh.
      - destruct Hcsh as (_ & -> & ->). reflexivity.
      - destruct Hcsh as (_ & -> & Hl & _). assumption. }
    assert (Hkl : length (keys node') = S (length (keys node)))
      by (unfold node'; cbn [keys]; apply insert_at_length).
    rewrite index_nat.
    assert (Hnk : nth_error (keys node') p = Some mk)
      by (unfold node'; cbn [keys]; apply nth_error_insert_at; lia).
    rewrite Hnk.
    destruct (Z.gtb_spec key mk) as [ Hgt | Hle ].
    + exists node', (S p), (right_half m c).
      replace (Z.of_nat p + 1)%Z with (Z.of_nat (S p)) by lia.
      split_all; try assumption; try reflexivity; try lia.
      * intros q k Hq Hk. injection Hq as <-.
        rewrite Hnk in Hk. injection Hk as <-. lia.
      * intros k Hk. unfold node' in Hk. cbn [keys] in Hk.
        rewrite nth_error_insert_at_gt in Hk by lia.
        assert (p < length (keys node))
          by (apply nth_error_Some; congruence).
        apply Z.lt_le_incl, (Habove p); [ lia | assumption ].
    + exists node', p, (left_half m c).
      split_all; try assumption; try reflexivity; try lia.
      * intros q k Hq Hk. unfold node' in Hk. cbn [keys] in Hk.
        rewrite nth_error_insert_at_lt in Hk by lia.
        now apply (Hbelow q).
      * intros k Hk. rewrite Hnk in Hk. injection Hk as <-. lia.
  - exists node, p, c. split_all; try assumption; try reflexivity; try lia.
    intros k Hk.
    assert (p < length (keys node)) by (apply nth_error_Some; congruence).
    apply Z.lt_le_incl, (Habove p); [ lia | assumption ].
Qed.

Lemma insertNonFull_ok h :
  forall node,
    shaped t h node -> isFull bt node = false -> root_bound t node ->
    exists node',
      insertNonFull bt node key value = Some node'
      /\ shaped t h node'
      /\ root_bound t node'
      /\ length (keys node) <= length (keys node')
      /\ inserted key value (inorder node) (inorder node').
Proof.
  induction h as [ | h IH ]; intros node Hs Hnf Hrb.
  - pose proof Hs as Hs0. simpl in Hs0. destruct Hs0 as (Hvs & Hleaf & Hnil).
    destruct (insert_pos_spec key (keys node) _ (le_n _))
      as (p & Hp & Hple & Habove & Hbelow).
    rewrite insertNonFull_eq, Hleaf, (insertLeaf_spec node key value p Hvs Hp).
    eexists. split; [ reflexivity | ].
    rewrite Hnil, Hleaf. split_all.
    + cbn [shaped keys values children leaf]. split_all; try reflexivity.
      rewrite !insert_at_length. lia.
    + unfold root_bound, Go.len in *. cbn [keys].
      rewrite insert_at_length. rewrite isFull_eq in Hnf. fold t in Hnf.
      apply Z.eqb_neq in Hnf. unfold Go.len in Hnf. lia.
    + cbn [keys]. rewrite insert_at_length. lia.
    + exists (before p node), (after p node).
      destruct (leaf_around node p Hnil) as [Eb Ea].
      split_all.
      * now apply leaf_inorder.
      * rewrite inorder_eq. cbn [children map interleave]. unfold entries.
        cbn [keys values]. rewrite combine_insert_at by assumption.
        rewrite Eb, Ea. reflexivity.
      * intros Hsorted.
        rewrite (leaf_inorder node p Hnil) in Hsorted.
        destruct (around_sorted key node p [] (shaped_slices_ok _ _ _ Hs) Hple
                    Hsorted Hbelow) as (Hb & _ & Ha); [ | now split ].
        intros k Hk.
        assert (p < length (keys node))
          by (apply nth_error_Some; congruence).
        apply Z.lt_le_incl, (Habove p); [ lia | assumption ].
  - destruct (descend_ok h node Hs Hnf Hrb)
      as (node' & i & c & Hd & Hc & Hs' & Hrb' & Hlen & Hcnf & Hin & Hi
          & Hlo & Hhi).
    pose proof Hs' as Hs0. simpl in Hs0.
    destruct Hs0 as (Hvs & Hleaf & Hcs & Hall).
    destruct (Forall_nth_error _ _ _ _ Hall Hc) as [Hcb Hcsh].
    assert (Hcrb : root_bound t c) by (intros _; apply Hcb).
    destruct (IH c Hcsh Hcnf Hcrb)
      as (c' & Hins & Hcs' & Hcrb' & Hclen & l1 & l2 & E1 & E2 & HF).
    rewrite insertNonFull_eq, (shaped_leaf _ _ _ Hs), Hd.
    rewrite index_nat, Hc, Hins, store_nat.
    rewrite update_Some by (apply nth_error_Some; congruence).
    eexists. split; [ reflexivity | ]. split_all.
    + cbn [shaped set_children keys values children leaf]. split_all;
        try assumption.
      * rewrite length_app, length_firstn. cbn [length].
        rewrite length_skipn.
        assert (i < length (children node'))
          by (apply nth_error_Some; congruence).
        lia.
      * apply Forall_app. split; [ now apply Forall_firstn | ].
        constructor; [ | now apply Forall_skipn ].
        split; [ | assumption ].
        unfold key_bounds, root_bound, Go.len in *. lia.
    + exact Hrb'.
    + exact Hlen.
    + rewrite <- Hin.
      rewrite (inorder_at_child node' i c Hvs Hcs Hc).
      rewrite (inorder_set_child node' i c c' Hvs Hcs Hc).
      exists (before i node' ++ l1), (l2 ++ after i node').
      rewrite E1, E2. split_all.
      * now rewrite <- !app_assoc.
      * now rewrite <- !app_assoc.
      * intros Hsorted.
        destruct (around_sorted key node' i (l1 ++ l2)
                    (shaped_slices_ok _ _ _ Hs') Hi Hsorted Hlo Hhi)
          as (Hb & Hm & Ha).
        rewrite <- E1 in Hm. destruct (HF Hm) as [HF1 HF2].
        split; apply Forall_app; now split.
Qed.

End Insertion.

(** ** One [Insert], and runs of them *)

Section InsertOk.

Variables (bt : BTree) (h : nat).
Hypothesis Hdeg : (2 <= degree bt <= Go.int_max)%Z.
Hypothesis Hshape : shaped (degree bt) h (root bt).
Hypothesis Hroot : root_bound (degree bt) (root bt).

Let t := degree bt.

Lemma root_full_bounds :
  isFull bt (root bt) = true -> key_bounds t (root bt).
Proof.
  rewrite isFull_eq. intros Hfull. apply Z.eqb_eq in Hfull.
  unfold key_bounds. fold t in Hfull. rewrite Hfull.
  destruct (max_keys_cases t Hdeg) as [ E | [E _] ].
  - lia.
  - unfold Go.len in Hfull. lia.
Qed.

Lemma splitRoot_ok :
  exists bt0,
    splitRoot bt = Some bt0
    /\ degree bt0 = degree bt
    /\ shaped t (if isFull bt (root bt) then S h else h) (root bt0)
    /\ root_bound t (root bt0)
    /\ isFull bt0 (root bt0) = false
    /\ inorder (root bt0) = inorder (root bt).
Proof.
  unfold splitRoot. destruct (isFull bt (root bt)) eqn:Hfull.
  - pose proof (root_full_bounds Hfull) as Hb.
    destruct (full_length bt Hdeg _ Hb Hfull) as [Hmax Hlen].
    pose proof (shaped_values _ _ _ Hshape) as Hvs.
    set (m := mid_of bt) in *.
    destruct (nth_error (keys (root bt)) m) as [ mk | ] eqn:Hmk;
      [ | apply nth_error_None in Hmk; lia ].
    destruct (nth_error (values (root bt)) m) as [ mv | ] eqn:Hmv;
      [ | apply nth_error_None in Hmv; lia ].
    cbv zeta. unfold set_children, Go.append. cbn [keys values children leaf app].
    change 0%Z with (Z.of_nat 0).
    rewrite (splitChild_spec bt (mkNode [] [] [root bt] false) 0
               (root bt) mk mv); try reflexivity; try assumption; try lia.
    2: { intros Hl. rewrite (shaped_children_length _ _ _ Hshape Hl).
         fold m. lia. }
    destruct (halves_shaped bt Hdeg h _ Hshape Hb Hfull)
      as (HLs & HRs & HLlen & HRlen).
    destruct (half_bounds bt Hdeg _ Hmax HLlen) as [HLb _].
    destruct (half_bounds bt Hdeg _ Hmax HRlen) as [HRb _].
    fold m in HLs, HRs, HLlen, HRlen, HLb, HRb.
    eexists. split; [ reflexivity | ].
    cbn [root degree keys values children leaf firstn skipn app insert_at].
    split_all.
    + reflexivity.
    + cbn [shaped keys values children leaf]. split_all; try reflexivity.
      repeat (constructor; [ now split | ]). constructor.
    + unfold root_bound, Go.len, t. cbn [keys length]. rewrite Hmax. lia.
    + rewrite isFull_eq. cbn [degree root keys]. rewrite Hmax.
      apply Z.eqb_neq. unfold Go.len. cbn [length]. lia.
    + rewrite (inorder_eq (mkNode _ _ _ _)).
      cbn [children keys values entries map interleave combine concat].
      rewrite app_nil_r. symmetry. apply halves_inorder; try assumption.
      destruct h; simpl in Hshape.
      * destruct Hshape as (_ & -> & ->). reflexivity.
      * destruct Hshape as (_ & -> & Hl & _). assumption.
  - exists bt. split_all; auto.
Qed.

Lemma Insert_ok key value :
  exists bt',
    Insert bt key value = Some bt'
    /\ degree bt' = degree bt
    /\ shaped t (if isFull bt (root bt) then S h else h) (root bt')
    /\ root_bound t (root bt')
    /\ inserted key value (inorder (root bt)) (inorder (root bt')).
Proof.
  destruct splitRoot_ok as (bt0 & Hsplit & Hd0 & Hs0 & Hrb0 & Hnf0 & Hin0).
  unfold t in *. rewrite <- Hd0 in Hs0, Hrb0, Hdeg.
  destruct (insertNonFull_ok bt0 key value Hdeg _ _ Hs0 Hnf0 Hrb0)
    as (r & Hins & Hs & Hrb & _ & Hinserted).
  unfold Insert. rewrite Hsplit, Hins.
  eexists. split; [ reflexivity | ]. cbn [root degree].
  rewrite Hd0 in *. rewrite Hin0 in Hinserted. now split_all.
Qed.

End InsertOk.

Lemma inserted_perm key value l l' :
  inserted key value l l' -> Permutation l' ((key, value) :: l).
Proof.
  intros (l1 & l2 & -> & -> & _). symmetry. apply Permutation_middle.
Qed.

Lemma inserted_sorted key value l l' :
  inserted key value l l' ->
  StronglySorted Z.le (map fst l) -> StronglySorted Z.le (map fst l').
Proof.
  intros (l1 & l2 & -> & -> & HF) Hs. destruct (HF Hs) as [H1 H2].
  rewrite map_app in *. apply StronglySorted_app_iff in Hs.
  destruct Hs as (Hs1 & Hs2 & H12).
  apply StronglySorted_app_iff. split_all.
  - assumption.
  - simpl. constructor; [ assumption | ].
    apply Forall_map. assumption.
  - intros x y Hx [ <- | Hy ]; [ | now apply H12 ].
    apply in_map_iff in Hx. destruct Hx as (e & <- & He).
    rewrite Forall_forall in H1. now apply H1.
Qed.

Lemma sorted_le_lt (l : list Z) :
  StronglySorted Z.le l -> NoDup l -> StronglySorted Z.lt l.
Proof.
  induction l as [ | a l IH ]; intros Hs Hnd; [ constructor | ].
  apply StronglySorted_inv in Hs. destruct Hs as [Hs Hall].
  apply NoDup_cons_iff in Hnd. destruct Hnd as [Hnin Hnd].
  constructor; [ now apply IH | ].
  rewrite Forall_forall in *. intros x Hx.
  specialize (Hall x Hx). assert (x <> a) by congruence. lia.
Qed.

Lemma sorted_lt_NoDup (l : list Z) : StronglySorted Z.lt l -> NoDup l.
Proof.
  induction 1 as [ | a l Hs IH Hall ]; constructor; [ | assumption ].
  intros Hin. rewrite Forall_forall in Hall. specialize (Hall a Hin). lia.
Qed.

Lemma sorted_lt_unique (l1 l2 : list Z) :
  StronglySorted Z.lt l1 -> StronglySorted Z.lt l2 ->
  Permutation l1 l2 -> l1 = l2.
Proof.
  intros H1. revert l2. induction H1 as [ | a l1 Hs1 IH Hall1 ];
    intros l2 H2 Hp.
  - apply Permutation_nil in Hp. now subst.
  - destruct H2 as [ | b l2 Hs2 Hall2 ].
    + symmetry in Hp. apply Permutation_nil in Hp. discriminate.
    + rewrite Forall_forall in Hall1, Hall2.
      assert (Hab : a = b).
      { assert (Ha : In a (b :: l2))
          by (eapply Permutation_in; [ exact Hp | now left ]).
        assert (Hb : In b (a :: l1))
          by (eapply Permutation_in; [ symmetry; exact Hp | now left ]).
        destruct Ha as [ Ha | Ha ]; [ now symmetry | ].
        destruct Hb as [ Hb | Hb ]; [ assumption | ].
        specialize (Hall1 _ Hb). specialize (Hall2 _ Ha). lia. }
      subst b. f_equal. apply IH; [ assumption | ].
      eapply Permutation_cons_inv; eauto.
Qed.

(** What holds of every tree the program can build. *)
Definition well_formed (bt : BTree) : Prop :=
  exists h,
    shaped (degree bt) h (root bt) /\ root_bound (degree bt) (root bt).

Lemma NewBTree_ok d : exists bt,
    NewBTree d = Some bt /\ degree bt = d
    /\ root bt = mkNode [] [] [] true
    /\ shaped d 0 (root bt) /\ root_bound d (root bt).
Proof.
  eexists. split; [ reflexivity | ]. cbn [root degree]. split_all; try reflexivity.
  - simpl. auto.
  - intros H. exact H.
Qed.

Lemma inserts_ok ops :
  forall bt,
    (2 <= degree bt <= Go.int_max)%Z ->
    well_formed bt ->
    StronglySorted Z.le (inorder_keys (root bt)) ->
    exists bt',
      inserts bt ops = Some bt'
      /\ degree bt' = degree bt
      /\ well_formed bt'
      /\ StronglySorted Z.le (inorder_keys (root bt'))
      /\ Permutation (inorder (root bt')) (ops ++ inorder (root bt)).
Proof.
  induction ops as [ | [k v] ops IH ]; intros bt Hdeg Hwf Hs.
  - exists bt. split_all; auto.
  - destruct Hwf as (h & Hsh & Hrb).
    destruct (Insert_ok bt h Hdeg Hsh Hrb k v)
      as (bt1 & Hins & Hd1 & Hsh1 & Hrb1 & Hinserted).
    destruct (IH bt1) as (bt' & Hrun & Hd' & Hwf' & Hs' & Hp).
    + now rewrite Hd1.
    + unfold well_formed. rewrite Hd1. eexists. split; eassumption.
    + eapply inserted_sorted; eauto.
    + exists bt'. simpl. rewrite Hins. split_all; try assumption.
      * congruence.
      * rewrite Hp. apply inserted_perm in Hinserted.
        rewrite Hinserted. symmetry. apply Permutation_middle.
Qed.

Lemma build_ok d ops :
  (2 <= d <= Go.int_max)%Z ->
  exists bt,
    build d ops = Some bt
    /\ degree bt = d
    /\ well_formed bt
    /\ StronglySorted Z.le (inorder_keys (root bt))
    /\ Permutation (inorder (root bt)) ops.
Proof.
  intros Hd. unfold build.
  destruct (NewBTree_ok d) as (bt0 & -> & Hd0 & Hr0 & Hs0 & Hrb0).
  destruct (inserts_ok ops bt0) as (bt & Hrun & Hdeg & Hwf & Hs & Hp).
  - now rewrite Hd0.
  - exists 0. now rewrite Hd0.
  - unfold inorder_keys. rewrite Hr0. constructor.
  - exists bt. split_all; try assumption; try congruence.
    rewrite Hp, Hr0. simpl. now rewrite app_nil_r.
Qed.

(** ** Nodes of a tree *)

(** Every node of the subtree under [n], [n] first. *)
Fixpoint subnodes (n : BTreeNode) : list BTreeNode :=
  match n with
  | mkNode ks vs cs lf => mkNode ks vs cs lf :: flat_map subnodes cs
  end.

(** The nodes of a tree other than its root. *)
Definition inner_nodes (bt : BTree) : list BTreeNode :=
  flat_map subnodes (children (root bt)).

(** Depth of every leaf under [n], [n] itself being at depth [d]. *)
Fixpoint leaf_depths (d : nat) (n : BTreeNode) : list nat :=
  match n with
  | mkNode _ _ cs lf =>
      if lf then [d] else flat_map (leaf_depths (S d)) cs
  end.

Lemma subnodes_eq n : subnodes n = n :: flat_map subnodes (children n).
Proof. destruct n; reflexivity. Qed.

Lemma leaf_depths_eq d n :
  leaf_depths d n
  = if leaf n then [d] else flat_map (leaf_depths (S d)) (children n).
Proof. destruct n; reflexivity. Qed.

Lemma shaped_inner_bounds t h n :
  shaped t h n -> Forall (key_bounds t) (flat_map subnodes (children n)).
Proof.
  revert n. induction h as [ | h IH ]; intros n Hs; simpl in Hs.
  - destruct Hs as (_ & _ & ->). constructor.
  - destruct Hs as (_ & _ & _ & Hall).
    apply Forall_flat_map. eapply Forall_impl; [ | exact Hall ].
    intros c [Hb Hc]. rewrite subnodes_eq. constructor; [ assumption | ].
    now apply IH.
Qed.

Lemma shaped_leaf_depths t h n d :
  shaped t h n -> Forall (eq (d + h)) (leaf_depths d n).
Proof.
  revert n d. induction h as [ | h IH ]; intros n d Hs; simpl in Hs;
    rewrite leaf_depths_eq.
  - destruct Hs as (_ & -> & _). repeat constructor. lia.
  - destruct Hs as (_ & -> & _ & Hall).
    apply Forall_flat_map. eapply Forall_impl; [ | exact Hall ].
    intros c [_ Hc]. replace (d + S h) with (S d + h) by lia. now apply IH.
Qed.

Lemma shaped_leaf_flag t h n :
  shaped t h n ->
  Forall (fun x => leaf x = true <-> children x = []) (subnodes n).
Proof.
  revert n. induction h as [ | h IH ]; intros n Hs; pose proof Hs as Hs0;
    simpl in Hs0; rewrite subnodes_eq.
  - destruct Hs0 as (_ & Hl & Hnil). rewrite Hnil. simpl.
    repeat constructor; auto.
  - destruct Hs0 as (_ & Hl & Hlen & Hall). constructor.
    + rewrite Hl. split; [ discriminate | ].
      intros E. rewrite E in Hlen. discriminate.
    + apply Forall_flat_map. eapply Forall_impl; [ | exact Hall ].
      intros c [_ Hc]. now apply IH.
Qed.

Lemma In_interleave {E} (cs : list (list E)) es e :
  In e es -> In e (interleave cs es).
Proof.
  revert es. induction cs as [ | c cs IH ]; intros es He; simpl;
    [ assumption | ].
  apply in_or_app. right. destruct es as [ | e0 es ]; [ destruct He | ].
  destruct He as [ -> | He ]; [ now left | right; now apply IH ].
Qed.

Lemma sorted_interleave {E} (R : Z -> Z -> Prop) (f : E -> Z) cs es :
  StronglySorted R (map f (interleave cs es)) -> StronglySorted R (map f es).
Proof.
  revert es. induction cs as [ | c cs IH ]; intros es Hs; simpl in Hs;
    [ assumption | ].
  rewrite map_app in Hs. apply StronglySorted_app_iff in Hs.
  destruct Hs as (_ & Hs & _).
  destruct es as [ | e es ]; [ constructor | ].
  simpl in *. apply StronglySorted_inv in Hs. destruct Hs as [Hs Hall].
  constructor; [ now apply IH | ].
  rewrite Forall_forall in *. intros x Hx.
  apply in_map_iff in Hx. destruct Hx as (y & <- & Hy).
  apply Hall, in_map, In_interleave. assumption.
Qed.

Lemma sorted_node_keys (R : Z -> Z -> Prop) n :
  length (values n) = length (keys n) ->
  StronglySorted R (inorder_keys n) -> StronglySorted R (keys n).
Proof.
  intros Hvs Hs. unfold inorder_keys in Hs. rewrite inorder_eq in Hs.
  apply sorted_interleave in Hs. now rewrite entries_keys in Hs.
Qed.

Lemma sorted_child (R : Z -> Z -> Prop) n c :
  length (values n) = length (keys n) ->
  length (children n) = S (length (keys n)) ->
  In c (children n) ->
  StronglySorted R (inorder_keys n) -> StronglySorted R (inorder_keys c).
Proof.
  intros Hvs Hcs Hc Hs. apply In_nth_error in Hc. destruct Hc as (i & Hc).
  unfold inorder_keys in *.
  rewrite (inorder_at_child n i c Hvs Hcs Hc), !map_app in Hs.
  apply StronglySorted_app_iff in Hs. destruct Hs as (_ & Hs & _).
  apply StronglySorted_app_iff in Hs. tauto.
Qed.

Lemma shaped_sorted_nodes (R : Z -> Z -> Prop) t h n :
  shaped t h n -> StronglySorted R (inorder_keys n) ->
  Forall (fun x => StronglySorted R (keys x)) (subnodes n).
Proof.
  revert n. induction h as [ | h IH ]; intros n Hs Hsorted;
    pose proof Hs as Hs0; simpl in Hs0; rewrite subnodes_eq.
  - destruct Hs0 as (Hvs & _ & Hnil). rewrite Hnil. simpl.
    repeat constructor. now apply sorted_node_keys.
  - destruct Hs0 as (Hvs & _ & Hlen & Hall).
    constructor; [ now apply sorted_node_keys | ].
    apply Forall_flat_map. apply Forall_forall. intros c Hc.
    rewrite Forall_forall in Hall. destruct (Hall c Hc) as [_ Hcs].
    apply (IH c Hcs). eapply sorted_child; eauto.
Qed.

(** ** Search *)

Lemma unique_value (l : list (Z * string)) k v v' :
  NoDup (map fst l) -> In (k, v) l -> In (k, v') l -> v = v'.
Proof.
  induction l as [ | [k0 v0] l IH ]; simpl; intros Hnd H1 H2; [ destruct H1 | ].
  apply NoDup_cons_iff in Hnd. destruct Hnd as [Hnin Hnd].
  destruct H1 as [ H1 | H1 ], H2 as [ H2 | H2 ].
  - congruence.
  - injection H1 as -> ->. exfalso. apply Hnin.
    apply in_map_iff. now exists (k, v').
  - injection H2 as -> ->. exfalso. apply Hnin.
    apply in_map_iff. now exists (k, v).
  - now apply IH.
Qed.

Lemma around_sorted_lt key n i mid :
  slices_ok n ->
  i <= length (keys n) ->
  StronglySorted Z.lt (map fst (before i n ++ mid ++ after i n)) ->
  (forall q k, i = S q -> nth_error (keys n) q = Some k -> (k < key)%Z) ->
  (forall k, nth_error (keys n) i = Some k -> (key < k)%Z) ->
  Forall (fun e => (fst e < key)%Z) (before i n)
  /\ StronglySorted Z.lt (map fst mid)
  /\ Forall (fun e => (key < fst e)%Z) (after i n).
Proof.
  intros Hok Hi Hs Hlo Hhi.
  rewrite !map_app in Hs.
  apply StronglySorted_app_iff in Hs. destruct Hs as (Hb & Hs & _).
  apply StronglySorted_app_iff in Hs. destruct Hs as (Hm & Ha & _).
  split_all.
  - apply (before_bound Z.lt (fun k => (k < key)%Z)); try assumption.
    intros x y. lia.
  - assumption.
  - apply (after_bound Z.lt (fun k => (key < k)%Z)); try assumption.
    intros x y. lia.
Qed.

Lemma not_in_bounded key (l : list (Z * string)) v :
  Forall (fun e => (fst e < key)%Z) l \/ Forall (fun e => (key < fst e)%Z) l ->
  ~ In (key, v) l.
Proof.
  intros [ H | H ] Hin; rewrite Forall_forall in H;
    specialize (H _ Hin); simpl in H; lia.
Qed.

(** One visit of [searchNode]: either the key is among the keys of the node,
    or the search stops at a leaf or goes on below position [search_pos]. *)
Lemma searchNode_step bt t h key node :
  shaped t h node ->
  StronglySorted Z.lt (inorder_keys node) ->
  let p := search_pos key (keys node) in
  (exists v, In (key, v) (entries node)
             /\ searchNode bt node key = Some (v, true))
  \/ (Forall (fun e => (fst e < key)%Z) (before p node)
      /\ Forall (fun e => (key < fst e)%Z) (after p node)
      /\ searchNode bt node key
         = if leaf node then Some (EmptyString, false)
           else c <- nth_error (children node) p ;; searchNode bt c key).
Proof.
  intros Hs Hsorted p.
  pose proof (shaped_values _ _ _ Hs) as Hvs.
  pose proof (search_pos_le key (keys node)) as Hple. fold p in Hple.
  pose proof (search_pos_before key (keys node)) as Hbefore. fold p in Hbefore.
  pose proof (search_pos_at key (keys node)) as Hat. fold p in Hat.
  rewrite searchNode_eq. cbv zeta. fold p. rewrite !index_nat.
  assert (Hmiss :
    (forall k, nth_error (keys node) p = Some k -> (key < k)%Z) ->
    Forall (fun e => (fst e < key)%Z) (before p node)
    /\ Forall (fun e => (key < fst e)%Z) (after p node)).
  { intros Hhi.
    assert (Hlo : forall q k, p = S q -> nth_error (keys node) q = Some k ->
                              (k < key)%Z).
    { intros q k Hq Hk. rewrite Forall_forall in Hbefore. apply Hbefore.
      apply nth_error_In with (n := q). rewrite nth_error_firstn.
      destruct (Nat.ltb_spec q p); [ assumption | lia ]. }
    pose proof (shaped_slices_ok _ _ _ Hs) as Hok.
    unfold inorder_keys in Hsorted.
    destruct h as [ | h ]; pose proof Hs as Hs0; simpl in Hs0.
    - destruct Hs0 as (_ & _ & Hnil).
      rewrite (leaf_inorder node p Hnil) in Hsorted.
      destruct (around_sorted_lt key node p [] Hok Hple Hsorted Hlo Hhi)
        as (Hb & _ & Ha). now split.
    - destruct Hs0 as (_ & _ & Hcs & _).
      destruct (nth_error (children node) p) as [ c | ] eqn:Hc;
        [ | apply nth_error_None in Hc; lia ].
      rewrite (inorder_at_child node p c Hvs Hcs Hc) in Hsorted.
      destruct (around_sorted_lt key node p _ Hok Hple Hsorted Hlo Hhi)
        as (Hb & _ & Ha). now split. }
  destruct (nth_error (keys node) p) as [ k | ] eqn:Hk.
  - assert (Hp : p < length (keys node)) by (apply nth_error_Some; congruence).
    destruct (Z.ltb_spec (Z.of_nat p) (Go.len (keys node))) as [ _ | Hge ];
      [ | unfold Go.len in Hge; lia ].
    cbn [andb]. destruct (Z.eqb_spec key k) as [ <- | Hne ].
    + left. destruct (nth_error (values node) p) as [ v | ] eqn:Hv;
        [ | apply nth_error_None in Hv; lia ].
      exists v. split; [ | reflexivity ].
      apply nth_error_In with (n := p). now apply nth_error_combine.
    + right. specialize (Hat k eq_refl).
      destruct Hmiss as [Hb Ha].
      { intros k' Hk'. injection Hk' as <-. lia. }
      now split_all.
  - right. destruct Hmiss as [Hb Ha]; [ discriminate | ].
    destruct (Z.of_nat p <? Go.len (keys node))%Z; now split_all.
Qed.

Lemma searchNode_ok bt t key h :
  forall node,
    shaped t h node ->
    StronglySorted Z.lt (inorder_keys node) ->
    (forall v, In (key, v) (inorder node) ->
               searchNode bt node key = Some (v, true))
    /\ (~ In key (inorder_keys node) ->
        searchNode bt node key = Some (EmptyString, false)).
Proof.
  induction h as [ | h IH ]; intros node Hs Hsorted;
    pose proof (shaped_values _ _ _ Hs) as Hvs;
    pose proof (sorted_lt_NoDup _ Hsorted) as Hnd;
    destruct (searchNode_step bt t _ key node Hs Hsorted)
      as [ (v0 & Hin0 & Hfound) | (Hb & Ha & Hmiss) ].
  1, 3: split.
  1, 3: intros v Hin; rewrite Hfound; do 2 f_equal;
        apply (unique_value (inorder node) key); try assumption;
        rewrite inorder_eq; now apply In_interleave.
  1, 2: intros Hnot; exfalso; apply Hnot; apply in_map_iff;
        exists (key, v0); split; [ reflexivity | ];
        rewrite inorder_eq; now apply In_interleave.
  - pose proof Hs as Hs0. simpl in Hs0. destruct Hs0 as (_ & Hleaf & Hnil).
    rewrite Hleaf in Hmiss. split; [ | intros _; exact Hmiss ].
    intros v Hin. exfalso.
    rewrite (leaf_inorder node (search_pos key (keys node)) Hnil) in Hin.
    apply in_app_or in Hin.
    destruct Hin as [ Hin | Hin ]; revert Hin; apply not_in_bounded; auto.
  - pose proof Hs as Hs0. simpl in Hs0.
    destruct Hs0 as (_ & Hleaf & Hcs & Hall).
    rewrite Hleaf in Hmiss.
    pose proof (search_pos_le key (keys node)) as Hple.
    destruct (nth_error (children node) (search_pos key (keys node)))
      as [ c | ] eqn:Hc; [ | apply nth_error_None in Hc; lia ].
    destruct (Forall_nth_error _ _ _ _ Hall Hc) as [_ Hcsh].
    assert (Hcsorted : StronglySorted Z.lt (inorder_keys c))
      by (eapply sorted_child; eauto; eapply nth_error_In; eauto).
    destruct (IH c Hcsh Hcsorted) as [IH1 IH2].
    rewrite Hmiss. split.
    + intros v Hin. apply IH1.
      rewrite (inorder_at_child node _ c Hvs Hcs Hc) in Hin.
      apply in_app_or in Hin. destruct Hin as [ Hin | Hin ];
        [ exfalso; revert Hin; apply not_in_bounded; auto | ].
      apply in_app_or in Hin. destruct Hin as [ Hin | Hin ];
        [ assumption | exfalso; revert Hin; apply not_in_bounded; auto ].
    + intros Hnot. apply IH2. intros Hin. apply Hnot.
      unfold inorder_keys in *.
      rewrite (inorder_at_child node _ c Hvs Hcs Hc), !map_app.
      apply in_or_app. right. apply in_or_app. now left.
Qed.

(** * The claims *)

(** The records inserted by [main]. *)
Definition main_records : list (Z * string) :=
  [ (1, "Record 1"); (3, "Record 3"); (7, "Record 7"); (10, "Record 10");
    (11, "Record 11"); (13, "Record 13"); (14, "Record 14");
    (15, "Record 15"); (18, "Record 18"); (16, "Record 16");
    (19, "Record 19"); (24, "Record 24") ]%Z%string.

Ltac in_int_range := vm_compute; split; discriminate.

Ltac distinct_keys :=
  repeat (constructor; [ simpl; intuition discriminate | ]); constructor.

(** The keys of a tree other than its root are within
    [degree-1 .. 2*degree-1]. *)
Definition inner_bounds (d : Z) (bt : BTree) : Prop :=
  Forall (fun x => (d - 1 <= Go.len (keys x) <= 2 * d - 1)%Z) (inner_nodes bt).

(** The keys of every node are strictly ascending. *)
Definition nodes_sorted (bt : BTree) : Prop :=
  Forall (fun x => StronglySorted Z.lt (keys x)) (subnodes (root bt)).

(** All leaves are at one depth, and the leaves are the nodes without
    children. *)
Definition balanced (bt : BTree) : Prop :=
  (exists depth, Forall (eq depth) (leaf_depths 0 (root bt)))
  /\ Forall (fun x => leaf x = true <-> children x = []) (subnodes (root bt)).

Lemma firstn_NoDup {A} (l : list A) n : NoDup l -> NoDup (firstn n l).
Proof.
  intros H. rewrite <- (firstn_skipn n l) in H.
  now apply NoDup_app_remove_r in H.
Qed.

Lemma well_formed_inner_bounds d bt :
  (2 <= d <= Go.int_max)%Z -> degree bt = d -> well_formed bt ->
  inner_bounds d bt.
Proof.
  intros Hd <- (h & Hs & _). unfold inner_bounds, inner_nodes.
  eapply Forall_impl; [ | exact (shaped_inner_bounds _ _ _ Hs) ].
  intros x. unfold key_bounds.
  destruct (max_keys_cases (degree bt) Hd) as [ E | [E _] ]; lia.
Qed.

(** C1. For every degree >= 2 (a Go [int]) and every sequence of [Insert]
    calls with pairwise distinct keys on the tree of [NewBTree(degree)]:
    after each call (after the first [n] calls, for every [n]) the run has
    returned a tree in which every node but the root holds between
    [degree-1] and [2*degree-1] keys, the keys of every node are strictly
    ascending, and all leaves are at the same depth. *)
Theorem insert_preserves_invariants :
  forall (d : Z) (ops : list (Z * string)) (n : nat),
    (2 <= d <= Go.int_max)%Z ->
    NoDup (map fst ops) ->
    exists bt,
      build d (firstn n ops) = Some bt
      /\ inner_bounds d bt /\ nodes_sorted bt /\ balanced bt.
Proof.
  intros d ops n Hd Hnd.
  destruct (build_ok d (firstn n ops) Hd) as (bt & Hb & Hdeg & Hwf & Hs & Hp).
  exists bt. split; [ assumption | ].
  assert (Hlt : StronglySorted Z.lt (inorder_keys (root bt))).
  { apply sorted_le_lt; [ assumption | ].
    unfold inorder_keys. eapply Permutation_NoDup.
    - symmetry. apply Permutation_map. exact Hp.
    - rewrite <- firstn_map. now apply firstn_NoDup. }
  unfold balanced. split_all.
  - now apply well_formed_inner_bounds.
  - destruct Hwf as (h & Hsh & _). eapply shaped_sorted_nodes; eauto.
  - destruct Hwf as (h & Hsh & _). exists (0 + h).
    eapply shaped_leaf_depths; eauto.
  - destruct Hwf as (h & Hsh & _). eapply shaped_leaf_flag; eauto.
Qed.

Lemma insert_preserves_invariants_witness :
  exists bt,
    build 3 (firstn 12 main_records) = Some bt
    /\ inner_bounds 3 bt /\ nodes_sorted bt /\ balanced bt.
Proof.
  apply (insert_preserves_invariants 3 main_records 12).
  - in_int_range.
  - distinct_keys.
Defined.

(** C2. For every degree >= 2 and every sequence of [Insert(key, value)]
    calls with pairwise distinct keys on the tree of [NewBTree(degree)]:
    [Search] returns the value and [true] for each inserted key, and the
    empty string and [false] for every key that was never inserted. *)
Theorem search_after_inserts :
  forall (d : Z) (ops : list (Z * string)),
    (2 <= d <= Go.int_max)%Z ->
    NoDup (map fst ops) ->
    exists bt,
      build d ops = Some bt
      /\ (forall k v, In (k, v) ops -> Search bt k = Some (v, true))
      /\ (forall k, ~ In k (map fst ops) ->
                    Search bt k = Some (EmptyString, false)).
Proof.
  intros d ops Hd Hnd.
  destruct (build_ok d ops Hd) as (bt & Hb & Hdeg & (h & Hsh & _) & Hs & Hp).
  exists bt. split; [ assumption | ].
  assert (Hlt : StronglySorted Z.lt (inorder_keys (root bt))).
  { apply sorted_le_lt; [ assumption | ].
    unfold inorder_keys. eapply Permutation_NoDup; [ | exact Hnd ].
    symmetry. apply Permutation_map. exact Hp. }
  unfold Search. split.
  - intros k v Hin.
    apply (searchNode_ok bt (degree bt) k h (root bt) Hsh Hlt).
    eapply Permutation_in; [ symmetry; exact Hp | assumption ].
  - intros k Hnot.
    apply (searchNode_ok bt (degree bt) k h (root bt) Hsh Hlt).
    intros Hin. apply Hnot. unfold inorder_keys in Hin.
    eapply Permutation_in; [ apply Permutation_map; exact Hp | assumption ].
Qed.

Lemma search_after_inserts_witness :
  exists bt,
    build 3 main_records = Some bt
    /\ (forall k v, In (k, v) main_records -> Search bt k = Some (v, true))
    /\ (forall k, ~ In k (map fst main_records) ->
                  Search bt k = Some (EmptyString, false)).
Proof.
  apply (search_after_inserts 3 main_records).
  - in_int_range.
  - distinct_keys.
Defined.

(** The minimum branching factor as a count. *)
Definition order (bt : BTree) : nat := Z.to_nat (degree bt).

(** C3. In a tree of degree [t >= 2], for a parent (keys, values and
    children slices of matching lengths) whose child at [childIndex] holds
    exactly [2t-1] strictly ascending keys, [splitChild] returns: the
    original child keeps the keys and values at indices [[0, t-1)]; the
    key and value at index [t-1] enter the parent at position
    [childIndex]; the keys and values at indices [(t-1, 2t-1)] move to one
    new sibling placed right after [childIndex]; the [2t] children of an
    internal child are divided between the two nodes, [t] each, so that the
    sibling, like the original child, has one more child than keys; the
    promoted key is in neither node.  A leaf has no children to divide, and
    its split gives two leaves. *)
Theorem splitChild_partitions :
  forall (bt : BTree) (parent child : BTreeNode) (childIndex : nat),
    (2 <= degree bt <= Go.int_max)%Z ->
    length (values parent) = length (keys parent) ->
    length (children parent) = S (length (keys parent)) ->
    nth_error (children parent) childIndex = Some child ->
    length (keys child) = 2 * order bt - 1 ->
    length (values child) = 2 * order bt - 1 ->
    StronglySorted Z.lt (keys child) ->
    (if leaf child then children child = []
     else length (children child) = 2 * order bt) ->
    exists parent' left right median mvalue,
      splitChild bt parent (Z.of_nat childIndex) = Some parent'
      /\ nth_error (keys child) (order bt - 1) = Some median
      /\ nth_error (values child) (order bt - 1) = Some mvalue
      /\ keys parent' = insert_at childIndex median (keys parent)
      /\ values parent' = insert_at childIndex mvalue (values parent)
      /\ children parent'
         = firstn childIndex (children parent)
             ++ left :: right :: skipn (S childIndex) (children parent)
      /\ leaf parent' = leaf parent
      /\ keys left = firstn (order bt - 1) (keys child)
      /\ values left = firstn (order bt - 1) (values child)
      /\ keys right = skipn (order bt) (keys child)
      /\ values right = skipn (order bt) (values child)
      /\ leaf left = leaf child /\ leaf right = leaf child
      /\ (if leaf child then children left = [] /\ children right = []
          else children left = firstn (order bt) (children child)
               /\ children right = skipn (order bt) (children child)
               /\ length (children left) = S (length (keys left))
               /\ length (children right) = S (length (keys right)))
      /\ ~ In median (keys left) /\ ~ In median (keys right).
Proof.
  intros bt parent child idx Hdeg Hvs Hcs Hchild Hklen Hvlen Hsorted Hcc.
  assert (Hm : mid_of bt = order bt - 1) by (unfold mid_of, order; lia).
  assert (Ho : order bt = S (mid_of bt)) by (unfold mid_of, order; lia).
  destruct (nth_error (keys child) (mid_of bt)) as [ mk | ] eqn:Hmk;
    [ | apply nth_error_None in Hmk; lia ].
  destruct (nth_error (values child) (mid_of bt)) as [ mv | ] eqn:Hmv;
    [ | apply nth_error_None in Hmv; lia ].
  exists (mkNode (insert_at idx mk (keys parent))
            (insert_at idx mv (values parent))
            (firstn idx (children parent)
               ++ left_half (mid_of bt) child
               :: right_half (mid_of bt) child
               :: skipn (S idx) (children parent))
            (leaf parent)),
    (left_half (mid_of bt) child), (right_half (mid_of bt) child), mk, mv.
  rewrite <- Hm, Ho. cbn [keys values children leaf left_half right_half].
  split_all; try reflexivity; try assumption.
  - apply splitChild_spec; try assumption; try lia.
    intros Hl. rewrite Hl in Hcc. lia.
  - destruct (leaf child); [ now split | ].
    split_all; try reflexivity.
    + rewrite !length_firstn. lia.
    + rewrite !length_skipn. lia.
  - apply sorted_lt_NoDup in Hsorted.
    rewrite (nth_error_split _ _ _ Hmk) in Hsorted.
    apply NoDup_remove_2 in Hsorted. intros Hin. apply Hsorted.
    apply in_or_app. now left.
  - apply sorted_lt_NoDup in Hsorted.
    rewrite (nth_error_split _ _ _ Hmk) in Hsorted.
    apply NoDup_remove_2 in Hsorted. intros Hin. apply Hsorted.
    apply in_or_app. now right.
Qed.

(** C4, as the code has it. [NewBTree] checks nothing: for every degree,
    also below 2, it returns a tree whose root is one empty leaf; [Search]
    on that tree reports not-found and the first [Insert] stores its
    record, whatever the degree. *)
Theorem NewBTree_accepts_any_degree :
  forall d : Z,
    exists bt,
      NewBTree d = Some bt
      /\ root bt = mkNode [] [] [] true
      /\ degree bt = d
      /\ (forall key, Search bt key = Some (EmptyString, false))
      /\ (forall key value,
             Insert bt key value
             = Some (mkBTree (mkNode [key] [value] [] true) d)).
Proof.
  intros d. eexists. split; [ reflexivity | ]. cbn [root degree].
  split_all; try reflexivity.
  intros key value. unfold Insert, splitRoot. rewrite isFull_eq.
  cbn [root degree keys].
  assert (Hodd : max_keys d <> 0%Z).
  { unfold max_keys, Go.sub, Go.mul. int_consts.
    Z.div_mod_to_equations. lia. }
  destruct (Z.eqb_spec (Go.len (@nil Z)) (max_keys d)) as [ E | _ ];
    [ now symmetry in E | ].
  cbn [root degree]. rewrite insertNonFull_eq. reflexivity.
Qed.

(** C4, as stated, fails: a degree below 2 is accepted. *)
Lemma NewBTree_degree_1_accepted :
  (1 < 2)%Z /\ NewBTree 1 = Some (mkBTree (mkNode [] [] [] true) 1).
Proof. split; reflexivity. Qed.

(** C8. Degree 3 and the twelve records of [main], inserted in that
    order: keys 10 and 15 are found, key 99 is not. *)
Theorem main_scenario :
  exists bt,
    build 3 main_records = Some bt
    /\ Search bt 10 = Some ("Record 10"%string, true)
    /\ Search bt 15 = Some ("Record 15"%string, true)
    /\ Search bt 99 = Some (EmptyString, false).
Proof.
  eexists. split; [ vm_compute; reflexivity | ].
  split_all; vm_compute; reflexivity.
Qed.

(** C10. [Search] on the tree just returned by [NewBTree], for any degree
    and any key, returns the empty string and [false], without a panic. *)
Theorem search_fresh_tree :
  forall (d key : Z),
    exists bt,
      NewBTree d = Some bt
      /\ root bt = mkNode [] [] [] true
      /\ Search bt key = Some (EmptyString, false).
Proof.
  intros d key. eexists. split; [ reflexivity | ]. split; reflexivity.
Qed.

Lemma interleave_length {E} (cs : list (list E)) es :
  length es <= length (interleave cs es).
Proof.
  revert es. induction cs as [ | c cs IH ]; intros es; simpl; [ lia | ].
  rewrite length_app. destruct es as [ | e es ]; simpl; [ lia | ].
  specialize (IH es). lia.
Qed.

Lemma keys_le_inorder n :
  length (values n) = length (keys n) ->
  length (keys n) <= length (inorder n).
Proof.
  intros Hvs. rewrite inorder_eq, <- (entries_length n Hvs).
  apply interleave_length.
Qed.

(** On a tree the program has built, [isFull] of the root says that the root
    holds [2*degree-1] keys. *)
Lemma root_full_iff d ops bt :
  (2 <= d <= Go.int_max)%Z ->
  (Z.of_nat (length ops) <= Go.int_max)%Z ->
  build d ops = Some bt ->
  isFull bt (root bt) = true <-> Go.len (keys (root bt)) = (2 * d - 1)%Z.
Proof.
  intros Hd Hlen Hb.
  destruct (build_ok d ops Hd) as (bt1 & Hb1 & Hdeg & (h & Hsh & _) & _ & Hp).
  assert (bt1 = bt) by congruence. subst bt1.
  rewrite isFull_eq, Z.eqb_eq, Hdeg.
  destruct (max_keys_cases d Hd) as [ E | [E1 E2] ]; [ now rewrite E | ].
  pose proof (keys_le_inorder _ (shaped_values _ _ _ Hsh)) as Hk.
  rewrite (Permutation_length Hp) in Hk. unfold Go.len. lia.
Qed.

(** C5. On a tree built by [NewBTree(degree)], degree >= 2, and any
    [Insert] calls, one more [Insert] proceeds in two steps: the split of
    the root, which happens exactly when the root holds [2*degree-1] keys
    and then raises the height by one, and [insertNonFull], which leaves
    the height as it is.  So the height grows by at most one per [Insert],
    and only through the root split. *)
Theorem height_grows_only_by_root_split :
  forall (d : Z) (ops : list (Z * string)) (bt : BTree)
         (key : Z) (value : string),
    (2 <= d <= Go.int_max)%Z ->
    (Z.of_nat (length ops) <= Go.int_max)%Z ->
    build d ops = Some bt ->
    exists bt0 bt',
      splitRoot bt = Some bt0
      /\ insertNonFull bt0 (root bt0) key value = Some (root bt')
      /\ Insert bt key value = Some bt'
      /\ (isFull bt (root bt) = true
          <-> Go.len (keys (root bt)) = (2 * d - 1)%Z)
      /\ height (root bt0)
         = (if isFull bt (root bt) then S (height (root bt))
            else height (root bt))
      /\ height (root bt') = height (root bt0)
      /\ height (root bt) <= height (root bt') <= S (height (root bt)).
Proof.
  intros d ops bt key value Hd Hlen Hb.
  destruct (build_ok d ops Hd) as (bt1 & Hb1 & Hdeg & (h & Hsh & Hrb) & _ & _).
  assert (bt1 = bt) by congruence. subst bt1.
  rewrite <- Hdeg in Hd.
  destruct (splitRoot_ok bt h Hd Hsh Hrb)
    as (bt0 & Hsplit & Hd0 & Hs0 & Hrb0 & Hnf0 & _).
  rewrite <- Hd0 in Hs0, Hrb0. pose proof Hd as Hd'. rewrite <- Hd0 in Hd'.
  destruct (insertNonFull_ok bt0 key value Hd' _ _ Hs0 Hnf0 Hrb0)
    as (r & Hins & Hs & _).
  exists bt0, (mkBTree r (degree bt0)). cbn [root].
  split_all; try assumption.
  - unfold Insert. now rewrite Hsplit, Hins.
  - rewrite Hdeg in Hd. now apply (root_full_iff d ops).
  - rewrite (shaped_height _ _ _ Hs0), (shaped_height _ _ _ Hsh).
    now destruct (isFull bt (root bt)).
  - now rewrite (shaped_height _ _ _ Hs), (shaped_height _ _ _ Hs0).
  - rewrite (shaped_height _ _ _ Hs), (shaped_height _ _ _ Hsh).
    destruct (isFull bt (root bt)); lia.
  - rewrite (shaped_height _ _ _ Hs), (shaped_height _ _ _ Hsh).
    destruct (isFull bt (root bt)); lia.
Qed.

Lemma height_grows_only_by_root_split_witness :
  exists bt, build 3 (firstn 5 main_records) = Some bt
    /\ exists bt0 bt',
      splitRoot bt = Some bt0
      /\ insertNonFull bt0 (root bt0) 13 "Record 13" = Some (root bt')
      /\ Insert bt 13 "Record 13" = Some bt'
      /\ (isFull bt (root bt) = true
          <-> Go.len (keys (root bt)) = (2 * 3 - 1)%Z)
      /\ height (root bt0)
         = (if isFull bt (root bt) then S (height (root bt))
            else height (root bt))
      /\ height (root bt') = height (root bt0)
      /\ height (root bt) <= height (root bt') <= S (height (root bt)).
Proof.
  eexists. split; [ vm_compute; reflexivity | ].
  apply (height_grows_only_by_root_split 3 (firstn 5 main_records)).
  - in_int_range.
  - vm_compute. discriminate.
  - vm_compute. reflexivity.
Defined.

(** Every key/value pair held by the nodes under [n], node by node. *)
Definition stored (n : BTreeNode) : list (Z * string) :=
  flat_map entries (subnodes n).

Lemma interleave_perm {E} (cs : list (list E)) es :
  Permutation (interleave cs es) (es ++ concat cs).
Proof.
  revert es. induction cs as [ | c cs IH ]; intros es; simpl.
  - now rewrite app_nil_r.
  - destruct es as [ | e es ]; [ reflexivity | ].
    rewrite <- Permutation_middle. simpl. constructor.
    rewrite IH. apply Permutation_app_swap_app.
Qed.

Lemma stored_eq n : stored n = entries n ++ flat_map stored (children n).
Proof.
  unfold stored. rewrite subnodes_eq. simpl. f_equal.
  induction (children n) as [ | c cs IH ]; simpl; [ reflexivity | ].
  now rewrite flat_map_app, IH.
Qed.

Lemma stored_inorder h :
  forall n, height n <= h -> Permutation (stored n) (inorder n).
Proof.
  induction h as [ | h IH ]; intros n Hh.
  - destruct n. simpl in Hh. lia.
  - rewrite stored_eq, inorder_eq, interleave_perm.
    apply Permutation_app_head.
    assert (Hcs : forall c, In c (children n) -> height c <= h)
      by (intros c Hc; apply height_In in Hc; lia).
    induction (children n) as [ | c cs IHcs ]; simpl; [ reflexivity | ].
    apply Permutation_app.
    + apply IH, Hcs. now left.
    + apply IHcs. intros c' Hc'. apply Hcs. now right.
Qed.

(** C6. [Insert] does not look for the key: on a tree built by
    [NewBTree(degree)], degree >= 2, and any [Insert] calls, which holds
    key [k] in some node, [Insert(k, v)] returns without a panic and the
    new tree stores the entries of the old one and the entry [(k, v)]:
    every earlier entry is still there with its value, there is one entry
    more, and [k] occurs once more than before, so at least twice. *)
Theorem insert_existing_key_duplicates :
  forall (d : Z) (ops : list (Z * string)) (bt : BTree)
         (k : Z) (v : string),
    (2 <= d <= Go.int_max)%Z ->
    build d ops = Some bt ->
    In k (map fst (stored (root bt))) ->
    exists bt',
      Insert bt k v = Some bt'
      /\ Permutation (stored (root bt')) ((k, v) :: stored (root bt))
      /\ length (stored (root bt')) = S (length (stored (root bt)))
      /\ count_occ Z.eq_dec (map fst (stored (root bt'))) k
         = S (count_occ Z.eq_dec (map fst (stored (root bt))) k)
      /\ 2 <= count_occ Z.eq_dec (map fst (stored (root bt'))) k.
Proof.
  intros d ops bt k v Hd Hb Hin.
  destruct (build_ok d ops Hd) as (bt1 & Hb1 & Hdeg & (h & Hsh & Hrb) & _ & _).
  assert (bt1 = bt) by congruence. subst bt1.
  rewrite <- Hdeg in Hd.
  destruct (Insert_ok bt h Hd Hsh Hrb k v)
    as (bt' & Hins & _ & _ & _ & Hinserted).
  apply inserted_perm in Hinserted.
  assert (Hperm : Permutation (stored (root bt')) ((k, v) :: stored (root bt))).
  { rewrite (stored_inorder _ (root bt') (le_n _)), Hinserted.
    constructor. symmetry. apply (stored_inorder _ _ (le_n _)). }
  assert (Hcount : count_occ Z.eq_dec (map fst (stored (root bt'))) k
                   = S (count_occ Z.eq_dec (map fst (stored (root bt))) k)).
  { rewrite (proj1 (Permutation_count_occ Z.eq_dec _ _)
                (Permutation_map fst Hperm) k).
    cbn [map fst]. now rewrite count_occ_cons_eq. }
  exists bt'. split_all; try assumption.
  - now rewrite (Permutation_length Hperm).
  - rewrite Hcount. apply (count_occ_In Z.eq_dec) in Hin. lia.
Qed.

Lemma insert_existing_key_duplicates_witness :
  exists bt, build 3 main_records = Some bt
    /\ exists bt',
      Insert bt 10 "again" = Some bt'
      /\ Permutation (stored (root bt'))
           ((10%Z, "again"%string) :: stored (root bt))
      /\ length (stored (root bt')) = S (length (stored (root bt)))
      /\ count_occ Z.eq_dec (map fst (stored (root bt'))) 10%Z
         = S (count_occ Z.eq_dec (map fst (stored (root bt))) 10%Z)
      /\ 2 <= count_occ Z.eq_dec (map fst (stored (root bt'))) 10%Z.
Proof.
  eexists. split; [ vm_compute; reflexivity | ].
  apply (insert_existing_key_duplicates 3 main_records).
  - in_int_range.
  - vm_compute. reflexivity.
  - vm_compute. tauto.
Defined.

(** C7. For every degree >= 2, two runs that insert the same distinct keys
    in different orders both return, and the in-order walks of the two
    trees give the same key sequence: the inserted keys in ascending
    order. *)
Theorem inorder_independent_of_insertion_order :
  forall (d : Z) (ops1 ops2 : list (Z * string)),
    (2 <= d <= Go.int_max)%Z ->
    NoDup (map fst ops1) ->
    Permutation (map fst ops1) (map fst ops2) ->
    exists bt1 bt2,
      build d ops1 = Some bt1
      /\ build d ops2 = Some bt2
      /\ inorder_keys (root bt1) = inorder_keys (root bt2)
      /\ StronglySorted Z.lt (inorder_keys (root bt1))
      /\ Permutation (inorder_keys (root bt1)) (map fst ops1).
Proof.
  intros d ops1 ops2 Hd Hnd Hperm.
  destruct (build_ok d ops1 Hd) as (bt1 & Hb1 & _ & _ & Hs1 & Hp1).
  destruct (build_ok d ops2 Hd) as (bt2 & Hb2 & _ & _ & Hs2 & Hp2).
  exists bt1, bt2.
  assert (Hk1 : Permutation (inorder_keys (root bt1)) (map fst ops1))
    by (apply Permutation_map; exact Hp1).
  assert (Hk2 : Permutation (inorder_keys (root bt2)) (map fst ops2))
    by (apply Permutation_map; exact Hp2).
  assert (Hlt1 : StronglySorted Z.lt (inorder_keys (root bt1))).
  { apply sorted_le_lt; [ assumption | ].
    eapply Permutation_NoDup; [ symmetry; exact Hk1 | exact Hnd ]. }
  assert (Hlt2 : StronglySorted Z.lt (inorder_keys (root bt2))).
  { apply sorted_le_lt; [ assumption | ].
    eapply Permutation_NoDup; [ | exact Hnd ].
    rewrite Hk2. now symmetry. }
  split_all; try assumption.
  apply sorted_lt_unique; try assumption.
  rewrite Hk1, Hk2. assumption.
Qed.

Lemma inorder_independent_of_insertion_order_witness :
  exists bt1 bt2,
    build 3 main_records = Some bt1
    /\ build 3 (rev main_records) = Some bt2
    /\ inorder_keys (root bt1) = inorder_keys (root bt2)
    /\ StronglySorted Z.lt (inorder_keys (root bt1))
    /\ Permutation (inorder_keys (root bt1)) (map fst main_records).
Proof.
  apply (inorder_independent_of_insertion_order 3 main_records
           (rev main_records)).
  - in_int_range.
  - distinct_keys.
  - rewrite map_rev. apply Permutation_rev.
Defined.

(** [invoked bt key n x]: the call [insertNonFull(n, key, _)] leads, through
    its chain of recursive calls, to a call on [x]; the call on [n] itself
    counts. *)
Inductive invoked (bt : BTree) (key : Z) : BTreeNode -> BTreeNode -> Prop :=
| invoked_here : forall n, invoked bt key n n
| invoked_below : forall n n' i c x,
    leaf n = false ->
    descend bt n key = Some (n', i) ->
    Go.index (children n') i = Some c ->
    invoked bt key c x ->
    invoked bt key n x.

Lemma invoked_ok bt key :
  (2 <= degree bt <= Go.int_max)%Z ->
  forall n x,
    invoked bt key n x ->
    forall h,
      shaped (degree bt) h n -> isFull bt n = false ->
      root_bound (degree bt) n ->
      isFull bt x = false /\ root_bound (degree bt) x
      /\ (x = n \/ key_bounds (degree bt) x).
Proof.
  intros Hdeg n x Hinv.
  induction Hinv as [ n | n n' i c x Hleaf Hd Hc Hinv IH ];
    intros h Hs Hnf Hrb.
  - auto.
  - destruct h as [ | h ].
    { simpl in Hs. destruct Hs as (_ & Hl & _). congruence. }
    destruct (descend_ok bt key Hdeg h n Hs Hnf Hrb)
      as (n0 & i0 & c0 & Hd0 & Hc0 & Hs0 & _ & _ & Hcnf & _).
    rewrite Hd in Hd0. injection Hd0 as -> ->.
    rewrite index_nat, Hc0 in Hc. injection Hc as ->.
    simpl in Hs0. destruct Hs0 as (_ & _ & _ & Hall).
    destruct (Forall_nth_error _ _ _ _ Hall Hc0) as [Hcb Hcs].
    destruct (IH h Hcs Hcnf) as (Hxnf & Hxrb & Hx).
    { intros _. apply Hcb. }
    split_all; try assumption.
    right. destruct Hx as [ -> | Hx ]; assumption.
Qed.

(** C9. On a tree built by [NewBTree(degree)], degree >= 2, and any
    [Insert] calls, one more [Insert] calls [insertNonFull] on the root
    left by the root split, and that call and every recursive call receive
    a node that [isFull] rejects and that holds fewer than [2*degree-1]
    keys; the tree returned has no node with more than [2*degree-1]
    keys. *)
Theorem insertNonFull_never_on_full_node :
  forall (d : Z) (ops : list (Z * string)) (bt : BTree)
         (key : Z) (value : string),
    (2 <= d <= Go.int_max)%Z ->
    (Z.of_nat (length ops) <= Go.int_max)%Z ->
    build d ops = Some bt ->
    exists bt0 bt',
      splitRoot bt = Some bt0
      /\ Insert bt key value = Some bt'
      /\ (forall x, invoked bt0 key (root bt0) x ->
                    isFull bt0 x = false
                    /\ (Go.len (keys x) < 2 * d - 1)%Z)
      /\ Forall (fun x => (Go.len (keys x) <= 2 * d - 1)%Z)
           (subnodes (root bt')).
Proof.
  intros d ops bt key value Hd Hlen Hb.
  destruct (build_ok d ops Hd)
    as (bt1 & Hb1 & Hdeg & (h & Hsh & Hrb) & _ & Hp).
  assert (bt1 = bt) by congruence. subst bt1.
  pose proof Hd as Hdbt. rewrite <- Hdeg in Hdbt.
  destruct (splitRoot_ok bt h Hdbt Hsh Hrb)
    as (bt0 & Hsplit & Hd0 & Hs0 & Hrb0 & Hnf0 & Hin0).
  rewrite <- Hd0 in Hs0, Hrb0. pose proof Hdbt as Hd'. rewrite <- Hd0 in Hd'.
  destruct (insertNonFull_ok bt0 key value Hd' _ _ Hs0 Hnf0 Hrb0)
    as (r & Hins & Hs & Hrbr & _ & l1 & l2 & E1 & E2 & _).
  assert (Hdeg0 : degree bt0 = d) by congruence.
  assert (Hsize : length (inorder (root bt0)) = length ops)
    by (rewrite Hin0; apply Permutation_length; exact Hp).
  exists bt0, (mkBTree r (degree bt0)). cbn [root].
  split_all.
  - assumption.
  - unfold Insert. now rewrite Hsplit, Hins.
  - intros x Hinv.
    destruct (invoked_ok bt0 key Hd' _ _ Hinv _ Hs0 Hnf0 Hrb0)
      as (Hxnf & Hxrb & Hx).
    split; [ assumption | ].
    rewrite isFull_eq in Hxnf. apply Z.eqb_neq in Hxnf.
    unfold root_bound, key_bounds in *. rewrite Hdeg0 in *.
    destruct (max_keys_cases d Hd) as [ E | [E1' E2'] ]; [ lia | ].
    destruct Hx as [ -> | Hx ]; [ | unfold Go.len in Hx; lia ].
    pose proof (keys_le_inorder _ (shaped_values _ _ _ Hs0)) as Hk.
    unfold Go.len. lia.
  - rewrite subnodes_eq. constructor.
    + unfold root_bound in Hrbr. rewrite Hdeg0 in Hrbr.
      destruct (max_keys_cases d Hd) as [ E | [E1' E2'] ]; [ lia | ].
      pose proof (keys_le_inorder _ (shaped_values _ _ _ Hs)) as Hk.
      rewrite E2, length_app in Hk. cbn [length] in Hk.
      rewrite E1, length_app in Hsize. unfold Go.len. lia.
    + eapply Forall_impl; [ | exact (shaped_inner_bounds _ _ _ Hs) ].
      intros x. unfold key_bounds. rewrite Hdeg0.
      destruct (max_keys_cases d Hd) as [ E | [E1' _] ]; lia.
Qed.

Lemma insertNonFull_never_on_full_node_witness :
  exists bt, build 3 (firstn 5 main_records) = Some bt
    /\ exists bt0 bt',
      splitRoot bt = Some bt0
      /\ Insert bt 13 "Record 13" = Some bt'
      /\ (forall x, invoked bt0 13 (root bt0) x ->
                    isFull bt0 x = false
                    /\ (Go.len (keys x) < 2 * 3 - 1)%Z)
      /\ Forall (fun x => (Go.len (keys x) <= 2 * 3 - 1)%Z)
           (subnodes (root bt')).
Proof.
  eexists. split; [ vm_compute; reflexivity | ].
  apply (insertNonFull_never_on_full_node 3 (firstn 5 main_records)).
  - in_int_range.
  - vm_compute. discriminate.
  - vm_compute. reflexivity.
Defined.

(** A leaf of degree 2 that is full. *)
Definition full_leaf : BTreeNode :=
  mkNode [1; 2; 3]%Z ["a"; "b"; "c"]%string [] true.

(** An internal node of degree 2 that is full, and a parent that holds it
    between two leaves. *)
Definition full_inner : BTreeNode :=
  mkNode [20; 40; 60]%Z ["b"; "d"; "f"]%string
    [ mkNode [15]%Z ["p"]%string [] true;
      mkNode [30]%Z ["q"]%string [] true;
      mkNode [50]%Z ["r"]%string [] true;
      mkNode [70]%Z ["s"]%string [] true ]
    false.

Definition inner_parent : BTreeNode :=
  mkNode [10; 100]%Z ["a"; "z"]%string
    [ mkNode [5]%Z ["o"]%string [] true;
      full_inner;
      mkNode [200]%Z ["t"]%string [] true ]
    false.

Lemma splitChild_partitions_witness :
  exists parent',
    splitChild (mkBTree inner_parent 2) inner_parent (Z.of_nat 1)
    = Some parent'
    /\ keys parent' = [10; 40; 100]%Z
    /\ map keys (children parent') = [[5]; [20]; [60]; [200]]%Z
    /\ map (fun c => length (children c)) (children parent') = [0; 2; 2; 0].
Proof.
  destruct (splitChild_partitions (mkBTree inner_parent 2) inner_parent
              full_inner 1)
    as (parent' & left & right & median & mvalue & Hsplit & Hmk & _
        & Hkeys & _ & Hchildren & _ & Hkl & _ & Hkr & _ & _ & _ & Hch & _).
  - in_int_range.
  - reflexivity.
  - reflexivity.
  - reflexivity.
  - reflexivity.
  - reflexivity.
  - repeat (constructor; [ repeat constructor | ]). constructor.
  - reflexivity.
  - exists parent'. split; [ exact Hsplit | ].
    injection Hmk as <-. cbn [leaf full_inner] in Hch.
    destruct Hch as (Hcl & Hcr & _ & _).
    rewrite Hkeys, Hchildren. cbn. rewrite Hkl, Hkr, Hcl, Hcr.
    split; [ reflexivity | ]. split; reflexivity.
Defined.

(** * Further properties of the B-tree *)

(** ** [Search] after any run, repeated keys included *)

Lemma around_sorted_strict key n i mid :
  slices_ok n ->
  i <= length (keys n) ->
  StronglySorted Z.le (map fst (before i n ++ mid ++ after i n)) ->
  (forall q k, i = S q -> nth_error (keys n) q = Some k -> (k < key)%Z) ->
  (forall k, nth_error (keys n) i = Some k -> (key < k)%Z) ->
  Forall (fun e => (fst e < key)%Z) (before i n)
  /\ StronglySorted Z.le (map fst mid)
  /\ Forall (fun e => (key < fst e)%Z) (after i n).
Proof.
  intros Hok Hi Hs Hlo Hhi.
  rewrite !map_app in Hs.
  apply StronglySorted_app_iff in Hs. destruct Hs as (Hb & Hs & _).
  apply StronglySorted_app_iff in Hs. destruct Hs as (Hm & Ha & _).
  split_all.
  - apply (before_bound Z.le (fun k => (k < key)%Z)); try assumption.
    intros x y. lia.
  - assumption.
  - apply (after_bound Z.le (fun k => (key < k)%Z)); try assumption.
    intros x y. lia.
Qed.

Lemma search_pos_below key ks q k :
  search_pos key ks = S q -> nth_error ks q = Some k -> (k < key)%Z.
Proof.
  intros Hp Hk. pose proof (search_pos_before key ks) as Hb.
  rewrite Forall_forall in Hb. apply Hb.
  apply nth_error_In with (n := q). rewrite nth_error_firstn, Hp.
  destruct (Nat.ltb_spec q (S q)); [ assumption | lia ].
Qed.

(** One visit of [searchNode] on a listing that may repeat keys. *)
Lemma searchNode_visit bt t h key node :
  shaped t h node ->
  StronglySorted Z.le (inorder_keys node) ->
  let p := search_pos key (keys node) in
  (exists v, In (key, v) (entries node)
             /\ searchNode bt node key = Some (v, true))
  \/ (Forall (fun e => (fst e < key)%Z) (before p node)
      /\ Forall (fun e => (key < fst e)%Z) (after p node)
      /\ searchNode bt node key
         = if leaf node then Some (EmptyString, false)
           else c <- nth_error (children node) p ;; searchNode bt c key).
Proof.
  intros Hs Hsorted p.
  pose proof (shaped_values _ _ _ Hs) as Hvs.
  pose proof (search_pos_le key (keys node)) as Hple. fold p in Hple.
  pose proof (search_pos_at key (keys node)) as Hat. fold p in Hat.
  pose proof (shaped_slices_ok _ _ _ Hs) as Hok.
  rewrite searchNode_eq. cbv zeta. fold p. rewrite !index_nat.
  assert (Hmiss :
    (forall k, nth_error (keys node) p = Some k -> (key < k)%Z) ->
    Forall (fun e => (fst e < key)%Z) (before p node)
    /\ Forall (fun e => (key < fst e)%Z) (after p node)).
  { intros Hhi.
    assert (Hlo : forall q k, p = S q -> nth_error (keys node) q = Some k ->
                              (k < key)%Z)
      by (intros q k; apply search_pos_below).
    unfold inorder_keys in Hsorted.
    destruct h as [ | h ]; pose proof Hs as Hs0; simpl in Hs0.
    - destruct Hs0 as (_ & _ & Hnil).
      rewrite (leaf_inorder node p Hnil) in Hsorted.
      destruct (around_sorted_strict key node p [] Hok Hple Hsorted Hlo Hhi)
        as (Hb & _ & Ha). now split.
    - destruct Hs0 as (_ & _ & Hcs & _).
      destruct (nth_error (children node) p) as [ c | ] eqn:Hc;
        [ | apply nth_error_None in Hc; lia ].
      rewrite (inorder_at_child node p c Hvs Hcs Hc) in Hsorted.
      destruct (around_sorted_strict key node p _ Hok Hple Hsorted Hlo Hhi)
        as (Hb & _ & Ha). now split. }
  destruct (nth_error (keys node) p) as [ k | ] eqn:Hk.
  - assert (Hp : p < length (keys node)) by (apply nth_error_Some; congruence).
    destruct (Z.ltb_spec (Z.of_nat p) (Go.len (keys node))) as [ _ | Hge ];
      [ | unfold Go.len in Hge; lia ].
    cbn [andb]. destruct (Z.eqb_spec key k) as [ <- | Hne ].
    + left. destruct (nth_error (values node) p) as [ v | ] eqn:Hv;
        [ | apply nth_error_None in Hv; lia ].
      exists v. split; [ | reflexivity ].
      apply nth_error_In with (n := p). now apply nth_error_combine.
    + right. specialize (Hat k eq_refl).
      destruct Hmiss as [Hb Ha].
      { intros k' Hk'. injection Hk' as <-. lia. }
      now split_all.
  - right. destruct Hmiss as [Hb Ha]; [ discriminate | ].
    destruct (Z.of_nat p <? Go.len (keys node))%Z; now split_all.
Qed.

Lemma not_in_keys_bounded key (l : list (Z * string)) :
  Forall (fun e => (fst e < key)%Z) l \/ Forall (fun e => (key < fst e)%Z) l ->
  ~ In key (map fst l).
Proof.
  intros H Hin. apply in_map_iff in Hin. destruct Hin as ([k v] & Hk & Hin).
  simpl in Hk. subst k. revert Hin. now apply not_in_bounded.
Qed.

Lemma searchNode_any bt t key h :
  forall node,
    shaped t h node ->
    StronglySorted Z.le (inorder_keys node) ->
    (In key (inorder_keys node) ->
     exists v, In (key, v) (inorder node)
               /\ searchNode bt node key = Some (v, true))
    /\ (~ In key (inorder_keys node) ->
        searchNode bt node key = Some (EmptyString, false)).
Proof.
  induction h as [ | h IH ]; intros node Hs Hsorted;
    pose proof (shaped_values _ _ _ Hs) as Hvs;
    destruct (searchNode_visit bt t _ key node Hs Hsorted)
      as [ (v0 & Hin0 & Hfound) | (Hb & Ha & Hmiss) ].
  1, 3: assert (Hin : In (key, v0) (inorder node))
          by (rewrite inorder_eq; now apply In_interleave);
        split; [ intros _; now exists v0 | ];
        intros Hnot; exfalso; apply Hnot; apply in_map_iff;
        now exists (key, v0).
  - pose proof Hs as Hs0. simpl in Hs0. destruct Hs0 as (_ & Hleaf & Hnil).
    rewrite Hleaf in Hmiss. split; [ | intros _; exact Hmiss ].
    intros Hin. exfalso. unfold inorder_keys in Hin.
    rewrite (leaf_inorder node (search_pos key (keys node)) Hnil), map_app in Hin.
    apply in_app_or in Hin.
    destruct Hin as [ Hin | Hin ]; revert Hin; apply not_in_keys_bounded; auto.
  - pose proof Hs as Hs0. simpl in Hs0.
    destruct Hs0 as (_ & Hleaf & Hcs & Hall).
    rewrite Hleaf in Hmiss.
    pose proof (search_pos_le key (keys node)) as Hple.
    destruct (nth_error (children node) (search_pos key (keys node)))
      as [ c | ] eqn:Hc; [ | apply nth_error_None in Hc; lia ].
    destruct (Forall_nth_error _ _ _ _ Hall Hc) as [_ Hcsh].
    assert (Hcsorted : StronglySorted Z.le (inorder_keys c))
      by (eapply sorted_child; eauto; eapply nth_error_In; eauto).
    destruct (IH c Hcsh Hcsorted) as [IH1 IH2].
    rewrite Hmiss. unfold inorder_keys in *.
    rewrite (inorder_at_child node _ c Hvs Hcs Hc), !map_app. split.
    + intros Hin.
      apply in_app_or in Hin. destruct Hin as [ Hin | Hin ];
        [ exfalso; revert Hin; apply not_in_keys_bounded; auto | ].
      apply in_app_or in Hin. destruct Hin as [ Hin | Hin ];
        [ | exfalso; revert Hin; apply not_in_keys_bounded; auto ].
      destruct (IH1 Hin) as (v & Hv & Hsearch). exists v.
      split; [ | assumption ].
      apply in_or_app. right. apply in_or_app. now left.
    + intros Hnot. apply IH2. intros Hin. apply Hnot.
      apply in_or_app. right. apply in_or_app. now left.
Qed.

(** X1. For every degree >= 2 and every run of [Insert] calls, keys
    repeated or not: [Search] finds every key that was inserted and returns
    a value that was inserted with that key; for a key never inserted it
    returns the empty string and [false]. *)
Theorem search_after_any_run :
  forall (d : Z) (ops : list (Z * string)),
    (2 <= d <= Go.int_max)%Z ->
    exists bt,
      build d ops = Some bt
      /\ (forall k, In k (map fst ops) ->
                    exists v, In (k, v) ops /\ Search bt k = Some (v, true))
      /\ (forall k, ~ In k (map fst ops) ->
                    Search bt k = Some (EmptyString, false)).
Proof.
  intros d ops Hd.
  destruct (build_ok d ops Hd) as (bt & Hb & Hdeg & (h & Hsh & _) & Hs & Hp).
  exists bt. split; [ assumption | ].
  unfold Search. split.
  - intros k Hin.
    destruct (searchNode_any bt (degree bt) k h (root bt) Hsh Hs) as [H1 _].
    destruct H1 as (v & Hv & Hsearch).
    + unfold inorder_keys. eapply Permutation_in; [ | exact Hin ].
      symmetry. apply Permutation_map. exact Hp.
    + exists v. split; [ | assumption ].
      eapply Permutation_in; [ exact Hp | assumption ].
  - intros k Hnot.
    apply (searchNode_any bt (degree bt) k h (root bt) Hsh Hs).
    intros Hin. apply Hnot. unfold inorder_keys in Hin.
    eapply Permutation_in; [ apply Permutation_map; exact Hp | assumption ].
Qed.

Lemma search_after_any_run_witness :
  exists bt,
    build 2 (main_records ++ [(10%Z, "again"%string)]) = Some bt
    /\ (forall k, In k (map fst (main_records ++ [(10%Z, "again"%string)])) ->
                  exists v, In (k, v) (main_records ++ [(10%Z, "again"%string)])
                            /\ Search bt k = Some (v, true))
    /\ (forall k, ~ In k (map fst (main_records ++ [(10%Z, "again"%string)])) ->
                  Search bt k = Some (EmptyString, false)).
Proof.
  apply (search_after_any_run 2 (main_records ++ [(10%Z, "again"%string)])).
  in_int_range.
Defined.

(** X2. For every degree >= 2 and every run of [Insert] calls, the records
    held by the nodes of the tree are the inserted records, each as often
    as it was inserted: nothing is lost, replaced or made up. *)
Theorem tree_stores_inserted_records :
  forall (d : Z) (ops : list (Z * string)),
    (2 <= d <= Go.int_max)%Z ->
    exists bt,
      build d ops = Some bt /\ Permutation (stored (root bt)) ops.
Proof.
  intros d ops Hd.
  destruct (build_ok d ops Hd) as (bt & Hb & _ & _ & _ & Hp).
  exists bt. split; [ assumption | ].
  now rewrite (stored_inorder _ _ (le_n _)).
Qed.

Lemma tree_stores_inserted_records_witness :
  exists bt,
    build 3 main_records = Some bt
    /\ Permutation (stored (root bt)) main_records.
Proof.
  apply (tree_stores_inserted_records 3 main_records). in_int_range.
Defined.

(** ** How many records a tree of a given height holds *)

Lemma stored_length_keys n :
  length (values n) = length (keys n) ->
  length (keys n) <= length (stored n).
Proof.
  intros Hvs. rewrite stored_eq, length_app, (entries_length n Hvs). lia.
Qed.

Lemma flat_map_min_length {A B} (f : A -> list B) (l : list A) (M : Z) :
  Forall (fun x => (M <= Z.of_nat (length (f x)))%Z) l ->
  (Z.of_nat (length l) * M <= Z.of_nat (length (flat_map f l)))%Z.
Proof.
  induction 1 as [ | x l Hx Hl IH ]; cbn [length flat_map]; [ lia | ].
  rewrite length_app, Nat2Z.inj_succ, Nat2Z.inj_add. nia.
Qed.

(** A node other than the root, with [h] levels below it, holds at least
    [t^(h+1) - 1] records in its subtree. *)
Lemma shaped_min_entries t h :
  (2 <= t)%Z ->
  forall n,
    shaped t h n -> key_bounds t n ->
    (t ^ Z.of_nat (S h) - 1 <= Z.of_nat (length (stored n)))%Z.
Proof.
  intros Ht. induction h as [ | h IH ]; intros n Hs Hb.
  - pose proof (stored_length_keys n (shaped_values _ _ _ Hs)) as Hk.
    unfold key_bounds, Go.len in Hb. change (Z.of_nat 1) with 1%Z.
    rewrite Z.pow_1_r. lia.
  - pose proof Hs as Hs0. simpl in Hs0. destruct Hs0 as (Hvs & _ & Hcs & Hall).
    rewrite stored_eq, length_app, (entries_length n Hvs).
    assert (Hsum : (Z.of_nat (length (children n)) * (t ^ Z.of_nat (S h) - 1)
                    <= Z.of_nat (length (flat_map stored (children n))))%Z).
    { apply flat_map_min_length. eapply Forall_impl; [ | exact Hall ].
      intros c [Hcb Hc]. now apply IH. }
    unfold key_bounds, Go.len in Hb.
    rewrite (Nat2Z.inj_succ (S h)), Z.pow_succ_r by lia.
    assert (Hpos : (0 < t ^ Z.of_nat (S h))%Z) by (apply Z.pow_pos_nonneg; lia).
    rewrite Hcs in Hsum. nia.
Qed.

(** What a run keeps true of the root: with [n] records in the tree, a root
    that is not a leaf has at least one key and the tree at least
    [2*degree] records. *)
Definition root_inv (d : Z) (n : nat) (bt : BTree) : Prop :=
  degree bt = d
  /\ length (stored (root bt)) = n
  /\ exists h,
       shaped d h (root bt) /\ root_bound d (root bt)
       /\ (h <> 0 -> 1 <= length (keys (root bt)) /\ (2 * d <= Z.of_nat n)%Z).

Lemma splitRoot_one_key bt h :
  (2 <= degree bt <= Go.int_max)%Z ->
  shaped (degree bt) h (root bt) ->
  root_bound (degree bt) (root bt) ->
  isFull bt (root bt) = true ->
  exists bt0,
    splitRoot bt = Some bt0
    /\ length (keys (root bt0)) = 1
    /\ (2 * degree bt - 1 <= Z.of_nat (length (stored (root bt))))%Z.
Proof.
  intros Hdeg Hshape Hrb Hfull.
  pose proof (root_full_bounds bt Hdeg Hfull) as Hb.
  destruct (full_length bt Hdeg _ Hb Hfull) as [Hmax Hlen].
  pose proof (shaped_values _ _ _ Hshape) as Hvs.
  pose proof (stored_length_keys _ Hvs) as Hst.
  assert (Hm : Z.of_nat (mid_of bt) = (degree bt - 1)%Z)
    by (unfold mid_of; lia).
  destruct (nth_error (keys (root bt)) (mid_of bt)) as [ mk | ] eqn:Hmk;
    [ | apply nth_error_None in Hmk; lia ].
  destruct (nth_error (values (root bt)) (mid_of bt)) as [ mv | ] eqn:Hmv;
    [ | apply nth_error_None in Hmv; lia ].
  unfold splitRoot. rewrite Hfull.
  cbv zeta. unfold set_children, Go.append. cbn [keys values children leaf app].
  change 0%Z with (Z.of_nat 0).
  rewrite (splitChild_spec bt (mkNode [] [] [root bt] false) 0
             (root bt) mk mv); try reflexivity; try assumption; try lia.
  2: { intros Hl. rewrite (shaped_children_length _ _ _ Hshape Hl). lia. }
  eexists. split; [ reflexivity | ]. cbn [root keys]. split; [ reflexivity | lia ].
Qed.

Lemma Insert_root_inv d n bt key value :
  (2 <= d <= Go.int_max)%Z ->
  root_inv d n bt ->
  exists bt', Insert bt key value = Some bt' /\ root_inv d (S n) bt'.
Proof.
  intros Hd (Hdeg & Hn & h & Hsh & Hrb & Hint). subst d.
  destruct (Insert_ok bt h Hd Hsh Hrb key value)
    as (bt' & Hins & Hd' & Hs' & Hrb' & Hinserted).
  exists bt'. split; [ assumption | ].
  assert (Hn' : length (stored (root bt')) = S n).
  { apply inserted_perm in Hinserted.
    rewrite (Permutation_length (stored_inorder _ (root bt') (le_n _))).
    rewrite (Permutation_length Hinserted). simpl.
    now rewrite <- (Permutation_length (stored_inorder _ (root bt) (le_n _))),
      Hn. }
  split; [ assumption | ]. split; [ assumption | ].
  eexists. split; [ exact Hs' | ]. split; [ exact Hrb' | ].
  (* the keys of the root, through the two steps of [Insert] *)
  destruct (splitRoot_ok bt h Hd Hsh Hrb)
    as (bt0 & Hsplit & Hd0 & Hs0 & Hrb0 & Hnf0 & _).
  rewrite <- Hd0 in Hs0, Hrb0. pose proof Hd as Hd0'. rewrite <- Hd0 in Hd0'.
  destruct (insertNonFull_ok bt0 key value Hd0' _ _ Hs0 Hnf0 Hrb0)
    as (r & Hnon & _ & _ & Hkeys & _).
  assert (Hroot' : root bt' = r).
  { unfold Insert in Hins. rewrite Hsplit, Hnon in Hins.
    injection Hins as <-. reflexivity. }
  rewrite Hroot'.
  destruct (isFull bt (root bt)) eqn:Hfull.
  - intros _.
    destruct (splitRoot_one_key bt h Hd Hsh Hrb Hfull)
      as (bt1 & Hsplit1 & Hone & Hcount).
    assert (bt1 = bt0) by congruence. subst bt1. lia.
  - intros Hh. destruct (Hint Hh) as [H1 H2].
    unfold splitRoot in Hsplit. rewrite Hfull in Hsplit.
    injection Hsplit as <-. lia.
Qed.

Lemma inserts_root_inv d ops :
  (2 <= d <= Go.int_max)%Z ->
  forall n bt,
    root_inv d n bt ->
    exists bt', inserts bt ops = Some bt' /\ root_inv d (n + length ops) bt'.
Proof.
  intros Hd. induction ops as [ | [k v] ops IH ]; intros n bt Hinv.
  - exists bt. rewrite Nat.add_0_r. now split.
  - destruct (Insert_root_inv d n bt k v Hd Hinv) as (bt1 & Hins & Hinv1).
    destruct (IH (S n) bt1 Hinv1) as (bt' & Hrun & Hinv').
    exists bt'. cbn [inserts length]. rewrite Hins. split; [ assumption | ].
    now replace (n + S (length ops)) with (S n + length ops) by lia.
Qed.

Lemma build_root_inv d ops :
  (2 <= d <= Go.int_max)%Z ->
  exists bt, build d ops = Some bt /\ root_inv d (length ops) bt.
Proof.
  intros Hd. unfold build.
  destruct (NewBTree_ok d) as (bt0 & -> & Hd0 & Hr0 & Hs0 & Hrb0).
  apply (inserts_root_inv d ops Hd 0 bt0).
  split; [ assumption | ]. split; [ now rewrite Hr0 | ].
  exists 0. split_all; try assumption; intros H; now destruct H.
Qed.

(** X3. For every degree >= 2 and every run of [n >= 1] [Insert] calls, the
    height [h] of the tree satisfies [2 * degree^(h-1) <= n + 1]: the
    height grows with the logarithm of the number of records. *)
Theorem height_is_logarithmic :
  forall (d : Z) (ops : list (Z * string)),
    (2 <= d <= Go.int_max)%Z ->
    ops <> [] ->
    exists bt,
      build d ops = Some bt
      /\ (2 * d ^ (Z.of_nat (height (root bt)) - 1)
          <= Z.of_nat (length ops) + 1)%Z.
Proof.
  intros d ops Hd Hne.
  destruct (build_root_inv d ops Hd)
    as (bt & Hb & Hdeg & Hn & h & Hsh & Hrb & Hint).
  exists bt. split; [ assumption | ].
  rewrite (shaped_height _ _ _ Hsh).
  replace (Z.of_nat (S h) - 1)%Z with (Z.of_nat h) by lia.
  destruct h as [ | h ].
  - destruct ops; [ congruence | ]. simpl length. change (d ^ Z.of_nat 0)%Z with 1%Z. lia.
  - destruct Hint as [Hk _]; [ discriminate | ].
    pose proof Hsh as Hs0. simpl in Hs0. destruct Hs0 as (Hvs & _ & Hcs & Hall).
    rewrite <- Hn, stored_eq, length_app, (entries_length _ Hvs).
    assert (Hsum : (Z.of_nat (length (children (root bt)))
                    * (d ^ Z.of_nat (S h) - 1)
                    <= Z.of_nat (length (flat_map stored (children (root bt)))))%Z).
    { apply flat_map_min_length. eapply Forall_impl; [ | exact Hall ].
      intros c [Hcb Hc]. apply shaped_min_entries; [ lia | assumption .. ]. }
    assert (Hpos : (0 < d ^ Z.of_nat (S h))%Z) by (apply Z.pow_pos_nonneg; lia).
    rewrite Hcs in Hsum. nia.
Qed.

Lemma height_is_logarithmic_witness :
  exists bt,
    build 3 main_records = Some bt
    /\ (2 * 3 ^ (Z.of_nat (height (root bt)) - 1)
        <= Z.of_nat (length main_records) + 1)%Z.
Proof.
  apply (height_is_logarithmic 3 main_records).
  - in_int_range.
  - discriminate.
Defined.

(** X4. For every degree >= 2 and every run of [n] [Insert] calls ([n] a Go
    [int]): the root is still a leaf, no split having happened, exactly
    when [n <= 2*degree-1]. *)
Theorem root_is_leaf_until_full :
  forall (d : Z) (ops : list (Z * string)),
    (2 <= d <= Go.int_max)%Z ->
    (Z.of_nat (length ops) <= Go.int_max)%Z ->
    exists bt,
      build d ops = Some bt
      /\ (leaf (root bt) = true
          <-> (Z.of_nat (length ops) <= 2 * d - 1)%Z)
      /\ (leaf (root bt) = true
          -> children (root bt) = []
             /\ Permutation (entries (root bt)) ops
             /\ StronglySorted Z.le (keys (root bt))).
Proof.
  intros d ops Hd Hlen.
  destruct (build_root_inv d ops Hd)
    as (bt & Hb & Hdeg & Hn & h & Hsh & Hrb & Hint).
  destruct (build_ok d ops Hd) as (bt1 & Hb1 & _ & _ & Hsorted & Hp).
  assert (bt1 = bt) by congruence. subst bt1.
  exists bt. split; [ assumption | ].
  rewrite (shaped_leaf _ _ _ Hsh).
  destruct h as [ | h ].
  - pose proof Hsh as Hs0. simpl in Hs0. destruct Hs0 as (Hvs & _ & Hnil).
    assert (Hst : stored (root bt) = entries (root bt))
      by (rewrite stored_eq, Hnil; simpl; apply app_nil_r).
    split.
    + split; [ intros _ | reflexivity ].
      rewrite <- Hn, Hst, (entries_length _ Hvs).
      unfold root_bound, Go.len in Hrb.
      destruct (max_keys_cases d Hd) as [ E | [E1 E2] ]; [ lia | ].
      rewrite <- (entries_length _ Hvs), <- Hst, Hn. lia.
    + intros _. split_all.
      * assumption.
      * rewrite <- Hst. now rewrite (stored_inorder _ _ (le_n _)).
      * now apply sorted_node_keys.
  - destruct Hint as [_ H2]; [ discriminate | ].
    split; [ | discriminate ].
    split; [ discriminate | lia ].
Qed.

Lemma root_is_leaf_until_full_witness :
  exists bt,
    build 3 (firstn 5 main_records) = Some bt
    /\ (leaf (root bt) = true
        <-> (Z.of_nat (length (firstn 5 main_records)) <= 2 * 3 - 1)%Z)
    /\ (leaf (root bt) = true
        -> children (root bt) = []
           /\ Permutation (entries (root bt)) (firstn 5 main_records)
           /\ StronglySorted Z.le (keys (root bt))).
Proof.
  apply (root_is_leaf_until_full 3 (firstn 5 main_records)).
  - in_int_range.
  - vm_compute. discriminate.
Defined.

(** ** The search-tree order of the keys *)

(** The keys of node [x] separate its subtrees: every key held under child
    [i] lies strictly between key [i-1] and key [i] of [x], where these
    exist. *)
Definition separates (x : BTreeNode) : Prop :=
  forall i c k,
    nth_error (children x) i = Some c ->
    In k (map fst (stored c)) ->
    (forall q lo, i = S q -> nth_error (keys x) q = Some lo -> (lo < k)%Z)
    /\ (forall hi, nth_error (keys x) i = Some hi -> (k < hi)%Z).

Lemma shaped_subtrees_sorted (R : Z -> Z -> Prop) t h n :
  shaped t h n -> StronglySorted R (inorder_keys n) ->
  Forall (fun x => StronglySorted R (inorder_keys x) /\ slices_ok x)
    (subnodes n).
Proof.
  revert n. induction h as [ | h IH ]; intros n Hs Hsorted;
    pose proof (shaped_slices_ok _ _ _ Hs) as Hok;
    pose proof Hs as Hs0; simpl in Hs0; rewrite subnodes_eq.
  - destruct Hs0 as (Hvs & _ & Hnil). rewrite Hnil. simpl.
    repeat constructor; assumption.
  - destruct Hs0 as (Hvs & _ & Hlen & Hall).
    constructor; [ now split | ].
    apply Forall_flat_map. apply Forall_forall. intros c Hc.
    rewrite Forall_forall in Hall. destruct (Hall c Hc) as [_ Hcs].
    apply (IH c Hcs). eapply sorted_child; eauto.
Qed.

Lemma sorted_separates x :
  slices_ok x -> StronglySorted Z.lt (inorder_keys x) -> separates x.
Proof.
  intros [Hvs Hcs] Hsorted i c k Hc Hk.
  destruct Hcs as [ Hnil | Hcs ];
    [ rewrite Hnil in Hc; destruct i; discriminate | ].
  assert (Hkc : In k (map fst (inorder c))).
  { eapply Permutation_in; [ | exact Hk ].
    apply Permutation_map, (stored_inorder _ _ (le_n _)). }
  unfold inorder_keys in Hsorted.
  rewrite (inorder_at_child x i c Hvs Hcs Hc), !map_app in Hsorted.
  apply StronglySorted_app_iff in Hsorted.
  destruct Hsorted as (_ & Hrest & Hbefore).
  apply StronglySorted_app_iff in Hrest. destruct Hrest as (_ & _ & Hafter).
  split.
  - intros q lo -> Hlo.
    assert (Hq : q < length (values x))
      by (rewrite Hvs; apply nth_error_Some; congruence).
    destruct (nth_error (values x) q) as [ v | ] eqn:Hv;
      [ | apply nth_error_None in Hv; lia ].
    destruct (before_last x q (lo, v)) as (l & Hl).
    + right. assert (S q < length (children x))
        by (apply nth_error_Some; congruence). lia.
    + now apply nth_error_combine.
    + apply Hbefore; [ | apply in_or_app; now left ].
      rewrite Hl, map_app. apply in_or_app. right. now left.
  - intros hi Hhi.
    assert (Hq : i < length (values x))
      by (rewrite Hvs; apply nth_error_Some; congruence).
    destruct (nth_error (values x) i) as [ v | ] eqn:Hv;
      [ | apply nth_error_None in Hv; lia ].
    destruct (after_first x i (hi, v)) as (l & Hl);
      [ now apply nth_error_combine | ].
    apply Hafter; [ assumption | ]. rewrite Hl. now left.
Qed.

(** X5. For every degree >= 2 and every run of [Insert] calls with
    pairwise distinct keys, the tree is a search tree: in every node, the
    keys held under child [i] lie strictly between key [i-1] and key [i] of
    the node. *)
Theorem keys_separate_subtrees :
  forall (d : Z) (ops : list (Z * string)),
    (2 <= d <= Go.int_max)%Z ->
    NoDup (map fst ops) ->
    exists bt,
      build d ops = Some bt /\ Forall separates (subnodes (root bt)).
Proof.
  intros d ops Hd Hnd.
  destruct (build_ok d ops Hd) as (bt & Hb & _ & (h & Hsh & _) & Hs & Hp).
  exists bt. split; [ assumption | ].
  assert (Hlt : StronglySorted Z.lt (inorder_keys (root bt))).
  { apply sorted_le_lt; [ assumption | ].
    unfold inorder_keys. eapply Permutation_NoDup; [ | exact Hnd ].
    symmetry. apply Permutation_map. exact Hp. }
  eapply Forall_impl; [ | exact (shaped_subtrees_sorted _ _ _ _ Hsh Hlt) ].
  intros x [Hx Hok]. now apply sorted_separates.
Qed.

Lemma keys_separate_subtrees_witness :
  exists bt,
    build 3 main_records = Some bt /\ Forall separates (subnodes (root bt)).
Proof.
  apply (keys_separate_subtrees 3 main_records).
  - in_int_range.
  - distinct_keys.
Defined.

(** ** [splitChild] keeps the records *)

(** X6. Under the preconditions of a split (a parent with matching slices,
    a child with [2t-1] keys and as many values, [2t] children if it is
    internal), [splitChild] returns a parent that holds the same records
    as before and one more key of its own. *)
Theorem splitChild_keeps_records :
  forall (bt : BTree) (parent child : BTreeNode) (childIndex : nat),
    (2 <= degree bt <= Go.int_max)%Z ->
    length (values parent) = length (keys parent) ->
    length (children parent) = S (length (keys parent)) ->
    nth_error (children parent) childIndex = Some child ->
    length (keys child) = 2 * order bt - 1 ->
    length (values child) = 2 * order bt - 1 ->
    (if leaf child then children child = []
     else length (children child) = 2 * order bt) ->
    exists parent',
      splitChild bt parent (Z.of_nat childIndex) = Some parent'
      /\ Permutation (stored parent') (stored parent)
      /\ length (keys parent') = S (length (keys parent))
      /\ length (children parent') = S (length (children parent)).
Proof.
  intros bt parent child idx Hdeg Hvs Hcs Hchild Hklen Hvlen Hcc.
  assert (Ho : order bt = S (mid_of bt)) by (unfold mid_of, order; lia).
  destruct (nth_error (keys child) (mid_of bt)) as [ mk | ] eqn:Hmk;
    [ | apply nth_error_None in Hmk; lia ].
  destruct (nth_error (values child) (mid_of bt)) as [ mv | ] eqn:Hmv;
    [ | apply nth_error_None in Hmv; lia ].
  assert (Hidx : idx < length (children parent))
    by (apply nth_error_Some; congruence).
  eexists. split.
  - apply (splitChild_spec bt parent idx child mk mv); try assumption; try lia.
    intros Hl. rewrite Hl in Hcc. lia.
  - split_all.
    + rewrite (stored_inorder _ _ (le_n _)).
      rewrite (split_inorder parent idx child mk mv (mid_of bt));
        try assumption.
      * symmetry. apply (stored_inorder _ _ (le_n _)).
      * apply halves_inorder; try assumption; try lia.
        destruct (leaf child); [ assumption | lia ].
    + cbn [keys]. apply insert_at_length.
    + cbn [children]. rewrite length_app, length_firstn. cbn [length].
      rewrite length_skipn. lia.
Qed.

Lemma splitChild_keeps_records_witness :
  exists parent',
    splitChild (mkBTree (mkNode [] [] [full_leaf] false) 2)
      (mkNode [] [] [full_leaf] false) (Z.of_nat 0) = Some parent'
    /\ Permutation (stored parent') (stored (mkNode [] [] [full_leaf] false))
    /\ length (keys parent') = 1
    /\ length (children parent') = 2.
Proof.
  apply (splitChild_keeps_records
           (mkBTree (mkNode [] [] [full_leaf] false) 2)
           (mkNode [] [] [full_leaf] false) full_leaf 0);
    try reflexivity.
  in_int_range.
Defined.

(** ** A degree that [isFull] never reaches *)

Lemma insertLeaf_inserted node key value :
  length (values node) = length (keys node) ->
  children node = [] ->
  exists node',
    insertLeaf node key value = Some node'
    /\ length (values node') = length (keys node')
    /\ children node' = []
    /\ leaf node' = leaf node
    /\ inserted key value (inorder node) (inorder node').
Proof.
  intros Hvs Hnil.
  destruct (insert_pos_spec key (keys node) _ (le_n _))
    as (p & Hp & Hple & Habove & Hbelow).
  rewrite (insertLeaf_spec node key value p Hvs Hp).
  eexists. split; [ reflexivity | ]. cbn [keys values children leaf].
  split_all; try assumption; try reflexivity.
  - rewrite !insert_at_length. lia.
  - exists (before p node), (after p node).
    destruct (leaf_around node p Hnil) as [Eb Ea].
    split_all.
    + now apply leaf_inorder.
    + rewrite inorder_eq. cbn [children]. rewrite Hnil.
      cbn [map interleave]. unfold entries.
      cbn [keys values]. rewrite combine_insert_at by assumption.
      rewrite Eb, Ea. reflexivity.
    + intros Hsorted.
      rewrite (leaf_inorder node p Hnil) in Hsorted.
      assert (Hok : slices_ok node) by (split; [ assumption | now left ]).
      destruct (around_sorted key node p [] Hok Hple Hsorted Hbelow)
        as (Hb & _ & Ha); [ | now split ].
      intros k Hk.
      assert (p < length (keys node)) by (apply nth_error_Some; congruence).
      apply Z.lt_le_incl, (Habove p); [ lia | assumption ].
Qed.

Lemma max_keys_negative d :
  (- 2 ^ 62 < d <= 0)%Z -> (max_keys d < 0)%Z.
Proof.
  intros H. change (2 ^ 62)%Z with 4611686018427387904%Z in H.
  unfold max_keys, Go.sub, Go.mul.
  rewrite (wrap_small (2 * d)) by (int_consts; lia).
  rewrite wrap_small by (int_consts; lia). lia.
Qed.

Lemma inserts_single_leaf ops :
  forall bt,
    (max_keys (degree bt) < 0)%Z ->
    shaped (degree bt) 0 (root bt) ->
    StronglySorted Z.le (inorder_keys (root bt)) ->
    exists bt',
      inserts bt ops = Some bt'
      /\ degree bt' = degree bt
      /\ shaped (degree bt') 0 (root bt')
      /\ StronglySorted Z.le (inorder_keys (root bt'))
      /\ Permutation (inorder (root bt')) (ops ++ inorder (root bt)).
Proof.
  induction ops as [ | [k v] ops IH ]; intros bt Hneg Hsh Hs.
  - exists bt. split_all; auto.
  - pose proof Hsh as Hs0. simpl in Hs0. destruct Hs0 as (Hvs & Hleaf & Hnil).
    destruct (insertLeaf_inserted (root bt) k v Hvs Hnil)
      as (r & Hins & Hvs' & Hnil' & Hleaf' & Hinserted).
    assert (Hnf : forall n, isFull bt n = false).
    { intros n. rewrite isFull_eq. apply Z.eqb_neq. unfold Go.len. lia. }
    assert (HI : Insert bt k v = Some (mkBTree r (degree bt))).
    { unfold Insert, splitRoot. rewrite Hnf, insertNonFull_eq, Hleaf, Hins.
      reflexivity. }
    destruct (IH (mkBTree r (degree bt))) as (bt' & Hrun & Hd' & Hsh' & Hs' & Hp).
    + assumption.
    + cbn [root degree shaped]. split_all; congruence.
    + cbn [root]. eapply inserted_sorted; eauto.
    + exists bt'. cbn [inserts]. rewrite HI.
      cbn [root degree] in *. split_all; try assumption.
      rewrite Hp. apply inserted_perm in Hinserted.
      rewrite Hinserted. symmetry. apply Permutation_middle.
Qed.

(** X7. [NewBTree] accepts a degree [d <= 0] (above [-2^62]); [isFull] then
    never holds, so no [Insert] ever splits: every run returns a tree
    whose root is one leaf that holds all the inserted records in key
    order, and [Search] still finds exactly the inserted keys. *)
Theorem nonpositive_degree_never_splits :
  forall (d : Z) (ops : list (Z * string)),
    (- 2 ^ 62 < d <= 0)%Z ->
    exists bt,
      build d ops = Some bt
      /\ leaf (root bt) = true
      /\ children (root bt) = []
      /\ Permutation (entries (root bt)) ops
      /\ StronglySorted Z.le (keys (root bt))
      /\ (forall k, In k (map fst ops) ->
                    exists v, In (k, v) ops /\ Search bt k = Some (v, true))
      /\ (forall k, ~ In k (map fst ops) ->
                    Search bt k = Some (EmptyString, false)).
Proof.
  intros d ops Hd. unfold build. cbn [NewBTree].
  destruct (inserts_single_leaf ops (mkBTree (mkNode [] [] [] true) d))
    as (bt & Hrun & Hdeg & Hsh & Hs & Hp).
  - now apply max_keys_negative.
  - cbn. auto.
  - constructor.
  - exists bt. split; [ assumption | ].
    pose proof Hsh as Hs0. simpl in Hs0. destruct Hs0 as (Hvs & Hleaf & Hnil).
    assert (Hin : inorder (root bt) = entries (root bt))
      by (rewrite inorder_eq, Hnil; reflexivity).
    cbn [root inorder combine interleave map] in Hp. rewrite app_nil_r in Hp.
    split_all; try assumption.
    + now rewrite <- Hin.
    + now apply sorted_node_keys.
    + intros k Hk.
      destruct (searchNode_any bt (degree bt) k 0 (root bt) Hsh Hs) as [H1 _].
      destruct H1 as (v & Hv & Hsearch).
      * unfold inorder_keys. eapply Permutation_in; [ | exact Hk ].
        symmetry. apply Permutation_map. exact Hp.
      * exists v. split; [ | assumption ].
        eapply Permutation_in; [ exact Hp | assumption ].
    + intros k Hnot.
      apply (searchNode_any bt (degree bt) k 0 (root bt) Hsh Hs).
      intros Hk. apply Hnot. unfold inorder_keys in Hk.
      eapply Permutation_in; [ apply Permutation_map; exact Hp | assumption ].
Qed.

Lemma nonpositive_degree_never_splits_witness :
  exists bt,
    build 0 main_records = Some bt
    /\ leaf (root bt) = true
    /\ children (root bt) = []
    /\ Permutation (entries (root bt)) main_records
    /\ StronglySorted Z.le (keys (root bt))
    /\ (forall k, In k (map fst main_records) ->
                  exists v, In (k, v) main_records
                            /\ Search bt k = Some (v, true))
    /\ (forall k, ~ In k (map fst main_records) ->
                  Search bt k = Some (EmptyString, false)).
Proof.
  apply (nonpositive_degree_never_splits 0 main_records).
  vm_compute. split; [ reflexivity | discriminate ].
Defined.

(** * The in-memory file system of the same source file

    [FileSystem] is a tree of [FileNode]s under a root directory.  A node's
    [children] map is rendered by an association list with one binding per
    name; [parent] is a back pointer that is set to the node holding the
    child and is never read, so the shape of the tree stands for it.
    [modified] is the value of [time.Now()] at creation: the clock is a
    function [now] of the number of earlier calls, and that number is part
    of the state. *)

Module Files.

Import Ascii.
Open Scope string_scope.

(** ** The library functions the code calls, on byte strings *)

Definition slash : Ascii.ascii := "/"%char.

Fixpoint drop_slashes (s : list Ascii.ascii) : list Ascii.ascii :=
  match s with
  | c :: s' => if Ascii.eqb c slash then drop_slashes s' else s
  | [] => []
  end.

(** [strings.Trim(s, "/")]: [s] without its leading and trailing slashes. *)
Definition Trim (s : string) : string :=
  string_of_list_ascii
    (rev (drop_slashes (rev (drop_slashes (list_ascii_of_string s))))).

(** [strings.Split(s, "/")]: the substrings between the slashes, one more
    than there are slashes; [Split("", "/")] is [[""]]. *)
Fixpoint Split (s : string) : list string :=
  match s with
  | EmptyString => [EmptyString]
  | String c s' =>
      if Ascii.eqb c slash then EmptyString :: Split s'
      else match Split s' with
           | p :: ps => String c p :: ps
           | [] => [String c EmptyString]
           end
  end.

(** [strings.LastIndex(s, "/")]: the index of the last slash, or [-1]. *)
Fixpoint LastIndex (s : string) : Z :=
  match s with
  | EmptyString => (-1)%Z
  | String c s' =>
      let r := LastIndex s' in
      if (0 <=? r)%Z then (r + 1)%Z
      else if Ascii.eqb c slash then 0%Z else (-1)%Z
  end.

(** [s[:hi]] and [s[lo:]] on a string: a panic unless the bound is within
    [0 .. len(s)]. *)
Definition str_to (s : string) (hi : Z) : option string :=
  if ((0 <=? hi) && (hi <=? Z.of_nat (String.length s)))%Z
  then Some (substring 0 (Z.to_nat hi) s) else None.

Definition str_from (s : string) (lo : Z) : option string :=
  if ((0 <=? lo) && (lo <=? Z.of_nat (String.length s)))%Z
  then Some (substring (Z.to_nat lo) (String.length s - Z.to_nat lo) s)
  else None.

(** [sort.Strings]: ascending in the byte order of strings. *)
Fixpoint sort_insert (x : string) (l : list string) : list string :=
  match l with
  | [] => [x]
  | y :: l' => if String.leb x y then x :: l else y :: sort_insert x l'
  end.

Fixpoint sort_strings (l : list string) : list string :=
  match l with
  | [] => []
  | x :: l' => sort_insert x (sort_strings l')
  end.

(** ** Data model *)

#[warnings="-register-all"]
Inductive FileNode : Type :=
  mkFileNode {
    name : string;
    isDir : bool;
    size : Z;
    modified : Z;
    children : list (string * FileNode)
  }.

(** [m[k]] *)
Fixpoint lookup (k : string) (m : list (string * FileNode)) : option FileNode :=
  match m with
  | [] => None
  | (k', v) :: m' => if String.eqb k k' then Some v else lookup k m'
  end.

(** [m[k] = v] *)
Fixpoint assign (k : string) (v : FileNode) (m : list (string * FileNode))
  : list (string * FileNode) :=
  match m with
  | [] => [(k, v)]
  | (k', v') :: m' =>
      if String.eqb k k' then (k, v) :: m' else (k', v') :: assign k v m'
  end.

(** [node.children[k] = child], also for a child changed in place. *)
Definition set_child (node : FileNode) (k : string) (child : FileNode)
  : FileNode :=
  mkFileNode (name node) (isDir node) (size node) (modified node)
    (assign k child (children node)).

Record FileSystem : Type := mkFileSystem { root : FileNode }.

(** The program state: the file system and the number of calls of
    [time.Now()] so far. *)
Record World : Type := mkWorld { fs : FileSystem; ticks : nat }.

Section Clock.

(** [now k] is what the [k]-th call of [time.Now()] returns. *)
Variable now : nat -> Z.

(** ** Operations *)

Definition NewFileNode (nm : string) (dir : bool) (sz : Z) (tick : nat)
  : FileNode * nat :=
  (mkFileNode nm dir sz (now tick) [], S tick).

Definition NewFileSystem (tick : nat) : World :=
  let (r, tick') := NewFileNode "/" true 0 tick in
  mkWorld (mkFileSystem r) tick'.

(** The loop of [CreateDir] from node [current] on; the node as the loop
    leaves it, the error returned if any, and the clock. *)
Fixpoint mkdirAll (parts : list string) (current : FileNode) (tick : nat)
  : FileNode * option string * nat :=
  match parts with
  | [] => (current, None, tick)
  | part :: rest =>
      if String.eqb part "" then mkdirAll rest current tick
      else
        match lookup part (children current) with
        | Some child =>
            if negb (isDir child) then
              (current, Some ("file exists with name " ++ part), tick)
            else
              let '(child', err, tick') := mkdirAll rest child tick in
              (set_child current part child', err, tick')
        | None =>
            let (newDir, tick1) := NewFileNode part true 0 tick in
            let '(newDir', err, tick') := mkdirAll rest newDir tick1 in
            (set_child current part newDir', err, tick')
        end
  end.

Definition CreateDir (w : World) (path : string) : World * option string :=
  let parts := Split (Trim path) in
  let '(r, err, tick) := mkdirAll parts (root (fs w)) (ticks w) in
  (mkWorld (mkFileSystem r) tick, err).

(** The walk of [CreateFile] to the directory node and what it does there;
    [current] becomes [nil] at a missing name, and the next access to it
    panics. *)
Fixpoint at_path (parts : list string) (current : FileNode)
  (act : FileNode -> FileNode * option string * nat)
  : option (FileNode * option string * nat) :=
  match parts with
  | [] => Some (act current)
  | part :: rest =>
      if negb (String.eqb part "") then
        match lookup part (children current) with
        | Some child =>
            match at_path rest child act with
            | Some (child', err, tick) =>
                Some (set_child current part child', err, tick)
            | None => None
            end
        | None => None
        end
      else at_path rest current act
  end.

(** The end of [CreateFile], on the node reached. *)
Definition addFile (fileName : string) (sz : Z) (tick : nat)
  (current : FileNode) : FileNode * option string * nat :=
  match lookup fileName (children current) with
  | Some _ => (current, Some ("file already exists: " ++ fileName), tick)
  | None =>
      let (newFile, tick') := NewFileNode fileName false sz tick in
      (set_child current fileName newFile, None, tick')
  end.

(** [dirPath] and [fileName] as [CreateFile] computes them. *)
Definition dir_and_name (path : string) : option (string * string) :=
  let lastSlash := LastIndex path in
  match str_to path lastSlash, str_from path (lastSlash + 1) with
  | Some dirPath, Some fileName =>
      Some (if String.eqb dirPath "" then "/" else dirPath, fileName)
  | _, _ => None
  end.

(** The parts a path is walked by: none for ["/"]. *)
Definition parts_of (path : string) : list string :=
  if negb (String.eqb path "/") then Split (Trim path) else [].

Definition CreateFile (w : World) (path : string) (sz : Z)
  : option (World * option string) :=
  match dir_and_name path with
  | None => None
  | Some (dirPath, fileName) =>
      let (w1, _) := CreateDir w dirPath in
      match at_path (parts_of dirPath) (root (fs w1))
              (addFile fileName sz (ticks w1)) with
      | Some (r, err, tick) => Some (mkWorld (mkFileSystem r) tick, err)
      | None => None
      end
  end.

(** The walk of [List]: [None] where [List] returns [nil] at a missing
    name. *)
Fixpoint resolve (parts : list string) (current : FileNode)
  : option FileNode :=
  match parts with
  | [] => Some current
  | part :: rest =>
      if negb (String.eqb part "") then
        match lookup part (children current) with
        | Some child => resolve rest child
        | None => None
        end
      else resolve rest current
  end.

(** [List] returns a slice; [nil] and the empty slice are both [[]]. *)
Definition List (w : World) (path : string) : list string :=
  match resolve (parts_of path) (root (fs w)) with
  | None => []
  | Some current => sort_strings (map fst (children current))
  end.



(** ** Facts on the children map *)

Lemma lookup_assign_eq k v m : lookup k (assign k v m) = Some v.
Proof.
  induction m as [|[k' v'] m IH]; simpl.
  - rewrite String.eqb_refl. reflexivity.
  - destruct (String.eqb k k') eqn:E; simpl.
    + rewrite String.eqb_refl. reflexivity.
    + rewrite E. exact IH.
Qed.

Lemma lookup_assign_neq k k' v m :
  k' <> k -> lookup k' (assign k v m) = lookup k' m.
Proof.
  intros Hne. induction m as [|[k2 v2] m IH]; simpl.
  - destruct (String.eqb_spec k' k); [contradiction | reflexivity].
  - destruct (String.eqb_spec k k2) as [->|Hk]; simpl.
    + destruct (String.eqb_spec k' k2); [contradiction | reflexivity].
    + destruct (String.eqb k' k2); auto.
Qed.

Lemma assign_same k v m : lookup k m = Some v -> assign k v m = m.
Proof.
  induction m as [|[k' v'] m IH]; simpl; [discriminate|].
  destruct (String.eqb_spec k k') as [->|Hk].
  - intros [= ->]. reflexivity.
  - intros H. rewrite (IH H). reflexivity.
Qed.

Lemma assign_assign k v v' m : assign k v (assign k v' m) = assign k v m.
Proof.
  induction m as [|[k' v2] m IH]; simpl.
  - rewrite String.eqb_refl. reflexivity.
  - destruct (String.eqb k k') eqn:E; simpl.
    + rewrite String.eqb_refl. reflexivity.
    + rewrite E, IH. reflexivity.
Qed.

Lemma lookup_In k v m : lookup k m = Some v -> In k (map fst m).
Proof.
  induction m as [|[k' v'] m IH]; simpl; [discriminate|].
  destruct (String.eqb_spec k k') as [->|Hk]; auto.
Qed.

Lemma set_child_same n k c :
  lookup k (children n) = Some c -> set_child n k c = n.
Proof.
  intros H. destruct n as [nm d sz md cs]. unfold set_child. simpl in *.
  rewrite (assign_same _ _ _ H). reflexivity.
Qed.

Lemma set_child_twice n k c c' :
  set_child (set_child n k c') k c = set_child n k c.
Proof. unfold set_child. simpl. rewrite assign_assign. reflexivity. Qed.

Lemma lookup_set_child n k c :
  lookup k (children (set_child n k c)) = Some c.
Proof. apply lookup_assign_eq. Qed.

Lemma lookup_set_child_neq n k k' c :
  k' <> k -> lookup k' (children (set_child n k c)) = lookup k' (children n).
Proof. apply lookup_assign_neq. Qed.

Lemma set_child_fix n k c :
  set_child n k c = n -> lookup k (children n) = Some c.
Proof. intros H. rewrite <- H. apply lookup_set_child. Qed.

(** ** What a walk sees *)

(** The fields of a node other than its children. *)
Definition same_attrs (x y : FileNode) : Prop :=
  name y = name x /\ isDir y = isDir x /\ size y = size x
  /\ modified y = modified x.

(** Every node reached from [n] by some walk is reached from [n'] by the
    same walk, with the same fields. *)
Definition grows (n n' : FileNode) : Prop :=
  forall q x, resolve q n = Some x ->
    exists x', resolve q n' = Some x' /\ same_attrs x x'.

Lemma same_attrs_refl x : same_attrs x x.
Proof. repeat split. Qed.


Lemma same_attrs_set_child n k c : same_attrs n (set_child n k c).
Proof. repeat split. Qed.

Lemma grows_refl n : grows n n.
Proof. intros q x H. exists x. split; [exact H | apply same_attrs_refl]. Qed.


Lemma grows_attrs n n' : grows n n' -> same_attrs n n'.
Proof.
  intros H. destruct (H [] n eq_refl) as (x & Hx & Ha).
  simpl in Hx. injection Hx as <-. exact Ha.
Qed.

Lemma grows_set_child n k c c' :
  lookup k (children n) = Some c -> grows c c' -> grows n (set_child n k c').
Proof.
  intros Hk Hc q. induction q as [|p q IH]; intros x H.
  - simpl in H. injection H as <-. exists (set_child n k c').
    split; [reflexivity | apply same_attrs_set_child].
  - simpl in H |- *. destruct (String.eqb p "") eqn:Ep; simpl in H |- *.
    + exact (IH _ H).
    + destruct (String.eqb_spec p k) as [->|Hp].
      * rewrite lookup_assign_eq. rewrite Hk in H. exact (Hc _ _ H).
      * rewrite (lookup_assign_neq _ _ _ _ Hp).
        destruct (lookup p (children n)) as [c0|]; [|discriminate].
        exists x. split; [exact H | apply same_attrs_refl].
Qed.

Lemma grows_new_child n k c :
  lookup k (children n) = None -> grows n (set_child n k c).
Proof.
  intros Hk q. induction q as [|p q IH]; intros x H.
  - simpl in H. injection H as <-. exists (set_child n k c).
    split; [reflexivity | apply same_attrs_set_child].
  - simpl in H |- *. destruct (String.eqb p "") eqn:Ep; simpl in H |- *.
    + exact (IH _ H).
    + destruct (String.eqb_spec p k) as [->|Hp].
      * rewrite Hk in H. discriminate.
      * rewrite (lookup_assign_neq _ _ _ _ Hp).
        destruct (lookup p (children n)) as [c0|]; [|discriminate].
        exists x. split; [exact H | apply same_attrs_refl].
Qed.

Lemma resolve_skip part rest n :
  String.eqb part "" = true -> resolve (part :: rest) n = resolve rest n.
Proof. intros E. simpl. rewrite E. reflexivity. Qed.

Lemma resolve_step part rest n :
  String.eqb part "" = false ->
  resolve (part :: rest) n =
  match lookup part (children n) with
  | Some child => resolve rest child
  | None => None
  end.
Proof. intros E. simpl. rewrite E. reflexivity. Qed.

Lemma resolve_parts_of path n :
  resolve (parts_of path) n = resolve (Split (Trim path)) n.
Proof.
  unfold parts_of. destruct (String.eqb_spec path "/") as [->|H]; reflexivity.
Qed.

Lemma at_path_parts_of path n act :
  at_path (parts_of path) n act = at_path (Split (Trim path)) n act.
Proof.
  unfold parts_of. destruct (String.eqb_spec path "/") as [->|H]; reflexivity.
Qed.

(** ** The loop of [CreateDir] *)

Lemma mkdirAll_skip part rest n t :
  String.eqb part "" = true ->
  mkdirAll (part :: rest) n t = mkdirAll rest n t.
Proof. intros E. simpl. rewrite E. reflexivity. Qed.

Lemma mkdirAll_file part rest n t child :
  String.eqb part "" = false ->
  lookup part (children n) = Some child -> isDir child = false ->
  mkdirAll (part :: rest) n t
  = (n, Some ("file exists with name " ++ part), t).
Proof. intros E Hl Hd. simpl. rewrite E, Hl, Hd. reflexivity. Qed.

Lemma mkdirAll_dir part rest n t child :
  String.eqb part "" = false ->
  lookup part (children n) = Some child -> isDir child = true ->
  mkdirAll (part :: rest) n t
  = let '(child', err, t') := mkdirAll rest child t in
    (set_child n part child', err, t').
Proof. intros E Hl Hd. simpl. rewrite E, Hl, Hd. reflexivity. Qed.

Lemma mkdirAll_new part rest n t :
  String.eqb part "" = false ->
  lookup part (children n) = None ->
  mkdirAll (part :: rest) n t
  = let '(child', err, t') :=
      mkdirAll rest (mkFileNode part true 0 (now t) []) (S t) in
    (set_child n part child', err, t').
Proof. intros E Hl. simpl. rewrite E, Hl. reflexivity. Qed.

(** The case analysis of one round of the loop. *)
Ltac rew_all L :=
  try rewrite L; repeat match goal with H : _ |- _ => rewrite L in H end.

Ltac loop_cases part n :=
  let E := fresh "Epart" in
  let Hl := fresh "Hlook" in
  let Hd := fresh "Hdir" in
  let child := fresh "child" in
  destruct (String.eqb part "") eqn:E;
  [ rew_all uconstr:(mkdirAll_skip part _ n _ E);
    rew_all uconstr:(resolve_skip part _ _ E)
  | destruct (lookup part (children n)) as [child|] eqn:Hl;
    [ destruct (isDir child) eqn:Hd;
      [ rew_all uconstr:(mkdirAll_dir part _ n _ _ E Hl Hd)
      | rew_all uconstr:(mkdirAll_file part _ n _ _ E Hl Hd) ]
    | rew_all uconstr:(mkdirAll_new part _ n _ E Hl) ] ].

Lemma mkdirAll_attrs parts :
  forall n t, same_attrs n (fst (fst (mkdirAll parts n t))).
Proof.
  induction parts as [|part rest IH]; intros n t.
  - apply same_attrs_refl.
  - loop_cases part n.
    + apply IH.
    + destruct (mkdirAll rest child t) as [[c' e] t']. apply same_attrs_set_child.
    + apply same_attrs_refl.
    + destruct (mkdirAll rest _ (S t)) as [[c' e] t']. apply same_attrs_set_child.
Qed.



(** In a directory without children the loop meets nothing. *)
Lemma mkdirAll_fresh parts :
  forall n t, children n = [] -> snd (fst (mkdirAll parts n t)) = None.
Proof.
  induction parts as [|part rest IH]; intros n t Hn.
  - reflexivity.
  - destruct (String.eqb part "") eqn:E.
    + rewrite (mkdirAll_skip _ _ _ _ E). apply IH, Hn.
    + assert (Hl : lookup part (children n) = None) by (rewrite Hn; reflexivity).
      rewrite (mkdirAll_new _ _ _ _ E Hl).
      specialize (IH (mkFileNode part true 0 (now t) []) (S t) eq_refl).
      destruct (mkdirAll rest _ (S t)) as [[c' e] t']. exact IH.
Qed.

Lemma mkdirAll_error_unchanged parts :
  forall n t n' msg t',
    mkdirAll parts n t = (n', Some msg, t') -> n' = n /\ t' = t.
Proof.
  induction parts as [|part rest IH]; intros n t n' msg t' H.
  - discriminate.
  - loop_cases part n.
    + eapply IH; eauto.
    + destruct (mkdirAll rest child t) as [[c' e1] t1] eqn:Hr.
      injection H as <- -> <-.
      destruct (IH _ _ _ _ _ Hr) as [-> ->].
      split; [apply set_child_same; assumption | reflexivity].
    + injection H as <- _ <-. split; reflexivity.
    + pose proof (mkdirAll_fresh rest (mkFileNode part true 0 (now t) []) (S t)
                    eq_refl) as Hf.
      destruct (mkdirAll rest _ (S t)) as [[c' e1] t1] eqn:Hr.
      simpl in Hf. subst e1. discriminate.
Qed.

Lemma mkdirAll_prefixes parts :
  forall n t n' t',
    mkdirAll parts n t = (n', None, t') -> isDir n = true ->
    forall k, exists d, resolve (firstn k parts) n' = Some d /\ isDir d = true.
Proof.
  induction parts as [|part rest IH]; intros n t n' t' H Hn k.
  - injection H as <- _. rewrite firstn_nil. exists n. split; auto.
  - assert (Hn' : isDir n' = true).
    { pose proof (mkdirAll_attrs (part :: rest) n t) as (_ & A & _).
      rewrite H in A. simpl in A. congruence. }
    destruct k as [|k]; [exists n'; split; auto|].
    rewrite firstn_cons.
    loop_cases part n.
    + eapply IH; eauto.
    + destruct (mkdirAll rest child t) as [[c' e1] t1] eqn:Hr.
      injection H as <- -> <-.
      rewrite (resolve_step _ _ _ Epart), lookup_set_child.
      eapply IH; eauto.
    + discriminate.
    + destruct (mkdirAll rest _ (S t)) as [[c' e1] t1] eqn:Hr.
      injection H as <- -> <-.
      rewrite (resolve_step _ _ _ Epart), lookup_set_child.
      eapply IH; eauto.
Qed.

Lemma mkdirAll_again parts :
  forall n t n' e t',
    mkdirAll parts n t = (n', e, t') ->
    forall t2, mkdirAll parts n' t2 = (n', e, t2).
Proof.
  induction parts as [|part rest IH]; intros n t n' e t' H t2.
  - injection H as <- <- _. reflexivity.
  - destruct (String.eqb part "") eqn:E.
    + rewrite (mkdirAll_skip _ _ _ _ E) in H.
      rewrite (mkdirAll_skip _ _ _ _ E). eapply IH; eauto.
    + destruct (lookup part (children n)) as [child|] eqn:Hl.
      * destruct (isDir child) eqn:Hd.
        -- rewrite (mkdirAll_dir _ _ _ _ _ E Hl Hd) in H.
           pose proof (mkdirAll_attrs rest child t) as (_ & A & _).
           destruct (mkdirAll rest child t) as [[c' e1] t1] eqn:Hr.
           injection H as <- <- <-. simpl in A.
           rewrite (mkdirAll_dir _ _ _ _ c' E (lookup_set_child _ _ _)
                      ltac:(congruence)).
           rewrite (IH _ _ _ _ _ Hr t2), set_child_twice. reflexivity.
        -- rewrite (mkdirAll_file _ _ _ _ _ E Hl Hd) in H.
           injection H as <- <- _.
           apply (mkdirAll_file _ _ _ _ _ E Hl Hd).
      * rewrite (mkdirAll_new _ _ _ _ E Hl) in H.
        pose proof (mkdirAll_attrs rest (mkFileNode part true 0 (now t) []) (S t))
          as (_ & A & _).
        destruct (mkdirAll rest _ (S t)) as [[c' e1] t1] eqn:Hr.
        injection H as <- <- <-. simpl in A.
        rewrite (mkdirAll_dir _ _ _ _ c' E (lookup_set_child _ _ _) A).
        rewrite (IH _ _ _ _ _ Hr t2), set_child_twice. reflexivity.
Qed.

(** The loop stops with an error at the first part that names a regular
    file. *)
Lemma mkdirAll_error parts :
  forall n t n' msg t',
    mkdirAll parts n t = (n', Some msg, t') -> isDir n = true ->
    exists k part f,
      nth_error parts k = Some part
      /\ msg = "file exists with name " ++ part
      /\ resolve (firstn (S k) parts) n = Some f /\ isDir f = false
      /\ forall j g, (j <= k)%nat ->
           resolve (firstn j parts) n = Some g -> isDir g = true.
Proof.
  induction parts as [|part rest IH]; intros n t n' msg t' H Hn.
  - discriminate.
  - destruct (String.eqb part "") eqn:E.
    + rewrite (mkdirAll_skip _ _ _ _ E) in H.
      destruct (IH _ _ _ _ _ H Hn) as (k & p & f & Hk & Hm & Hf & Hd & Hmin).
      exists (S k), p, f. split; [exact Hk|]. split; [exact Hm|].
      split; [rewrite firstn_cons, (resolve_skip _ _ _ E); exact Hf|].
      split; [exact Hd|].
      intros [|j] g Hj Hg.
      * simpl in Hg. congruence.
      * rewrite firstn_cons, (resolve_skip _ _ _ E) in Hg.
        apply (Hmin j g); [lia | exact Hg].
    + destruct (lookup part (children n)) as [child|] eqn:Hl.
      * destruct (isDir child) eqn:Hd.
        -- rewrite (mkdirAll_dir _ _ _ _ _ E Hl Hd) in H.
           destruct (mkdirAll rest child t) as [[c' e1] t1] eqn:Hr.
           injection H as <- -> <-.
           destruct (IH _ _ _ _ _ Hr Hd)
             as (k & p & f & Hk & Hm & Hf & Hdf & Hmin).
           exists (S k), p, f. split; [exact Hk|]. split; [exact Hm|].
           split; [rewrite firstn_cons, (resolve_step _ _ _ E), Hl; exact Hf|].
           split; [exact Hdf|].
           intros [|j] g Hj Hg.
           ++ simpl in Hg. congruence.
           ++ rewrite firstn_cons, (resolve_step _ _ _ E), Hl in Hg.
              apply (Hmin j g); [lia | exact Hg].
        -- rewrite (mkdirAll_file _ _ _ _ _ E Hl Hd) in H.
           injection H as <- <- _.
           exists 0%nat, part, child. split; [reflexivity|].
           split; [reflexivity|].
           split; [simpl; rewrite E, Hl; reflexivity|].
           split; [exact Hd|].
           intros j g Hj Hg. assert (j = 0)%nat as -> by lia.
           simpl in Hg. congruence.
      * rewrite (mkdirAll_new _ _ _ _ E Hl) in H.
        pose proof (mkdirAll_fresh rest (mkFileNode part true 0 (now t) []) (S t)
                      eq_refl) as Hf.
        destruct (mkdirAll rest _ (S t)) as [[c' e1] t1] eqn:Hr.
        simpl in Hf. subst e1. discriminate.
Qed.

Lemma mkdirAll_blocked parts :
  forall n t k f,
    isDir n = true ->
    resolve (firstn k parts) n = Some f -> isDir f = false ->
    snd (fst (mkdirAll parts n t)) <> None.
Proof.
  induction parts as [|part rest IH]; intros n t k f Hn Hf Hd.
  - rewrite firstn_nil in Hf. simpl in Hf. congruence.
  - destruct k as [|k]; [simpl in Hf; congruence|].
    rewrite firstn_cons in Hf.
    destruct (String.eqb part "") eqn:E.
    + rewrite (mkdirAll_skip _ _ _ _ E).
      rewrite (resolve_skip _ _ _ E) in Hf. eapply IH; eauto.
    + rewrite (resolve_step _ _ _ E) in Hf.
      destruct (lookup part (children n)) as [child|] eqn:Hl; [|discriminate].
      destruct (isDir child) eqn:Hdc.
      * rewrite (mkdirAll_dir _ _ _ _ _ E Hl Hdc).
        specialize (IH child t k f Hdc Hf Hd).
        destruct (mkdirAll rest child t) as [[c' e1] t1]. exact IH.
      * rewrite (mkdirAll_file _ _ _ _ _ E Hl Hdc). simpl. discriminate.
Qed.

Lemma mkdirAll_resolves parts :
  forall n t n' t',
    mkdirAll parts n t = (n', None, t') -> resolve parts n' <> None.
Proof.
  induction parts as [|part rest IH]; intros n t n' t' H.
  - discriminate.
  - loop_cases part n.
    + eapply IH; eauto.
    + destruct (mkdirAll rest child t) as [[c' e1] t1] eqn:Hr.
      injection H as <- -> <-.
      rewrite (resolve_step _ _ _ Epart), lookup_set_child.
      eapply IH; eauto.
    + discriminate.
    + destruct (mkdirAll rest _ (S t)) as [[c' e1] t1] eqn:Hr.
      injection H as <- -> <-.
      rewrite (resolve_step _ _ _ Epart), lookup_set_child.
      eapply IH; eauto.
Qed.

(** Along a walk that exists already the loop creates nothing. *)
Lemma mkdirAll_existing parts :
  forall n t d,
    resolve parts n = Some d -> exists e, mkdirAll parts n t = (n, e, t).
Proof.
  induction parts as [|part rest IH]; intros n t d H.
  - exists None. reflexivity.
  - destruct (String.eqb part "") eqn:E.
    + rewrite (mkdirAll_skip _ _ _ _ E).
      rewrite (resolve_skip _ _ _ E) in H. eapply IH; eauto.
    + rewrite (resolve_step _ _ _ E) in H.
      destruct (lookup part (children n)) as [child|] eqn:Hl; [|discriminate].
      destruct (isDir child) eqn:Hd.
      * rewrite (mkdirAll_dir _ _ _ _ _ E Hl Hd).
        destruct (IH child t d H) as (e & ->).
        exists e. rewrite (set_child_same _ _ _ Hl). reflexivity.
      * rewrite (mkdirAll_file _ _ _ _ _ E Hl Hd). eexists. reflexivity.
Qed.

(** ** The walk of [CreateFile] *)

Lemma at_path_skip part rest n act :
  String.eqb part "" = true ->
  at_path (part :: rest) n act = at_path rest n act.
Proof. intros E. simpl. rewrite E. reflexivity. Qed.

Lemma at_path_step part rest n act :
  String.eqb part "" = false ->
  at_path (part :: rest) n act =
  match lookup part (children n) with
  | Some child =>
      match at_path rest child act with
      | Some (child', err, tick) => Some (set_child n part child', err, tick)
      | None => None
      end
  | None => None
  end.
Proof. intros E. simpl. rewrite E. reflexivity. Qed.

Lemma at_path_spec parts act :
  forall n n' e t',
    at_path parts n act = Some (n', e, t') ->
    exists d d',
      resolve parts n = Some d /\ act d = (d', e, t')
      /\ resolve parts n' = Some d'.
Proof.
  induction parts as [|part rest IH]; intros n n' e t' H.
  - simpl in H. injection H as H. exists n, n'. auto.
  - destruct (String.eqb part "") eqn:E.
    + rewrite (at_path_skip _ _ _ _ E) in H.
      rewrite !(resolve_skip _ _ _ E). eapply IH; eauto.
    + rewrite (at_path_step _ _ _ _ E) in H.
      rewrite !(resolve_step _ _ _ E).
      destruct (lookup part (children n)) as [child|] eqn:Hl; [|discriminate].
      destruct (at_path rest child act) as [[[c' e1] t1]|] eqn:Hr;
        [|discriminate].
      injection H as <- <- <-.
      rewrite lookup_set_child. eapply IH; eauto.
Qed.

Lemma at_path_none parts act :
  forall n, at_path parts n act = None <-> resolve parts n = None.
Proof.
  induction parts as [|part rest IH]; intros n.
  - simpl. split; discriminate.
  - destruct (String.eqb part "") eqn:E.
    + rewrite (at_path_skip _ _ _ _ E), (resolve_skip _ _ _ E). apply IH.
    + rewrite (at_path_step _ _ _ _ E), (resolve_step _ _ _ E).
      destruct (lookup part (children n)) as [child|] eqn:Hl;
        [|split; reflexivity].
      rewrite <- IH.
      destruct (at_path rest child act) as [[[c' e1] t1]|];
        split; auto; discriminate.
Qed.

Lemma at_path_noop parts act :
  forall n d e t,
    resolve parts n = Some d -> act d = (d, e, t) ->
    at_path parts n act = Some (n, e, t).
Proof.
  induction parts as [|part rest IH]; intros n d e t H Ha.
  - simpl in *. injection H as <-. rewrite Ha. reflexivity.
  - destruct (String.eqb part "") eqn:E.
    + rewrite (at_path_skip _ _ _ _ E).
      rewrite (resolve_skip _ _ _ E) in H. eapply IH; eauto.
    + rewrite (at_path_step _ _ _ _ E).
      rewrite (resolve_step _ _ _ E) in H.
      destruct (lookup part (children n)) as [child|] eqn:Hl; [|discriminate].
      rewrite (IH _ _ _ _ H Ha), (set_child_same _ _ _ Hl). reflexivity.
Qed.

Lemma at_path_grows parts act :
  (forall d, grows d (fst (fst (act d)))) ->
  forall n n' e t', at_path parts n act = Some (n', e, t') -> grows n n'.
Proof.
  intros Hact. induction parts as [|part rest IH]; intros n n' e t' H.
  - simpl in H. injection H as H. specialize (Hact n). rewrite H in Hact.
    exact Hact.
  - destruct (String.eqb part "") eqn:E.
    + rewrite (at_path_skip _ _ _ _ E) in H. eapply IH; eauto.
    + rewrite (at_path_step _ _ _ _ E) in H.
      destruct (lookup part (children n)) as [child|] eqn:Hl; [|discriminate].
      destruct (at_path rest child act) as [[[c' e1] t1]|] eqn:Hr;
        [|discriminate].
      injection H as <- <- <-.
      eapply grows_set_child; eauto.
Qed.

Lemma addFile_grows fileName sz t d :
  grows d (fst (fst (addFile fileName sz t d))).
Proof.
  unfold addFile.
  destruct (lookup fileName (children d)) eqn:Hl; simpl.
  - apply grows_refl.
  - apply grows_new_child. exact Hl.
Qed.

(** ** The path expressions of [CreateFile] *)

Lemma LastIndex_bounds s :
  (-1 <= LastIndex s < Z.of_nat (String.length s))%Z.
Proof.
  induction s as [|c s IH]; simpl LastIndex.
  - simpl. lia.
  - cbn [String.length]. rewrite Nat2Z.inj_succ.
    destruct (Z.leb_spec 0 (LastIndex s)); [lia|].
    destruct (Ascii.eqb c slash); lia.
Qed.

Lemma LastIndex_none s :
  LastIndex s = (-1)%Z <-> ~ In slash (list_ascii_of_string s).
Proof.
  induction s as [|c s IH]; simpl LastIndex; simpl list_ascii_of_string.
  - split; auto.
  - pose proof (LastIndex_bounds s) as Hb.
    destruct (Z.leb_spec 0 (LastIndex s)).
    + split; [lia|]. intros Hn. exfalso.
      assert (LastIndex s <> (-1)%Z) as Hne by lia.
      apply Hne, IH. intros Hin. apply Hn. right. exact Hin.
    + assert (LastIndex s = (-1)%Z) as Hl by lia.
      destruct (Ascii.eqb_spec c slash) as [->|Hc].
      * split; [lia|]. intros Hn. exfalso. apply Hn. left. reflexivity.
      * split; [|reflexivity]. intros _ [Heq|Hin]; [congruence|].
        apply IH in Hl. contradiction.
Qed.

Lemma dir_and_name_none path :
  dir_and_name path = None <-> ~ In slash (list_ascii_of_string path).
Proof.
  rewrite <- LastIndex_none. unfold dir_and_name, str_to, str_from.
  pose proof (LastIndex_bounds path) as Hb.
  destruct (Z.leb_spec 0 (LastIndex path)) as [H0|H0]; simpl.
  - destruct (Z.leb_spec (LastIndex path) (Z.of_nat (String.length path)));
      [|lia].
    destruct (Z.leb_spec 0 (LastIndex path + 1)); [|lia].
    destruct (Z.leb_spec (LastIndex path + 1) (Z.of_nat (String.length path)));
      [|lia].
    simpl. split; [discriminate | lia].
  - split; [lia | reflexivity].
Qed.

(** ** [sort.Strings] *)

Lemma sort_insert_In x y l : In y (sort_insert x l) <-> y = x \/ In y l.
Proof.
  induction l as [|z l IH]; simpl.
  - intuition.
  - destruct (String.leb x z); simpl; [intuition|].
    rewrite IH. intuition.
Qed.

Lemma sort_strings_In y l : In y (sort_strings l) <-> In y l.
Proof.
  induction l as [|x l IH]; simpl; [tauto|].
  rewrite sort_insert_In, IH. intuition.
Qed.

(** ** What [CreateFile] does once the directory is reached *)

Lemma CreateFile_unfold w path sz dirPath fileName :
  dir_and_name path = Some (dirPath, fileName) ->
  CreateFile w path sz =
  match at_path (Split (Trim dirPath)) (root (fs (fst (CreateDir w dirPath))))
          (addFile fileName sz (ticks (fst (CreateDir w dirPath)))) with
  | Some (r, err, tick) => Some (mkWorld (mkFileSystem r) tick, err)
  | None => None
  end.
Proof.
  intros Hd. unfold CreateFile. rewrite Hd.
  destruct (CreateDir w dirPath) as [w1 e1]. simpl.
  rewrite at_path_parts_of. reflexivity.
Qed.

Lemma CreateDir_existing w path d :
  resolve (Split (Trim path)) (root (fs w)) = Some d ->
  fst (CreateDir w path) = w.
Proof.
  intros H. unfold CreateDir.
  destruct (mkdirAll_existing _ _ (ticks w) _ H) as (e & ->).
  destruct w as [[r] t]. reflexivity.
Qed.

Lemma CreateFile_existing w path sz dirPath fileName d :
  dir_and_name path = Some (dirPath, fileName) ->
  resolve (parts_of dirPath) (root (fs w)) = Some d ->
  lookup fileName (children d) <> None ->
  CreateFile w path sz
  = Some (w, Some ("file already exists: " ++ fileName)).
Proof.
  intros Hd Hr Hl. rewrite resolve_parts_of in Hr.
  rewrite (CreateFile_unfold _ _ _ _ _ Hd), (CreateDir_existing _ _ _ Hr).
  rewrite (at_path_noop _ _ _ d
             (Some ("file already exists: " ++ fileName)) (ticks w) Hr).
  - destruct w as [[r] t]. reflexivity.
  - unfold addFile. destruct (lookup fileName (children d)); [reflexivity|].
    contradiction.
Qed.

Lemma CreateFile_spec w path sz w' e :
  CreateFile w path sz = Some (w', e) ->
  exists dirPath fileName d d',
    dir_and_name path = Some (dirPath, fileName)
    /\ resolve (parts_of dirPath) (root (fs (fst (CreateDir w dirPath)))) = Some d
    /\ addFile fileName sz (ticks (fst (CreateDir w dirPath))) d
       = (d', e, ticks w')
    /\ resolve (parts_of dirPath) (root (fs w')) = Some d'.
Proof.
  intros H. destruct (dir_and_name path) as [[dirPath fileName]|] eqn:Hd.
  - rewrite (CreateFile_unfold _ _ _ _ _ Hd) in H.
    destruct (at_path _ _ _) as [[[r e1] t1]|] eqn:Ha; [|discriminate].
    injection H as <- <-.
    destruct (at_path_spec _ _ _ _ _ _ Ha) as (d & d' & H1 & H2 & H3).
    exists dirPath, fileName, d, d'. rewrite !resolve_parts_of. auto.
  - unfold CreateFile in H. rewrite Hd in H. discriminate.
Qed.

Lemma resolve_leaf parts :
  forall n, children n = [] ->
    resolve parts n = Some n \/ resolve parts n = None.
Proof.
  induction parts as [|part rest IH]; intros n Hn.
  - left. reflexivity.
  - destruct (String.eqb part "") eqn:E.
    + rewrite (resolve_skip _ _ _ E). apply IH, Hn.
    + rewrite (resolve_step _ _ _ E), Hn. right. reflexivity.
Qed.

Lemma CreateDir_error_unchanged w path :
  snd (CreateDir w path) <> None -> fst (CreateDir w path) = w.
Proof.
  unfold CreateDir. destruct (mkdirAll _ _ _) as [[r e] t] eqn:Hm. simpl.
  intros He. destruct e as [msg|]; [|contradiction].
  destruct (mkdirAll_error_unchanged _ _ _ _ _ _ Hm) as [-> ->].
  destruct w as [[r0] t0]. reflexivity.
Qed.

(** ** Properties of [CreateDir], [CreateFile] and [List] *)

(** X8. When [CreateDir] returns [nil], the path and every prefix of it
    lead from the root to a directory, whatever the path is. *)
Theorem CreateDir_makes_directories (w : World) (path : string) (w' : World) :
  isDir (root (fs w)) = true ->
  CreateDir w path = (w', None) ->
  (exists d, resolve (parts_of path) (root (fs w')) = Some d
             /\ isDir d = true)
  /\ forall k, exists d,
       resolve (firstn k (Split (Trim path))) (root (fs w')) = Some d
       /\ isDir d = true.
Proof.
  intros Hroot H. unfold CreateDir in H.
  destruct (mkdirAll _ _ _) as [[r e] t] eqn:Hm.
  injection H as <- ->. simpl.
  pose proof (mkdirAll_prefixes _ _ _ _ _ Hm Hroot) as Hp.
  split; [|exact Hp].
  rewrite resolve_parts_of.
  specialize (Hp (length (Split (Trim path)))).
  rewrite firstn_all in Hp. exact Hp.
Qed.

(** X9. [CreateDir] is idempotent: a second call with the same path returns
    what the first returned and leaves the file system as the first left
    it. *)
Theorem CreateDir_idempotent (w : World) (path : string) :
  CreateDir (fst (CreateDir w path)) path = CreateDir w path.
Proof.
  unfold CreateDir.
  destruct (mkdirAll (Split (Trim path)) (root (fs w)) (ticks w))
    as [[r e] t] eqn:Hm.
  simpl. rewrite (mkdirAll_again _ _ _ _ _ _ Hm t). reflexivity.
Qed.

(** X10. [CreateDir] returns an error exactly when some prefix of the path
    leads to a regular file; the error names the first such part. *)
Theorem CreateDir_fails_iff (w : World) (path : string) :
  isDir (root (fs w)) = true ->
  (snd (CreateDir w path) <> None <->
   exists k f,
     resolve (firstn k (Split (Trim path))) (root (fs w)) = Some f
     /\ isDir f = false)
  /\ forall msg, snd (CreateDir w path) = Some msg ->
       exists k part f,
         nth_error (Split (Trim path)) k = Some part
         /\ msg = "file exists with name " ++ part
         /\ resolve (firstn (S k) (Split (Trim path))) (root (fs w)) = Some f
         /\ isDir f = false
         /\ forall j g, (j <= k)%nat ->
              resolve (firstn j (Split (Trim path))) (root (fs w)) = Some g ->
              isDir g = true.
Proof.
  intros Hroot.
  assert (Hmsg : forall msg, snd (CreateDir w path) = Some msg ->
            exists k part f,
              nth_error (Split (Trim path)) k = Some part
              /\ msg = "file exists with name " ++ part
              /\ resolve (firstn (S k) (Split (Trim path))) (root (fs w))
                 = Some f
              /\ isDir f = false
              /\ forall j g, (j <= k)%nat ->
                   resolve (firstn j (Split (Trim path))) (root (fs w))
                   = Some g -> isDir g = true).
  { intros msg H. unfold CreateDir in H.
    destruct (mkdirAll _ _ _) as [[r e] t] eqn:Hm. simpl in H. subst e.
    exact (mkdirAll_error _ _ _ _ _ _ Hm Hroot). }
  split; [|exact Hmsg]. split.
  - intros H. destruct (snd (CreateDir w path)) as [msg|] eqn:He;
      [|contradiction].
    destruct (Hmsg msg eq_refl) as (k & part & f & _ & _ & Hf & Hd & _).
    exists (S k), f. auto.
  - intros (k & f & Hf & Hd).
    pose proof (mkdirAll_blocked _ _ (ticks w) _ _ Hroot Hf Hd) as Hb.
    unfold CreateDir. destruct (mkdirAll _ _ _) as [[r e] t]. exact Hb.
Qed.

(** X11. A call of [CreateDir] that returns an error has changed nothing,
    neither the tree nor the clock: no directory is created before the
    regular file is met. *)
Theorem CreateDir_failure_changes_nothing (w : World) (path : string) :
  snd (CreateDir w path) <> None ->
  fst (CreateDir w path) = w
  /\ forall path', CreateDir (fst (CreateDir w path)) path' = CreateDir w path'.
Proof.
  intros He. rewrite (CreateDir_error_unchanged w path He). auto.
Qed.



(** X14. When [CreateFile] returns [nil], the directory part of the path
    leads to a node that holds, under the file name, a new regular file of
    the given size without children, stamped with the last time read; the
    name is among those [List] returns for the directory. *)
Theorem CreateFile_adds_file (w : World) (path : string) (sz : Z)
  (w' : World) :
  CreateFile w path sz = Some (w', None) ->
  exists dirPath fileName d,
    dir_and_name path = Some (dirPath, fileName)
    /\ resolve (parts_of dirPath) (root (fs w')) = Some d
    /\ lookup fileName (children d)
       = Some (mkFileNode fileName false sz (now (pred (ticks w'))) [])
    /\ In fileName (List w' dirPath)
    /\ ticks w' = S (ticks (fst (CreateDir w dirPath))).
Proof.
  intros H.
  destruct (CreateFile_spec _ _ _ _ _ H)
    as (dirPath & fileName & d & d' & Hd & Hr & Ha & Hr').
  exists dirPath, fileName, d'.
  unfold addFile in Ha.
  destruct (lookup fileName (children d)) eqn:Hl; [discriminate|].
  simpl in Ha. injection Ha as <- Ht.
  assert (Hlook : lookup fileName
                    (children (set_child d fileName
                       (mkFileNode fileName false sz
                          (now (ticks (fst (CreateDir w dirPath)))) [])))
                  = Some (mkFileNode fileName false sz
                            (now (pred (ticks w'))) [])).
  { rewrite lookup_set_child, <- Ht. reflexivity. }
  split; [exact Hd|]. split; [exact Hr'|]. split; [exact Hlook|].
  split; [|symmetry; exact Ht].
  unfold List. rewrite Hr'. apply sort_strings_In.
  eapply lookup_In; eauto.
Qed.

(** X15. After any call of [CreateFile] that returns, a second call with
    the same path returns the error for an existing file and leaves the
    file system as it is, whatever the size given. *)
Theorem CreateFile_twice (w : World) (path : string) (sz sz' : Z)
  (w' : World) (e : option string) :
  CreateFile w path sz = Some (w', e) ->
  exists dirPath fileName,
    dir_and_name path = Some (dirPath, fileName)
    /\ CreateFile w' path sz'
       = Some (w', Some ("file already exists: " ++ fileName)).
Proof.
  intros H.
  destruct (CreateFile_spec _ _ _ _ _ H)
    as (dirPath & fileName & d & d' & Hd & Hr & Ha & Hr').
  exists dirPath, fileName. split; [exact Hd|].
  apply (CreateFile_existing _ _ _ _ _ d' Hd Hr').
  unfold addFile in Ha.
  destruct (lookup fileName (children d)) eqn:Hl.
  - injection Ha as <- _ _. rewrite Hl. discriminate.
  - simpl in Ha. injection Ha as <- _ _.
    rewrite lookup_set_child. discriminate.
Qed.

(** X16. [CreateFile] panics in two cases only: the path has no slash, or
    [CreateDir] failed on the directory part and the walk along that part
    meets a missing name. *)
Theorem CreateFile_panics_iff (w : World) (path : string) (sz : Z) :
  CreateFile w path sz = None <->
  ~ In slash (list_ascii_of_string path)
  \/ exists dirPath fileName,
       dir_and_name path = Some (dirPath, fileName)
       /\ snd (CreateDir w dirPath) <> None
       /\ resolve (parts_of dirPath) (root (fs w)) = None.
Proof.
  destruct (dir_and_name path) as [[dirPath fileName]|] eqn:Hd.
  - assert (Hs : ~ ~ In slash (list_ascii_of_string path)).
    { intros Hn. apply dir_and_name_none in Hn. congruence. }
    rewrite (CreateFile_unfold _ _ _ _ _ Hd). split.
    + intros H. right. exists dirPath, fileName. split; [reflexivity|].
      assert (Ha : at_path (Split (Trim dirPath))
                     (root (fs (fst (CreateDir w dirPath))))
                     (addFile fileName sz (ticks (fst (CreateDir w dirPath))))
                   = None).
      { destruct (at_path _ _ _) as [[[r e1] t1]|]; [discriminate|reflexivity]. }
      apply at_path_none in Ha.
      destruct (snd (CreateDir w dirPath)) as [msg|] eqn:He.
      * split; [discriminate|].
        rewrite CreateDir_error_unchanged in Ha
          by (rewrite He; discriminate).
        rewrite resolve_parts_of. exact Ha.
      * exfalso. unfold CreateDir in He, Ha.
        destruct (mkdirAll _ _ _) as [[r e] t] eqn:Hm. simpl in He, Ha.
        subst e. exact (mkdirAll_resolves _ _ _ _ _ Hm Ha).
    + intros [Hn | (dp & fn & Heq & He & Hr)]; [contradiction|].
      injection Heq as <- <-.
      rewrite (CreateDir_error_unchanged _ _ He).
      rewrite resolve_parts_of in Hr.
      apply (at_path_none _ (addFile fileName sz (ticks w))) in Hr.
      rewrite Hr. reflexivity.
  - unfold CreateFile. rewrite Hd. split; [|reflexivity].
    intros _. left. apply dir_and_name_none. exact Hd.
Qed.

(** X17. [CreateFile] does not ask whether the node it reaches is a
    directory: when the directory part of the path leads to a regular file,
    the new file is stored among the children of that file and [nil] is
    returned, although [CreateDir] has failed on the directory part. *)
Theorem CreateFile_under_regular_file (w : World) (path : string) (sz : Z)
  (dirPath fileName : string) (f : FileNode) :
  isDir (root (fs w)) = true ->
  dir_and_name path = Some (dirPath, fileName) ->
  resolve (parts_of dirPath) (root (fs w)) = Some f ->
  isDir f = false ->
  lookup fileName (children f) = None ->
  exists w',
    CreateFile w path sz = Some (w', None)
    /\ resolve (parts_of dirPath) (root (fs w'))
       = Some (set_child f fileName
                 (mkFileNode fileName false sz (now (ticks w)) []))
    /\ snd (CreateDir w dirPath) <> None.
Proof.
  intros Hroot Hd Hr Hf Hl.
  rewrite (CreateFile_unfold _ _ _ _ _ Hd).
  rewrite resolve_parts_of in Hr.
  rewrite (CreateDir_existing _ _ _ Hr).
  destruct (at_path (Split (Trim dirPath)) (root (fs w))
              (addFile fileName sz (ticks w))) as [[[r e1] t1]|] eqn:Ha.
  - destruct (at_path_spec _ _ _ _ _ _ Ha) as (d & d' & H1 & H2 & H3).
    rewrite Hr in H1. injection H1 as <-.
    unfold addFile in H2. rewrite Hl in H2. simpl in H2.
    injection H2 as <- <- <-.
    eexists. split; [reflexivity|]. simpl.
    rewrite resolve_parts_of. split; [exact H3|].
    pose proof (mkdirAll_blocked (Split (Trim dirPath)) (root (fs w)) (ticks w)
                  (length (Split (Trim dirPath))) f Hroot) as Hb.
    rewrite firstn_all in Hb. specialize (Hb Hr Hf).
    unfold CreateDir. destruct (mkdirAll _ _ _) as [[r0 e0] t0]. exact Hb.
  - apply at_path_none in Ha. congruence.
Qed.

(** X18. A new file system lists nothing, at any path. *)
Theorem List_fresh (tick : nat) (path : string) :
  List (NewFileSystem tick) path = [].
Proof.
  unfold List, NewFileSystem. simpl.
  destruct (resolve_leaf (parts_of path) (mkFileNode "/" true 0 (now tick) [])
              eq_refl) as [-> | ->]; reflexivity.
Qed.

Lemma mkdirAll_into_fresh parts :
  forall n t n' e t',
    children n = [] -> mkdirAll parts n t = (n', e, t') ->
    exists d, resolve parts n' = Some d /\ children d = [].
Proof.
  induction parts as [|part rest IH]; intros n t n' e t' Hn H.
  - injection H as <- _ _. exists n. auto.
  - destruct (String.eqb part "") eqn:E.
    + rewrite (mkdirAll_skip _ _ _ _ E) in H.
      rewrite (resolve_skip _ _ _ E). eapply IH; eauto.
    + assert (Hl : lookup part (children n) = None) by (rewrite Hn; reflexivity).
      rewrite (mkdirAll_new _ _ _ _ E Hl) in H.
      destruct (mkdirAll rest _ (S t)) as [[c' e1] t1] eqn:Hr.
      injection H as <- _ _.
      rewrite (resolve_step _ _ _ E), lookup_set_child.
      eapply IH; [|exact Hr]. reflexivity.
Qed.

(** The loop either changes nothing or ends in a directory it has made. *)
Lemma mkdirAll_unchanged_or_fresh parts :
  forall n t n' e t',
    mkdirAll parts n t = (n', e, t') ->
    (n' = n /\ t' = t)
    \/ exists d, resolve parts n' = Some d /\ children d = [].
Proof.
  induction parts as [|part rest IH]; intros n t n' e t' H.
  - injection H as <- _ <-. left. auto.
  - destruct (String.eqb part "") eqn:E.
    + rewrite (mkdirAll_skip _ _ _ _ E) in H.
      rewrite (resolve_skip _ _ _ E). eapply IH; eauto.
    + destruct (lookup part (children n)) as [child|] eqn:Hl.
      * destruct (isDir child) eqn:Hd.
        -- rewrite (mkdirAll_dir _ _ _ _ _ E Hl Hd) in H.
           destruct (mkdirAll rest child t) as [[c' e1] t1] eqn:Hr.
           injection H as <- _ <-.
           destruct (IH _ _ _ _ _ Hr) as [[-> ->] | Hfresh].
           ++ left. split; [apply set_child_same; exact Hl | reflexivity].
           ++ right. rewrite (resolve_step _ _ _ E), lookup_set_child.
              exact Hfresh.
        -- rewrite (mkdirAll_file _ _ _ _ _ E Hl Hd) in H.
           injection H as <- _ <-. left. auto.
      * rewrite (mkdirAll_new _ _ _ _ E Hl) in H.
        destruct (mkdirAll rest _ (S t)) as [[c' e1] t1] eqn:Hr.
        injection H as <- _ _. right.
        rewrite (resolve_step _ _ _ E), lookup_set_child.
        eapply mkdirAll_into_fresh; [|exact Hr]. reflexivity.
Qed.

(** X19. A call of [CreateFile] that returns an error has changed nothing,
    not even through its call of [CreateDir]; the error is the one for an
    existing name. *)
Theorem CreateFile_failure_changes_nothing (w : World) (path : string)
  (sz : Z) (w' : World) (msg : string) :
  CreateFile w path sz = Some (w', Some msg) ->
  w' = w
  /\ exists dirPath fileName,
       dir_and_name path = Some (dirPath, fileName)
       /\ msg = "file already exists: " ++ fileName.
Proof.
  intros H.
  destruct (dir_and_name path) as [[dirPath fileName]|] eqn:Hd;
    [|unfold CreateFile in H; rewrite Hd in H; discriminate].
  rewrite (CreateFile_unfold _ _ _ _ _ Hd) in H.
  destruct (at_path _ _ _) as [[[r e1] t1]|] eqn:Ha; [|discriminate].
  injection H as <- ->.
  destruct (at_path_spec _ _ _ _ _ _ Ha) as (d & d' & H1 & H2 & H3).
  unfold addFile in H2.
  destruct (lookup fileName (children d)) as [x|] eqn:Hl; [|discriminate].
  injection H2 as <- <- <-.
  assert (Hw : fst (CreateDir w dirPath) = w).
  { unfold CreateDir in H1 |- *.
    destruct (mkdirAll _ _ _) as [[r0 e0] t0] eqn:Hm. simpl in H1 |- *.
    destruct (mkdirAll_unchanged_or_fresh _ _ _ _ _ _ Hm)
      as [[-> ->] | (d0 & Hd0 & Hc)].
    - destruct w as [[rw] tw]. reflexivity.
    - rewrite H1 in Hd0. injection Hd0 as <-. rewrite Hc in Hl. discriminate. }
  rewrite Hw in Ha.
  rewrite Hw in H1.
  rewrite (at_path_noop _ _ _ d (Some ("file already exists: " ++ fileName))
             (ticks w) H1) in Ha.
  - injection Ha as <-. split.
    + rewrite ?Hw. destruct w as [[rw] tw]. reflexivity.
    + exists dirPath, fileName. auto.
  - unfold addFile. rewrite Hl. reflexivity.
Qed.

(** ** The states the program can be in *)

(** What [NewFileSystem], [CreateDir] and [CreateFile] can make. *)
Inductive reachable : World -> Prop :=
| reach_new tick : reachable (NewFileSystem tick)
| reach_dir w path : reachable w -> reachable (fst (CreateDir w path))
| reach_file w path sz w' e :
    reachable w -> CreateFile w path sz = Some (w', e) -> reachable w'.

(** Below [node], a name is bound once, and to a node of that name. *)
Fixpoint well_named (node : FileNode) : Prop :=
  NoDup (map fst (children node))
  /\ (fix each (l : list (string * FileNode)) : Prop :=
        match l with
        | [] => True
        | (k, c) :: l' => (name c = k /\ well_named c) /\ each l'
        end) (children node).

Definition each_named (l : list (string * FileNode)) : Prop :=
  Forall (fun kc => name (snd kc) = fst kc /\ well_named (snd kc)) l.

Lemma well_named_eq node :
  well_named node
  <-> NoDup (map fst (children node)) /\ each_named (children node).
Proof.
  destruct node as [nm d sz md cs]. cbn [well_named children].
  assert (H : forall l,
             (fix each (l : list (string * FileNode)) : Prop :=
                match l with
                | [] => True
                | (k, c) :: l' => (name c = k /\ well_named c) /\ each l'
                end) l <-> each_named l).
  { induction l as [|[k c] l IH].
    - split; [constructor | auto].
    - split.
      + intros [Hc Hl]. constructor; [exact Hc | apply IH, Hl].
      + intros H. inversion H; subst. split; [assumption | apply IH; assumption]. }
  rewrite H. reflexivity.
Qed.

Lemma In_assign k v m k' :
  In k' (map fst (assign k v m)) <-> k' = k \/ In k' (map fst m).
Proof.
  induction m as [|[k2 v2] m IH]; simpl.
  - intuition.
  - destruct (String.eqb_spec k k2) as [->|Hk]; simpl.
    + intuition.
    + rewrite IH. intuition.
Qed.

Lemma NoDup_assign k v m :
  NoDup (map fst m) -> NoDup (map fst (assign k v m)).
Proof.
  induction m as [|[k2 v2] m IH]; simpl; intros H.
  - constructor; [simpl; tauto | constructor].
  - inversion H as [|x l Hx Hl]; subst.
    destruct (String.eqb_spec k k2) as [->|Hk]; simpl.
    + constructor; assumption.
    + constructor; [|apply IH; assumption].
      rewrite In_assign. intros [E|E]; [congruence | contradiction].
Qed.

Lemma each_named_assign k v m :
  each_named m -> name v = k -> well_named v -> each_named (assign k v m).
Proof.
  intros Hm Hn Hv. induction m as [|[k2 v2] m IH]; simpl.
  - constructor; [split; assumption | constructor].
  - apply Forall_cons_iff in Hm. destruct Hm as [Hx Hl].
    destruct (String.eqb_spec k k2) as [E|Hk].
    + constructor; [split; simpl; congruence | exact Hl].
    + constructor; [exact Hx | apply IH; exact Hl].
Qed.

Lemma each_named_lookup k m c :
  each_named m -> lookup k m = Some c -> name c = k /\ well_named c.
Proof.
  induction m as [|[k2 v2] m IH]; simpl; intros Hm H; [discriminate|].
  apply Forall_cons_iff in Hm. destruct Hm as [Hx Hl]. simpl in Hx.
  destruct (String.eqb_spec k k2) as [->|Hk].
  - injection H as <-. exact Hx.
  - apply IH; assumption.
Qed.

Lemma well_named_lookup n k c :
  well_named n -> lookup k (children n) = Some c ->
  name c = k /\ well_named c.
Proof.
  intros Hn. apply well_named_eq in Hn. destruct Hn as [_ He].
  apply each_named_lookup. exact He.
Qed.

Lemma well_named_set_child n k c :
  well_named n -> name c = k -> well_named c -> well_named (set_child n k c).
Proof.
  intros Hn Hk Hc. apply well_named_eq in Hn. destruct Hn as [Hd He].
  apply well_named_eq. unfold set_child. cbn [children].
  split; [apply NoDup_assign; assumption | apply each_named_assign; assumption].
Qed.

Lemma well_named_fresh nm d sz md : well_named (mkFileNode nm d sz md []).
Proof. apply well_named_eq. split; constructor. Qed.

Lemma mkdirAll_well_named parts :
  forall n t, well_named n -> well_named (fst (fst (mkdirAll parts n t))).
Proof.
  induction parts as [|part rest IH]; intros n t Hn.
  - exact Hn.
  - destruct (String.eqb part "") eqn:E.
    + rewrite (mkdirAll_skip _ _ _ _ E). apply IH, Hn.
    + destruct (lookup part (children n)) as [child|] eqn:Hl.
      * destruct (well_named_lookup _ _ _ Hn Hl) as [Hname Hchild].
        destruct (isDir child) eqn:Hd.
        -- rewrite (mkdirAll_dir _ _ _ _ _ E Hl Hd).
           pose proof (mkdirAll_attrs rest child t) as (A & _).
           specialize (IH child t Hchild).
           destruct (mkdirAll rest child t) as [[c' e] t']. simpl in *.
           apply well_named_set_child; [exact Hn | congruence | exact IH].
        -- rewrite (mkdirAll_file _ _ _ _ _ E Hl Hd). exact Hn.
      * rewrite (mkdirAll_new _ _ _ _ E Hl).
        pose proof (mkdirAll_attrs rest (mkFileNode part true 0 (now t) [])
                      (S t)) as (A & _).
        specialize (IH (mkFileNode part true 0 (now t) []) (S t)
                      (well_named_fresh _ _ _ _)).
        destruct (mkdirAll rest _ (S t)) as [[c' e] t']. simpl in *.
        apply well_named_set_child; [exact Hn | exact A | exact IH].
Qed.

Lemma at_path_well_named parts act :
  (forall d, well_named d ->
             well_named (fst (fst (act d)))
             /\ name (fst (fst (act d))) = name d) ->
  forall n n' e t',
    well_named n -> at_path parts n act = Some (n', e, t') ->
    well_named n' /\ name n' = name n.
Proof.
  intros Hact. induction parts as [|part rest IH]; intros n n' e t' Hn H.
  - simpl in H. injection H as H. specialize (Hact n Hn). rewrite H in Hact.
    exact Hact.
  - destruct (String.eqb part "") eqn:E.
    + rewrite (at_path_skip _ _ _ _ E) in H. eapply IH; eauto.
    + rewrite (at_path_step _ _ _ _ E) in H.
      destruct (lookup part (children n)) as [child|] eqn:Hl; [|discriminate].
      destruct (at_path rest child act) as [[[c' e1] t1]|] eqn:Hr;
        [|discriminate].
      injection H as <- <- <-.
      destruct (well_named_lookup _ _ _ Hn Hl) as [Hname Hchild].
      destruct (IH _ _ _ _ Hchild Hr) as [Hc' Hn'].
      split; [|reflexivity].
      apply well_named_set_child; [exact Hn | congruence | exact Hc'].
Qed.

Lemma addFile_well_named fileName sz t d :
  well_named d ->
  well_named (fst (fst (addFile fileName sz t d)))
  /\ name (fst (fst (addFile fileName sz t d))) = name d.
Proof.
  intros Hd. unfold addFile.
  destruct (lookup fileName (children d)); simpl; [auto|].
  split; [|reflexivity].
  apply well_named_set_child; [exact Hd | reflexivity | apply well_named_fresh].
Qed.

Lemma resolve_well_named parts :
  forall n d, well_named n -> resolve parts n = Some d -> well_named d.
Proof.
  induction parts as [|part rest IH]; intros n d Hn H.
  - simpl in H. injection H as <-. exact Hn.
  - destruct (String.eqb part "") eqn:E.
    + rewrite (resolve_skip _ _ _ E) in H. eapply IH; eauto.
    + rewrite (resolve_step _ _ _ E) in H.
      destruct (lookup part (children n)) as [child|] eqn:Hl; [|discriminate].
      destruct (well_named_lookup _ _ _ Hn Hl) as [_ Hchild].
      eapply IH; eauto.
Qed.

Lemma reachable_root w :
  reachable w ->
  well_named (root (fs w)) /\ isDir (root (fs w)) = true
  /\ name (root (fs w)) = "/".
Proof.
  induction 1 as [tick | w path Hw IH | w path sz w' e Hw IH Hc].
  - split; [apply well_named_fresh | split; reflexivity].
  - destruct IH as (Hwn & Hd & Hname). unfold CreateDir.
    pose proof (mkdirAll_well_named (Split (Trim path)) _ (ticks w) Hwn) as W.
    pose proof (mkdirAll_attrs (Split (Trim path)) (root (fs w)) (ticks w))
      as (A1 & A2 & _).
    destruct (mkdirAll _ _ _) as [[r e] t]. simpl in *.
    split; [exact W | split; congruence].
  - destruct IH as (Hwn & Hd & Hname).
    destruct (dir_and_name path) as [[dirPath fileName]|] eqn:Hdn;
      [|unfold CreateFile in Hc; rewrite Hdn in Hc; discriminate].
    rewrite (CreateFile_unfold _ _ _ _ _ Hdn) in Hc.
    destruct (at_path _ _ _) as [[[r e1] t1]|] eqn:Ha; [|discriminate].
    injection Hc as <- <-. simpl.
    assert (H1 : well_named (root (fs (fst (CreateDir w dirPath))))
                 /\ isDir (root (fs (fst (CreateDir w dirPath)))) = true
                 /\ name (root (fs (fst (CreateDir w dirPath)))) = "/").
    { unfold CreateDir.
      pose proof (mkdirAll_well_named (Split (Trim dirPath)) _ (ticks w) Hwn)
        as W.
      pose proof (mkdirAll_attrs (Split (Trim dirPath)) (root (fs w))
                    (ticks w)) as (A1 & A2 & _).
      destruct (mkdirAll _ _ _) as [[r0 e0] t0]. simpl in *.
      split; [exact W | split; congruence]. }
    destruct H1 as (W1 & D1 & N1).
    destruct (at_path_well_named _ _
                (fun d Hd => addFile_well_named fileName sz _ d Hd)
                _ _ _ _ W1 Ha) as [W2 N2].
    pose proof (at_path_grows _ _
                  (fun d => addFile_grows fileName sz _ d) _ _ _ _ Ha) as G.
    apply grows_attrs in G. destruct G as (_ & G2 & _).
    split; [exact W2 | split; congruence].
Qed.

(** *** [sort.Strings] on names that differ *)

Definition before (a b : string) : Prop := String.ltb a b = true.

Lemma leb_neq_ltb a b : String.leb a b = true -> a <> b -> before a b.
Proof.
  unfold before, String.leb, String.ltb. intros H Hne.
  destruct (String.compare a b) eqn:E; try reflexivity; try discriminate.
  apply String.compare_eq_iff in E. contradiction.
Qed.

Lemma sort_insert_sorted x l :
  Sorted (fun a b => String.leb a b = true) l ->
  Sorted (fun a b => String.leb a b = true) (sort_insert x l).
Proof.
  induction 1 as [|y l Hl IH Hy]; simpl.
  - repeat constructor.
  - destruct (String.leb x y) eqn:E.
    + constructor; [constructor; assumption | constructor; exact E].
    + constructor; [exact IH|].
      assert (Hyx : String.leb y x = true).
      { destruct (String.leb_total x y); congruence. }
      destruct l as [|z l]; simpl.
      * constructor. exact Hyx.
      * destruct (String.leb x z); constructor; [exact Hyx|].
        inversion Hy; assumption.
Qed.

Lemma sort_strings_sorted l :
  Sorted (fun a b => String.leb a b = true) (sort_strings l).
Proof.
  induction l as [|x l IH]; simpl; [constructor|].
  apply sort_insert_sorted. exact IH.
Qed.

Lemma sort_insert_perm x l : Permutation (sort_insert x l) (x :: l).
Proof.
  induction l as [|y l IH]; simpl; [reflexivity|].
  destruct (String.leb x y); [reflexivity|].
  rewrite IH. apply perm_swap.
Qed.

Lemma sort_strings_perm l : Permutation (sort_strings l) l.
Proof.
  induction l as [|x l IH]; simpl; [reflexivity|].
  rewrite sort_insert_perm, IH. reflexivity.
Qed.

Lemma sorted_strict l :
  Sorted (fun a b => String.leb a b = true) l -> NoDup l -> Sorted before l.
Proof.
  induction 1 as [|x l Hl IH Hx]; intros Hnd; [constructor|].
  inversion Hnd as [|y l' Hnotin Hnd']; subst.
  constructor; [apply IH; exact Hnd'|].
  destruct l as [|z l]; constructor.
  inversion Hx; subst. apply leb_neq_ltb; [assumption|].
  intros ->. apply Hnotin. left. reflexivity.
Qed.

(** X29. In every state that [NewFileSystem], [CreateDir] and [CreateFile]
    can make, the root is the directory ["/"], every node is stored under
    its own name, and [List] returns, for every path, names in strictly
    ascending order: the names of the children of the node the path leads
    to, each once. *)
Theorem List_strictly_sorted (w : World) (path : string) :
  reachable w ->
  isDir (root (fs w)) = true /\ name (root (fs w)) = "/"
  /\ Sorted before (List w path)
  /\ forall d, resolve (parts_of path) (root (fs w)) = Some d ->
       forall k, In k (List w path)
                 <-> exists c, lookup k (children d) = Some c /\ name c = k.
Proof.
  intros Hw. destruct (reachable_root w Hw) as (Hwn & Hd & Hname).
  split; [exact Hd|]. split; [exact Hname|].
  unfold List. destruct (resolve (parts_of path) (root (fs w))) as [d|] eqn:Hr.
  - pose proof (resolve_well_named _ _ _ Hwn Hr) as Hdw.
    pose proof Hdw as Hdw'. apply well_named_eq in Hdw'.
    destruct Hdw' as [Hnd He].
    split.
    + apply sorted_strict; [apply sort_strings_sorted|].
      eapply Permutation_NoDup; [|exact Hnd].
      apply Permutation_sym, sort_strings_perm.
    + intros d' [= <-] k. rewrite sort_strings_In. split.
      * intros Hin.
        assert (Hl : lookup k (children d) <> None).
        { clear - Hin. induction (children d) as [|[k2 v2] m IH];
            simpl in *; [contradiction|].
          destruct (String.eqb_spec k k2); [discriminate|].
          apply IH. destruct Hin; [congruence | assumption]. }
        destruct (lookup k (children d)) as [c|] eqn:Hc; [|congruence].
        exists c. split; [reflexivity|].
        exact (proj1 (well_named_lookup _ _ _ Hdw Hc)).
      * intros (c & Hc & _). eapply lookup_In; eauto.
  - split; [constructor|]. discriminate.
Qed.

End Clock.

(** ** Sample states *)

Definition clock (k : nat) : Z := Z.of_nat k.

(** The file system after [CreateDir("/home/user")]. *)
Definition sample_dirs : World :=
  mkWorld
    (mkFileSystem
       (mkFileNode "/" true 0 0
          [("home", mkFileNode "home" true 0 1
                      [("user", mkFileNode "user" true 0 2 [])])]))
    3.

(** The same after [CreateFile("/home/user/notes", 12)]. *)
Definition sample_file : World :=
  mkWorld
    (mkFileSystem
       (mkFileNode "/" true 0 0
          [("home", mkFileNode "home" true 0 1
                      [("user", mkFileNode "user" true 0 2
                                  [("notes", mkFileNode "notes" false 12 3 [])])])]))
    4.

Lemma CreateDir_makes_directories_witness :
  (exists d, resolve (parts_of "/home/user") (root (fs sample_dirs)) = Some d
             /\ isDir d = true)
  /\ forall k, exists d,
       resolve (firstn k (Split (Trim "/home/user"))) (root (fs sample_dirs))
       = Some d
       /\ isDir d = true.
Proof.
  apply (CreateDir_makes_directories clock (NewFileSystem clock 0)
           "/home/user" sample_dirs); reflexivity.
Defined.

Lemma CreateDir_fails_iff_witness :
  (snd (CreateDir clock sample_file "/home/user/notes/x") <> None <->
   exists k f,
     resolve (firstn k (Split (Trim "/home/user/notes/x")))
       (root (fs sample_file)) = Some f
     /\ isDir f = false)
  /\ forall msg, snd (CreateDir clock sample_file "/home/user/notes/x")
                 = Some msg ->
       exists k part f,
         nth_error (Split (Trim "/home/user/notes/x")) k = Some part
         /\ msg = "file exists with name " ++ part
         /\ resolve (firstn (S k) (Split (Trim "/home/user/notes/x")))
              (root (fs sample_file)) = Some f
         /\ isDir f = false
         /\ forall j g, (j <= k)%nat ->
              resolve (firstn j (Split (Trim "/home/user/notes/x")))
                (root (fs sample_file)) = Some g ->
              isDir g = true.
Proof.
  apply (CreateDir_fails_iff clock sample_file "/home/user/notes/x").
  reflexivity.
Defined.

Lemma CreateDir_failure_changes_nothing_witness :
  fst (CreateDir clock sample_file "/home/user/notes/x") = sample_file
  /\ forall path',
       CreateDir clock (fst (CreateDir clock sample_file "/home/user/notes/x"))
         path'
       = CreateDir clock sample_file path'.
Proof.
  apply (CreateDir_failure_changes_nothing clock sample_file
           "/home/user/notes/x").
  vm_compute. discriminate.
Defined.



Lemma CreateFile_adds_file_witness :
  exists dirPath fileName d,
    dir_and_name "/home/user/notes" = Some (dirPath, fileName)
    /\ resolve (parts_of dirPath) (root (fs sample_file)) = Some d
    /\ lookup fileName (children d)
       = Some (mkFileNode fileName false 12 (clock (pred (ticks sample_file)))
                 [])
    /\ In fileName (List sample_file dirPath)
    /\ ticks sample_file = S (ticks (fst (CreateDir clock sample_dirs dirPath))).
Proof.
  apply (CreateFile_adds_file clock sample_dirs "/home/user/notes" 12
           sample_file).
  reflexivity.
Defined.

Lemma CreateFile_twice_witness :
  exists dirPath fileName,
    dir_and_name "/home/user/notes" = Some (dirPath, fileName)
    /\ CreateFile clock sample_file "/home/user/notes" 99
       = Some (sample_file, Some ("file already exists: " ++ fileName)).
Proof.
  apply (CreateFile_twice clock sample_dirs "/home/user/notes" 12 99
           sample_file None).
  reflexivity.
Defined.

Lemma CreateFile_under_regular_file_witness :
  exists w',
    CreateFile clock sample_file "/home/user/notes/inner" 7 = Some (w', None)
    /\ resolve (parts_of "/home/user/notes") (root (fs w'))
       = Some (set_child (mkFileNode "notes" false 12 3 []) "inner"
                 (mkFileNode "inner" false 7 (clock (ticks sample_file)) []))
    /\ snd (CreateDir clock sample_file "/home/user/notes") <> None.
Proof.
  apply (CreateFile_under_regular_file clock sample_file
           "/home/user/notes/inner" 7 "/home/user/notes" "inner"
           (mkFileNode "notes" false 12 3 []));
    reflexivity.
Defined.

Lemma CreateFile_failure_changes_nothing_witness :
  sample_file = sample_file
  /\ exists dirPath fileName,
       dir_and_name "/home/user/notes" = Some (dirPath, fileName)
       /\ "file already exists: notes" = "file already exists: " ++ fileName.
Proof.
  apply (CreateFile_failure_changes_nothing clock sample_file
           "/home/user/notes" 99 sample_file "file already exists: notes").
  reflexivity.
Defined.

Lemma List_strictly_sorted_witness :
  isDir (root (fs sample_file)) = true /\ name (root (fs sample_file)) = "/"
  /\ Sorted before (List sample_file "/home/user")
  /\ forall d,
       resolve (parts_of "/home/user") (root (fs sample_file)) = Some d ->
       forall k, In k (List sample_file "/home/user")
                 <-> exists c, lookup k (children d) = Some c /\ name c = k.
Proof.
  apply (List_strictly_sorted clock sample_file "/home/user").
  apply (reach_file clock sample_dirs "/home/user/notes" 12 sample_file None);
    [|reflexivity].
  apply (reach_dir clock (NewFileSystem clock 0) "/home/user").
  apply reach_new.
Defined.


End Files.

(** * Shortest paths: [dijkstra] of the same sources

    [dijkstra] keeps its queue in a [PriorityQueue], a slice of items with
    the methods [Len], [Less], [Swap], [Push] and [Pop], through the
    standard library's [container/heap].  The library is not part of the
    sources.  [dijkstra] is therefore modelled over any [heap.Init],
    [heap.Push] and [heap.Pop], and proved from the library's contract: that
    [Pop] removes and returns an item that is least by [Less], that is, of
    least [distance].  The library's algorithm is rendered afterwards, over
    the methods of the sources, and shown to keep that contract.

    The maps [dist] and [visited] are rendered by functions on the keys; the
    graph, whose keys the code iterates over, by the list of its entries.
    The loop runs once for each item pushed, and an item is pushed at most
    once for each edge, so the model runs it with that much fuel; that the
    fuel suffices is proved. *)

Module Routes.

Open Scope Z_scope.

Record Edge : Type := mkEdge { to : string; weight : Z }.

Record Item : Type := mkItem { node : string; distance : Z }.

Definition PriorityQueue : Type := list Item.

Definition Graph : Type := list (string * list Edge).

Definition Dist : Type := string -> option Z.

Definition Visited : Type := string -> bool.

(** [pq.Len()] *)
Definition Len (pq : PriorityQueue) : Z := Go.len pq.

(** [pq.Less(i, j)]: panics when an index is out of range. *)
Definition Less (pq : PriorityQueue) (i j : Z) : option bool :=
  match Go.index pq i, Go.index pq j with
  | Some x, Some y => Some (distance x <? distance y)
  | _, _ => None
  end.

(** [pq.Swap(i, j)] *)
Definition Swap (pq : PriorityQueue) (i j : Z) : option PriorityQueue :=
  match Go.index pq i, Go.index pq j with
  | Some x, Some y =>
      match Go.store pq i y with
      | Some pq1 => Go.store pq1 j x
      | None => None
      end
  | _, _ => None
  end.

(** [pq.Push(x)] *)
Definition Push (pq : PriorityQueue) (x : Item) : PriorityQueue :=
  Go.append pq x.

(** [pq.Pop()]: the last item and the slice without it. *)
Definition Pop (pq : PriorityQueue) : option (Item * PriorityQueue) :=
  let n := Go.len pq in
  match Go.index pq (n - 1), Go.slice_to pq (n - 1) with
  | Some item, Some rest => Some (item, rest)
  | _, _ => None
  end.

(** [graph[k]]: the nil slice for a missing key. *)
Fixpoint edges_of (graph : Graph) (k : string) : list Edge :=
  match graph with
  | [] => []
  | (k', es) :: graph' => if String.eqb k k' then es else edges_of graph' k
  end.

(** [dist[k]] as an expression: zero for a missing key. *)
Definition read (dist : Dist) (k : string) : Z :=
  match dist k with
  | Some d => d
  | None => 0
  end.

(** [dist[k] = d] *)
Definition write (dist : Dist) (k : string) (d : Z) : Dist :=
  fun k' => if String.eqb k' k then Some d else dist k'.

(** [visited[k] = true] *)
Definition mark (visited : Visited) (k : string) : Visited :=
  fun k' => if String.eqb k' k then true else visited k'.

(** [1 << 30] *)
Definition infinity : Z := Z.shiftl 1 30.

(** The first loop of [dijkstra]. *)
Fixpoint init_dist (graph : Graph) : Dist :=
  match graph with
  | [] => fun _ => None
  | (k, _) :: graph' => write (init_dist graph') k infinity
  end.

Fixpoint total_edges (graph : Graph) : nat :=
  match graph with
  | [] => 0
  | (_, es) :: graph' => length es + total_edges graph'
  end.

(** How a run ends: with a result, in a panic, or with the fuel used up. *)
Inductive outcome (A : Type) : Type :=
| Done (a : A)
| Panic
| Unfinished.

Arguments Done {A} a.
Arguments Panic {A}.
Arguments Unfinished {A}.

Section Contract.

(** [heap.Init], [heap.Push] and [heap.Pop] on a [PriorityQueue]; [None]
    is a panic. *)
Variable heap_Init : PriorityQueue -> option PriorityQueue.
Variable heap_Push : PriorityQueue -> Item -> option PriorityQueue.
Variable heap_Pop : PriorityQueue -> option (Item * PriorityQueue).

(** The loop over the edges of [u]. *)
Fixpoint relax_all (u : string) (es : list Edge) (dist : Dist)
  (pq : PriorityQueue) : option (Dist * PriorityQueue) :=
  match es with
  | [] => Some (dist, pq)
  | edge :: es' =>
      let newDist := Go.add (read dist u) (weight edge) in
      if newDist <? read dist (to edge) then
        match heap_Push pq (mkItem (to edge) newDist) with
        | Some pq' => relax_all u es' (write dist (to edge) newDist) pq'
        | None => None
        end
      else relax_all u es' dist pq
  end.

(** The loop [for pq.Len() > 0]. *)
Fixpoint loop (fuel : nat) (graph : Graph) (dist : Dist) (visited : Visited)
  (pq : PriorityQueue) : outcome Dist :=
  if Len pq >? 0 then
    match fuel with
    | O => Unfinished
    | S fuel' =>
        match heap_Pop pq with
        | None => Panic
        | Some (current, pq') =>
            if visited (node current) then loop fuel' graph dist visited pq'
            else
              match relax_all (node current) (edges_of graph (node current))
                      dist pq' with
              | None => Panic
              | Some (dist', pq'') =>
                  loop fuel' graph dist' (mark visited (node current)) pq''
              end
        end
    end
  else Done dist.

Definition dijkstra (graph : Graph) (start : string) : outcome Dist :=
  let dist := write (init_dist graph) start 0 in
  match heap_Init [] with
  | None => Panic
  | Some pq =>
      match heap_Push pq (mkItem start 0) with
      | None => Panic
      | Some pq => loop (S (total_edges graph)) graph dist (fun _ => false) pq
      end
  end.

(** ** The contract of [container/heap] *)

(** What the library keeps true of the slice between its calls. *)
Variable heap_ok : PriorityQueue -> Prop.

Hypothesis Init_ok : heap_Init [] = Some [] /\ heap_ok [].

Hypothesis Push_ok :
  forall pq x, heap_ok pq ->
    exists pq', heap_Push pq x = Some pq' /\ heap_ok pq'
                /\ Permutation pq' (x :: pq).

Hypothesis Pop_ok :
  forall pq, heap_ok pq -> pq <> [] ->
    exists x pq', heap_Pop pq = Some (x, pq') /\ heap_ok pq'
                  /\ Permutation pq (x :: pq')
                  /\ Forall (fun y => distance x <= distance y) pq'.

(** ** Termination *)

(** The edges that can still be relaxed. *)
Fixpoint potential (graph : Graph) (visited : Visited) : nat :=
  match graph with
  | [] => 0
  | (k, es) :: graph' =>
      ((if visited k then 0 else length es) + potential graph' visited)%nat
  end.

Lemma potential_mark_le graph visited c :
  (potential graph (mark visited c) <= potential graph visited)%nat.
Proof.
  induction graph as [|[k es] g IH]; simpl; [lia|].
  unfold mark at 1. destruct (String.eqb k c); destruct (visited k); lia.
Qed.

Lemma potential_mark graph visited c :
  visited c = false ->
  (potential graph (mark visited c) + length (edges_of graph c)
   <= potential graph visited)%nat.
Proof.
  intros Hc. induction graph as [|[k es] g IH]; simpl; [lia|].
  unfold mark at 1. rewrite String.eqb_sym.
  destruct (String.eqb_spec c k) as [<-|Hk].
  - rewrite Hc. pose proof (potential_mark_le g visited c). lia.
  - destruct (visited k); lia.
Qed.

Lemma potential_total graph :
  potential graph (fun _ => false) = total_edges graph.
Proof. induction graph as [|[k es] g IH]; simpl; congruence. Qed.

Lemma relax_all_returns u es :
  forall dist pq, heap_ok pq ->
    exists dist' pq',
      relax_all u es dist pq = Some (dist', pq') /\ heap_ok pq'
      /\ (length pq' <= length pq + length es)%nat.
Proof.
  induction es as [|e es IH]; intros dist pq Hok; simpl.
  - exists dist, pq. split; [reflexivity|]. split; [exact Hok | lia].
  - destruct (_ <? _).
    + destruct (Push_ok pq (mkItem (to e) (Go.add (read dist u) (weight e)))
                  Hok) as (pq1 & -> & Hok1 & Hp).
      destruct (IH (write dist (to e) (Go.add (read dist u) (weight e))) pq1
                  Hok1) as (dist' & pq' & Hr & Hok' & Hlen).
      exists dist', pq'. split; [exact Hr|]. split; [exact Hok'|].
      apply Permutation_length in Hp. simpl in Hp. lia.
    + destruct (IH dist pq Hok) as (dist' & pq' & Hr & Hok' & Hlen).
      exists dist', pq'. split; [exact Hr|]. split; [exact Hok'|]. lia.
Qed.

Lemma loop_returns graph :
  forall fuel dist visited pq,
    heap_ok pq ->
    (length pq + potential graph visited <= fuel)%nat ->
    exists d, loop fuel graph dist visited pq = Done d.
Proof.
  induction fuel as [|fuel IH]; intros dist visited pq Hok Hfuel.
  - destruct pq as [|x pq]; [|simpl in Hfuel; lia].
    exists dist. reflexivity.
  - cbn [loop]. unfold Len, Go.len.
    destruct (Z.gtb_spec (Z.of_nat (length pq)) 0) as [Hlen|Hlen];
      [|exists dist; reflexivity].
    assert (Hne : pq <> []) by (intros ->; simpl in Hlen; lia).
    destruct (Pop_ok pq Hok Hne) as (x & pq' & -> & Hok' & Hp & _).
    apply Permutation_length in Hp. simpl in Hp.
    destruct (visited (node x)) eqn:Hv.
    + apply IH; [exact Hok' | lia].
    + destruct (relax_all_returns (node x) (edges_of graph (node x)) dist pq'
                  Hok') as (dist' & pq'' & -> & Hok'' & Hlen').
      apply IH; [exact Hok''|].
      pose proof (potential_mark graph visited (node x) Hv). lia.
Qed.

(** ** Correctness for weights that are not negative *)

Lemma write_eq dist k d : write dist k d k = Some d.
Proof. unfold write. rewrite String.eqb_refl. reflexivity. Qed.

Lemma write_neq dist k d k' : k' <> k -> write dist k d k' = dist k'.
Proof.
  intros H. unfold write. destruct (String.eqb_spec k' k); [contradiction|].
  reflexivity.
Qed.

Lemma read_write_neq dist k d k' :
  k' <> k -> read (write dist k d) k' = read dist k'.
Proof. intros H. unfold read. rewrite (write_neq _ _ _ _ H). reflexivity. Qed.

Lemma edges_of_key graph u e :
  In e (edges_of graph u) -> In u (map fst graph).
Proof.
  induction graph as [|[k es] g IH]; simpl; [tauto|].
  destruct (String.eqb_spec u k) as [->|Hk]; auto.
Qed.

Lemma edges_of_entry graph u e :
  In e (edges_of graph u) -> exists es, In (u, es) graph /\ In e es.
Proof.
  induction graph as [|[k es] g IH]; simpl; [tauto|].
  destruct (String.eqb_spec u k) as [->|Hk].
  - intros H. exists es. auto.
  - intros H. destruct (IH H) as (es' & H1 & H2). exists es'. auto.
Qed.

Lemma init_dist_spec graph v :
  (In v (map fst graph) -> init_dist graph v = Some infinity)
  /\ (~ In v (map fst graph) -> init_dist graph v = None).
Proof.
  induction graph as [|[k es] g [IH1 IH2]]; simpl.
  - split; [tauto | reflexivity].
  - unfold write. destruct (String.eqb_spec v k) as [->|Hk].
    + split; [reflexivity | tauto].
    + split; intros H.
      * apply IH1. destruct H; [congruence | assumption].
      * apply IH2. tauto.
Qed.

(** The largest weight for which [dist[u] + weight] cannot overflow. *)
Definition max_weight : Z := Go.int_max - infinity.

Definition weights_ok (graph : Graph) : Prop :=
  Forall (fun kes => Forall (fun e => 0 <= weight e <= max_weight) (snd kes))
    graph.

Section Correct.

Variable graph : Graph.
Variable start : string.

Hypothesis Hweights : weights_ok graph.

(** [path v W]: edges of the graph lead from [start] to [v], and their
    weights add up to [W]. *)
Inductive path : string -> Z -> Prop :=
| path_start : path start 0
| path_step u v w W :
    path u W -> In (mkEdge v w) (edges_of graph u) -> path v (W + w).

Lemma edge_weight u e :
  In e (edges_of graph u) -> 0 <= weight e <= max_weight.
Proof.
  intros H. destruct (edges_of_entry _ _ _ H) as (es & H1 & H2).
  unfold weights_ok in Hweights. rewrite Forall_forall in Hweights.
  specialize (Hweights _ H1). rewrite Forall_forall in Hweights.
  exact (Hweights _ H2).
Qed.

Lemma path_nonneg v W : path v W -> 0 <= W.
Proof.
  induction 1 as [|u v w W Hp IH He]; [lia|].
  pose proof (edge_weight _ _ He) as Hw. simpl in Hw. lia.
Qed.

(** The loop invariant.  [c] is the node whose edges are being relaxed,
    [todo] those of its edges still to come, [B] the distance of the last
    item that was not skipped. *)
Record Inv (c : string) (todo : list Edge) (B : Z) (dist : Dist)
  (visited : Visited) (pq : PriorityQueue) : Prop := mkInv {
  inv_dom : forall v, dist v <> None <-> v = start \/ In v (map fst graph);
  inv_range : forall v d, dist v = Some d -> 0 <= d <= infinity;
  inv_start : dist start = Some 0;
  inv_sound : forall v d, dist v = Some d -> d < infinity -> path v d;
  inv_items : forall it, In it pq ->
    distance it < infinity
    /\ exists d, dist (node it) = Some d /\ d <= distance it;
  inv_frontier : forall v d,
    dist v = Some d -> d < infinity -> visited v = false ->
    In (mkItem v d) pq;
  inv_settled : forall u e,
    visited u = true -> In e (edges_of graph u) ->
    (u = c /\ In e todo)
    \/ forall dv, dist (to e) = Some dv -> dv <= read dist u + weight e;
  inv_visited : forall u, visited u = true ->
    exists du, dist u = Some du /\ du <= B;
  inv_bound : forall it, In it pq -> B <= distance it
}.

Lemma Inv_any_node c c' B dist visited pq :
  Inv c [] B dist visited pq -> Inv c' [] B dist visited pq.
Proof.
  intros [H1 H2 H3 H4 H5 H6 H7 H8 H9]. constructor; auto.
  intros u e Hu He. destruct (H7 u e Hu He) as [[_ []]|H]. right. exact H.
Qed.

Lemma infinity_value : infinity = 1073741824.
Proof. reflexivity. Qed.

Lemma add_exact d w :
  0 <= d <= infinity -> 0 <= w <= max_weight -> Go.add d w = d + w.
Proof.
  intros Hd Hw. unfold Go.add. apply wrap_small.
  unfold max_weight in Hw. rewrite infinity_value in *.
  unfold Go.int_min, Go.int_max in *.
  change (2 ^ 63) with 9223372036854775808 in *. lia.
Qed.

(** One round of the loop over the edges, where nothing is written. *)
Lemma relax_keep c e todo B dist visited pq :
  Inv c (e :: todo) B dist visited pq ->
  read dist (to e) <= read dist c + weight e ->
  Inv c todo B dist visited pq.
Proof.
  intros [H1 H2 H3 H4 H5 H6 H7 H8 H9] Hno. constructor; auto.
  intros u e' Hu He'. destruct (H7 u e' Hu He') as [[-> [<-|Hin]]|H]; auto.
  right. intros dv Hdv. unfold read at 1 in Hno. rewrite Hdv in Hno. exact Hno.
Qed.

(** One round of the loop over the edges, where [dist] is written and an
    item pushed. *)
Lemma relax_write c e todo B dist visited pq pq' :
  Inv c (e :: todo) B dist visited pq ->
  visited c = true -> read dist c = B ->
  In e (edges_of graph c) ->
  read dist c + weight e < read dist (to e) ->
  Permutation pq' (mkItem (to e) (read dist c + weight e) :: pq) ->
  Inv c todo B (write dist (to e) (read dist c + weight e)) visited pq'
  /\ read (write dist (to e) (read dist c + weight e)) c = B.
Proof.
  intros [H1 H2 H3 H4 H5 H6 H7 H8 H9] Hc HB He Hlt Hp.
  destruct e as [v w]. simpl in *.
  pose proof (edge_weight _ _ He) as Hw. simpl in Hw.
  destruct (H8 c Hc) as (dc & Hdc & HdcB).
  assert (Hrc : read dist c = dc) by (unfold read; rewrite Hdc; reflexivity).
  pose proof (H2 _ _ Hdc) as Hrange.
  rewrite Hrc in HB. subst B. clear HdcB.
  rewrite Hrc in *.
  destruct (dist v) as [dv|] eqn:Hdv;
    [|unfold read in Hlt; rewrite Hdv in Hlt; lia].
  assert (Hrv : read dist v = dv) by (unfold read; rewrite Hdv; reflexivity).
  rewrite Hrv in Hlt.
  pose proof (H2 _ _ Hdv) as Hrv2.
  assert (Hv : visited v = false).
  { destruct (visited v) eqn:E; [|reflexivity].
    destruct (H8 v E) as (d' & Hd' & Hle). rewrite Hdv in Hd'.
    injection Hd' as <-. lia. }
  assert (Hvs : v <> start).
  { intros ->. rewrite H3 in Hdv. injection Hdv as <-. lia. }
  assert (Hvc : v <> c) by (intros ->; congruence).
  assert (Hin : forall it, In it pq' <-> it = mkItem v (dc + w) \/ In it pq).
  { intros it. split; intros Hit.
    - apply (Permutation_in _ Hp) in Hit. destruct Hit; auto.
    - apply (Permutation_in _ (Permutation_sym Hp)).
      destruct Hit; [left|right]; auto. }
  split.
  - constructor.
    + intros k. unfold write. destruct (String.eqb_spec k v) as [->|Hk].
      * split; [|discriminate]. intros _. apply H1. congruence.
      * apply H1.
    + intros k d. unfold write. destruct (String.eqb_spec k v) as [->|Hk].
      * intros [= <-]. lia.
      * apply H2.
    + rewrite write_neq; auto.
    + intros k d. unfold write. destruct (String.eqb_spec k v) as [->|Hk].
      * intros [= <-] _. apply (path_step c v w dc); [|exact He].
        apply H4; [exact Hdc | lia].
      * apply H4.
    + intros it Hit. apply Hin in Hit. destruct Hit as [->|Hit]; simpl.
      * split; [lia|]. exists (dc + w). rewrite write_eq. split; [reflexivity|lia].
      * destruct (H5 it Hit) as (Hlt' & d & Hd & Hle). split; [exact Hlt'|].
        unfold write. destruct (String.eqb_spec (node it) v) as [E|E].
        -- exists (dc + w). split; [reflexivity|].
           rewrite E, Hdv in Hd. injection Hd as <-. lia.
        -- exists d. auto.
    + intros k d. unfold write. destruct (String.eqb_spec k v) as [->|Hk].
      * intros [= <-] _ _. apply Hin. left. reflexivity.
      * intros Hd Hlt' Hk'. apply Hin. right. apply H6; auto.
    + intros u e' Hu He'.
      assert (Huv : u <> v) by (intros ->; congruence).
      rewrite (read_write_neq _ _ _ _ Huv).
      destruct (H7 u e' Hu He') as [[-> [<-|Hin']]|H]; auto.
      * right. simpl. rewrite write_eq. intros dv' [= <-]. lia.
      * right. intros dv'. unfold write.
        destruct (String.eqb_spec (to e') v) as [E|E].
        -- intros [= <-]. rewrite E in H. specialize (H dv Hdv). lia.
        -- apply H.
    + intros u Hu.
      assert (Huv : u <> v) by (intros ->; congruence).
      rewrite write_neq; auto.
    + intros it Hit. apply Hin in Hit. destruct Hit as [->|Hit]; simpl.
      * lia.
      * apply H9. exact Hit.
  - rewrite read_write_neq; auto.
Qed.

Lemma relax_all_inv c B visited :
  visited c = true ->
  forall todo dist pq dist' pq',
    Inv c todo B dist visited pq -> heap_ok pq ->
    read dist c = B ->
    incl todo (edges_of graph c) ->
    relax_all c todo dist pq = Some (dist', pq') ->
    Inv c [] B dist' visited pq' /\ heap_ok pq'.
Proof.
  intros Hc. induction todo as [|e todo IH];
    intros dist pq dist' pq' HI Hok HB Hincl H.
  - simpl in H. injection H as <- <-. auto.
  - cbn [relax_all] in H.
    assert (He : In e (edges_of graph c)) by (apply Hincl; left; reflexivity).
    assert (Hincl' : incl todo (edges_of graph c)).
    { intros x Hx. apply Hincl. right. exact Hx. }
    destruct (inv_visited _ _ _ _ _ _ HI c Hc) as (dc & Hdc & _).
    assert (Hadd : Go.add (read dist c) (weight e) = read dist c + weight e).
    { apply add_exact; [|exact (edge_weight _ _ He)].
      unfold read. rewrite Hdc. exact (inv_range _ _ _ _ _ _ HI _ _ Hdc). }
    rewrite Hadd in H.
    destruct (Z.ltb_spec (read dist c + weight e) (read dist (to e)))
      as [Hlt|Hge].
    + destruct (Push_ok pq (mkItem (to e) (read dist c + weight e)) Hok)
        as (pq1 & Hpush & Hok1 & Hp).
      rewrite Hpush in H.
      destruct (relax_write _ _ _ _ _ _ _ _ HI Hc HB He Hlt Hp) as [HI1 HB1].
      exact (IH _ _ _ _ HI1 Hok1 HB1 Hincl' H).
    + apply (IH _ _ _ _ (relax_keep _ _ _ _ _ _ _ HI Hge) Hok HB Hincl' H).
Qed.

(** What [pop] of an item with a node not yet visited establishes. *)
Lemma pop_fresh c B dist visited pq x pq' :
  Inv c [] B dist visited pq ->
  Permutation pq (x :: pq') ->
  Forall (fun y => distance x <= distance y) pq' ->
  visited (node x) = false ->
  Inv (node x) (edges_of graph (node x)) (distance x) dist
    (mark visited (node x)) pq'
  /\ read dist (node x) = distance x.
Proof.
  intros [H1 H2 H3 H4 H5 H6 H7 H8 H9] Hp Hmin Hv.
  rewrite Forall_forall in Hmin.
  assert (Hx : In x pq).
  { apply (Permutation_in _ (Permutation_sym Hp)). left. reflexivity. }
  assert (Hsub : forall it, In it pq' -> In it pq).
  { intros it Hit. apply (Permutation_in _ (Permutation_sym Hp)). right.
    exact Hit. }
  destruct (H5 x Hx) as (Hxlt & d & Hd & Hle).
  assert (d = distance x).
  { assert (Hin : In (mkItem (node x) d) pq) by (apply H6; auto; lia).
    apply (Permutation_in _ Hp) in Hin. destruct Hin as [Heq|Hin].
    - rewrite Heq. reflexivity.
    - specialize (Hmin _ Hin). simpl in Hmin. lia. }
  subst d.
  split; [|unfold read; rewrite Hd; reflexivity].
  constructor; auto.
  - intros v d Hvd Hlt. unfold mark.
    destruct (String.eqb_spec v (node x)) as [->|Hne]; [discriminate|].
    intros Hvv. pose proof (H6 v d Hvd Hlt Hvv) as Hin.
    apply (Permutation_in _ Hp) in Hin. destruct Hin as [Heq|Hin]; auto.
    rewrite Heq in Hne. simpl in Hne. congruence.
  - intros u e. unfold mark.
    destruct (String.eqb_spec u (node x)) as [->|Hne].
    + intros _ He. left. auto.
    + intros Hu He. destruct (H7 u e Hu He) as [[_ []]|H]. right. exact H.
  - intros u. unfold mark.
    destruct (String.eqb_spec u (node x)) as [->|Hne].
    + intros _. exists (distance x). split; [exact Hd | lia].
    + intros Hu. destruct (H8 u Hu) as (du & Hdu & HduB).
      exists du. split; [exact Hdu|]. specialize (H9 x Hx). lia.
Qed.

Lemma pop_stale c B dist visited pq x pq' :
  Inv c [] B dist visited pq ->
  Permutation pq (x :: pq') ->
  visited (node x) = true ->
  Inv c [] B dist visited pq'.
Proof.
  intros [H1 H2 H3 H4 H5 H6 H7 H8 H9] Hp Hv.
  assert (Hsub : forall it, In it pq' -> In it pq).
  { intros it Hit. apply (Permutation_in _ (Permutation_sym Hp)). right.
    exact Hit. }
  constructor; auto.
  intros v d Hvd Hlt Hvv. pose proof (H6 v d Hvd Hlt Hvv) as Hin.
  apply (Permutation_in _ Hp) in Hin. destruct Hin as [Heq|Hin]; auto.
  rewrite Heq in Hv. simpl in Hv. congruence.
Qed.

(** What the result is to a node: its least distance from [start], capped
    at [infinity]. *)
Definition shortest (dist : Dist) : Prop :=
  (forall v, dist v <> None <-> v = start \/ In v (map fst graph))
  /\ dist start = Some 0
  /\ forall v d, dist v = Some d ->
       0 <= d <= infinity
       /\ (d < infinity -> path v d)
       /\ (forall W, path v W -> d <= W).

Lemma Inv_final c B dist visited :
  Inv c [] B dist visited [] -> shortest dist.
Proof.
  intros [H1 H2 H3 H4 H5 H6 H7 H8 H9].
  split; [exact H1|]. split; [exact H3|].
  assert (Hopt : forall v W, path v W -> forall d, dist v = Some d -> d <= W).
  { induction 1 as [|u v w W Hp IH He]; intros d Hd.
    - rewrite H3 in Hd. injection Hd as <-. lia.
    - pose proof (edge_weight _ _ He) as Hw. simpl in Hw.
      pose proof (path_nonneg _ _ Hp) as HW.
      pose proof (H2 _ _ Hd) as Hr.
      assert (Hu : dist u <> None).
      { apply H1. right. exact (edges_of_key _ _ _ He). }
      destruct (dist u) as [du|] eqn:Hdu; [|congruence].
      specialize (IH du eq_refl).
      destruct (visited u) eqn:Hvu.
      + destruct (H7 u _ Hvu He) as [[_ []]|H].
        specialize (H d Hd). unfold read in H. rewrite Hdu in H. simpl in H.
        lia.
      + destruct (Z.ltb_spec du infinity) as [Hlt|Hge].
        * destruct (H6 u du Hdu Hlt Hvu).
        * lia. }
  intros v d Hd. split; [exact (H2 _ _ Hd)|]. split; [exact (H4 _ _ Hd)|].
  intros W HW. exact (Hopt _ _ HW _ Hd).
Qed.

Lemma loop_inv :
  forall fuel c B dist visited pq d,
    Inv c [] B dist visited pq -> heap_ok pq ->
    loop fuel graph dist visited pq = Done d -> shortest d.
Proof.
  induction fuel as [|fuel IH]; intros c B dist visited pq d HI Hok H.
  - destruct pq as [|x pq]; [|discriminate].
    injection H as <-. exact (Inv_final _ _ _ _ HI).
  - cbn [loop] in H. unfold Len, Go.len in H.
    destruct (Z.gtb_spec (Z.of_nat (length pq)) 0) as [Hlen|Hlen].
    + assert (Hne : pq <> []) by (intros ->; simpl in Hlen; lia).
      destruct (Pop_ok pq Hok Hne) as (x & pq' & Hpop & Hok' & Hp & Hmin).
      rewrite Hpop in H.
      destruct (visited (node x)) eqn:Hv.
      * exact (IH _ _ _ _ _ _ (pop_stale _ _ _ _ _ _ _ HI Hp Hv) Hok' H).
      * destruct (pop_fresh _ _ _ _ _ _ _ HI Hp Hmin Hv) as [HI1 HB1].
        destruct (relax_all (node x) (edges_of graph (node x)) dist pq')
          as [[dist' pq'']|] eqn:Hr; [|discriminate].
        assert (Hm : mark visited (node x) (node x) = true).
        { unfold mark. rewrite String.eqb_refl. reflexivity. }
        destruct (relax_all_inv _ _ _ Hm _ _ _ _ _ HI1 Hok' HB1
                    (incl_refl _) Hr) as [HI2 Hok2].
        exact (IH _ _ _ _ _ _ HI2 Hok2 H).
    + injection H as <-. destruct pq as [|x pq]; [|simpl in Hlen; lia].
      exact (Inv_final _ _ _ _ HI).
Qed.

Lemma Inv_init :
  Inv start [] 0 (write (init_dist graph) start 0) (fun _ => false)
    [mkItem start 0].
Proof.
  constructor.
  - intros v. unfold write. destruct (String.eqb_spec v start) as [->|Hv].
    + split; [auto | discriminate].
    + destruct (init_dist_spec graph v) as [I1 I2]. split.
      * intros H. right.
        destruct (in_dec string_dec v (map fst graph)) as [Hin|Hout]; auto.
        rewrite (I2 Hout) in H. congruence.
      * intros [->|Hin]; [congruence|]. rewrite (I1 Hin). discriminate.
  - intros v d. unfold write. destruct (String.eqb_spec v start) as [->|Hv].
    + intros [= <-]. rewrite infinity_value. lia.
    + destruct (init_dist_spec graph v) as [I1 I2].
      destruct (in_dec string_dec v (map fst graph)) as [Hin|Hout].
      * rewrite (I1 Hin). intros [= <-]. rewrite infinity_value. lia.
      * rewrite (I2 Hout). discriminate.
  - apply write_eq.
  - intros v d. unfold write. destruct (String.eqb_spec v start) as [->|Hv].
    + intros [= <-] _. constructor.
    + destruct (init_dist_spec graph v) as [I1 I2].
      destruct (in_dec string_dec v (map fst graph)) as [Hin|Hout].
      * rewrite (I1 Hin). intros [= <-]. lia.
      * rewrite (I2 Hout). discriminate.
  - intros it [<-|[]]. simpl. split; [rewrite infinity_value; lia|].
    exists 0. rewrite write_eq. split; [reflexivity | lia].
  - intros v d. unfold write. destruct (String.eqb_spec v start) as [->|Hv].
    + intros [= <-] _ _. left. reflexivity.
    + destruct (init_dist_spec graph v) as [I1 I2].
      destruct (in_dec string_dec v (map fst graph)) as [Hin|Hout].
      * rewrite (I1 Hin). intros [= <-]. lia.
      * rewrite (I2 Hout). discriminate.
  - discriminate.
  - discriminate.
  - intros it [<-|[]]. simpl. lia.
Qed.

End Correct.

(** X20. With a heap that keeps the contract, whatever the graph, the
    start and the weights, also negative ones, [dijkstra] returns: it does
    not panic, and its loop is over after at most one round for each edge of
    the graph and one more. *)
Theorem dijkstra_returns (graph : Graph) (start : string) :
  exists dist, dijkstra graph start = Done dist.
Proof.
  unfold dijkstra. destruct Init_ok as [-> Hnil].
  destruct (Push_ok [] (mkItem start 0) Hnil) as (pq & -> & Hok & Hp).
  apply loop_returns; [exact Hok|].
  apply Permutation_length in Hp. simpl in Hp.
  rewrite potential_total. lia.
Qed.

(** X21. With a heap that keeps the contract, when no weight is negative
    (or so large that a sum overflows), the map [dijkstra] returns has the
    start and the keys of the graph as its keys, and no others; the start is
    at 0; every other entry is at most [1 << 30] and at most the weight of
    every path from the start to its node; an entry below [1 << 30] is the
    weight of such a path. *)
Theorem dijkstra_shortest (graph : Graph) (start : string) :
  weights_ok graph ->
  exists dist, dijkstra graph start = Done dist /\ shortest graph start dist.
Proof.
  intros Hw. unfold dijkstra.
  destruct Init_ok as [-> Hnil].
  destruct (Push_ok [] (mkItem start 0) Hnil) as (pq & -> & Hok & Hp).
  assert (pq = [mkItem start 0]) as ->.
  { apply Permutation_length_1_inv. apply Permutation_sym. exact Hp. }
  destruct (loop_returns graph (S (total_edges graph))
              (write (init_dist graph) start 0) (fun _ => false)
              [mkItem start 0] Hok) as (dist & Hd).
  { simpl. rewrite potential_total. lia. }
  exists dist. split; [exact Hd|].
  exact (loop_inv graph start Hw _ _ _ _ _ _ _ (Inv_init graph start) Hok Hd).
Qed.

End Contract.

(** ** [container/heap] over the methods of [PriorityQueue]

    The library's [up], [down], [Init], [Push] and [Pop], with the slice
    passed along.  An index below the length of a slice is far from the
    largest [int], so [2*i + 1] is computed without wrap-around.  The loops
    of [up] and [down] move the index by at least one in each round; their
    fuel is the length of the slice. *)

Module heap.

Fixpoint up (fuel : nat) (h : PriorityQueue) (j : Z) : option PriorityQueue :=
  let i := Z.quot (j - 1) 2 in
  if i =? j then Some h
  else
    match Less h j i with
    | None => None
    | Some false => Some h
    | Some true =>
        match fuel with
        | O => None
        | S fuel' =>
            match Swap h i j with
            | Some h' => up fuel' h' i
            | None => None
            end
        end
    end.

Fixpoint down (fuel : nat) (h : PriorityQueue) (i n : Z)
  : option PriorityQueue :=
  let j1 := 2 * i + 1 in
  if (j1 >=? n) || (j1 <? 0) then Some h
  else
    let j2 := j1 + 1 in
    match (if j2 <? n then Less h j2 j1 else Some false) with
    | None => None
    | Some less =>
        let j := if less then j2 else j1 in
        match Less h j i with
        | None => None
        | Some false => Some h
        | Some true =>
            match fuel with
            | O => None
            | S fuel' =>
                match Swap h i j with
                | Some h' => down fuel' h' j n
                | None => None
                end
            end
        end
    end.

(** The loop of [Init], from [i = k - 1] down to [0]. *)
Fixpoint init_loop (k : nat) (h : PriorityQueue) (n : Z)
  : option PriorityQueue :=
  match k with
  | O => Some h
  | S k' =>
      match down (length h) h (Z.of_nat k') n with
      | Some h' => init_loop k' h' n
      | None => None
      end
  end.

Definition Init (h : PriorityQueue) : option PriorityQueue :=
  let n := Len h in
  init_loop (Z.to_nat (Z.quot n 2)) h n.

(** [heap.Push(h, x)]: [h.Push(x)], then [up]. *)
Definition Push (h : PriorityQueue) (x : Item) : option PriorityQueue :=
  let h' := Push h x in
  up (length h') h' (Len h' - 1).

(** [heap.Pop(h)]: [h.Swap(0, n)], [down], then [h.Pop()]. *)
Definition Pop (h : PriorityQueue) : option (Item * PriorityQueue) :=
  let n := Len h - 1 in
  match Swap h 0 n with
  | Some h1 =>
      match down (length h) h1 0 n with
      | Some h2 => Pop h2
      | None => None
      end
  | None => None
  end.

End heap.

(** *** The heap order *)

(** The [distance] at an index. *)
Definition key (l : PriorityQueue) (k : nat) : Z :=
  match nth_error l k with
  | Some x => distance x
  | None => 0
  end.

Definition child (i k : nat) : Prop := k = (2 * i + 1)%nat \/ k = (2 * i + 2)%nat.

(** The first [n] items are in heap order. *)
Definition heap_to (n : nat) (l : PriorityQueue) : Prop :=
  forall i k, (k < n)%nat -> child i k -> key l i <= key l k.

Definition heap_ok (l : PriorityQueue) : Prop := heap_to (length l) l.

(** The exchange of two indices. *)
Definition transpose (i j k : nat) : nat :=
  if (k =? i)%nat then j else if (k =? j)%nat then i else k.

Lemma transpose_injective i j : Finite.Injective (transpose i j).
Proof.
  intros a b. unfold transpose.
  destruct (Nat.eqb_spec a i); destruct (Nat.eqb_spec b i);
    destruct (Nat.eqb_spec a j); destruct (Nat.eqb_spec b j); lia.
Qed.

Lemma nth_error_update (l : PriorityQueue) :
  forall i x l', Go.update l i x = Some l' ->
    length l' = length l
    /\ forall k, nth_error l' k = if (k =? i)%nat then Some x else nth_error l k.
Proof.
  induction l as [|y l IH]; intros i x l' H; [discriminate|].
  destruct i as [|i]; simpl in H.
  - injection H as <-. split; [reflexivity|]. intros [|k]; reflexivity.
  - destruct (Go.update l i x) as [r|] eqn:Hr; [|discriminate].
    injection H as <-. destruct (IH _ _ _ Hr) as [Hlen Hnth].
    split; [simpl; congruence|]. intros [|k]; [reflexivity|]. apply Hnth.
Qed.

Lemma update_returns (l : PriorityQueue) :
  forall i x, (i < length l)%nat -> exists l', Go.update l i x = Some l'.
Proof.
  induction l as [|y l IH]; intros i x Hi; [simpl in Hi; lia|].
  destruct i as [|i]; simpl.
  - eexists. reflexivity.
  - destruct (IH i x) as (r & ->); [simpl in Hi; lia|]. eexists. reflexivity.
Qed.

Lemma Less_nat l i j :
  (i < length l)%nat -> (j < length l)%nat ->
  Less l (Z.of_nat i) (Z.of_nat j) = Some (key l i <? key l j).
Proof.
  intros Hi Hj. unfold Less, key. rewrite !index_nat.
  destruct (nth_error l i) eqn:Ei; [|apply nth_error_None in Ei; lia].
  destruct (nth_error l j) eqn:Ej; [|apply nth_error_None in Ej; lia].
  reflexivity.
Qed.

Lemma Swap_nat l i j :
  (i < length l)%nat -> (j < length l)%nat ->
  exists l',
    Swap l (Z.of_nat i) (Z.of_nat j) = Some l'
    /\ length l' = length l
    /\ (forall k, nth_error l' k = nth_error l (transpose i j k))
    /\ Permutation l' l.
Proof.
  intros Hi Hj. unfold Swap. rewrite !index_nat.
  destruct (nth_error l i) as [x|] eqn:Ei; [|apply nth_error_None in Ei; lia].
  destruct (nth_error l j) as [y|] eqn:Ej; [|apply nth_error_None in Ej; lia].
  rewrite store_nat.
  destruct (update_returns l i y Hi) as (l1 & H1). rewrite H1.
  destruct (nth_error_update _ _ _ _ H1) as [Hlen1 Hnth1].
  rewrite store_nat.
  destruct (update_returns l1 j x ltac:(lia)) as (l2 & H2). rewrite H2.
  destruct (nth_error_update _ _ _ _ H2) as [Hlen2 Hnth2].
  assert (Hnth : forall k, nth_error l2 k = nth_error l (transpose i j k)).
  { intros k. rewrite Hnth2, Hnth1. unfold transpose.
    destruct (Nat.eqb_spec k j) as [Ekj|Hkj];
      destruct (Nat.eqb_spec k i) as [Eki|Hki]; subst; congruence. }
  exists l2. split; [reflexivity|]. split; [congruence|]. split; [exact Hnth|].
  apply Permutation_sym. apply Permutation_nth_error.
  split; [congruence|]. exists (transpose i j).
  split; [apply transpose_injective | exact Hnth].
Qed.

Lemma key_swapped l l' i j :
  (forall k, nth_error l' k = nth_error l (transpose i j k)) ->
  key l' i = key l j /\ key l' j = key l i
  /\ forall k, k <> i -> k <> j -> key l' k = key l k.
Proof.
  intros H. unfold key. split; [|split; [|intros k Hi Hj]]; rewrite H;
    unfold transpose.
  - rewrite Nat.eqb_refl. reflexivity.
  - rewrite Nat.eqb_refl. destruct (Nat.eqb_spec j i) as [->|]; reflexivity.
  - destruct (Nat.eqb_spec k i); [contradiction|].
    destruct (Nat.eqb_spec k j); [contradiction|]. reflexivity.
Qed.

Lemma child_of_parent k : (1 <= k)%nat -> child ((k - 1) / 2) k.
Proof.
  intros Hk. unfold child.
  pose proof (Nat.div_mod_eq (k - 1) 2) as Hd.
  pose proof (Nat.mod_upper_bound (k - 1) 2 ltac:(lia)) as Hm.
  lia.
Qed.

Lemma parent_quot j :
  (1 <= j)%nat -> Z.quot (Z.of_nat j - 1) 2 = Z.of_nat ((j - 1) / 2).
Proof.
  intros Hj. rewrite Z.quot_div_nonneg by lia.
  rewrite Nat2Z.inj_div, Nat2Z.inj_sub by lia. reflexivity.
Qed.

Lemma child_unique i i' k : child i k -> child i' k -> i = i'.
Proof. unfold child. lia. Qed.

Lemma child_gt i k : child i k -> (i < k)%nat.
Proof. unfold child. lia. Qed.

Lemma up_ok :
  forall fuel l j,
    (j < length l)%nat -> (j <= fuel)%nat ->
    (forall i k, (k < length l)%nat -> child i k -> k <> j ->
                 key l i <= key l k) ->
    (forall g k, child g j -> child j k -> (k < length l)%nat ->
                 key l g <= key l k) ->
    exists l', heap.up fuel l (Z.of_nat j) = Some l' /\ heap_ok l'
               /\ Permutation l' l.
Proof.
  induction fuel as [|fuel IH]; intros l j Hj Hfuel HA HB.
  - assert (j = 0)%nat as -> by lia. exists l.
    split; [reflexivity|]. split; [|apply Permutation_refl].
    intros i k Hk Hc. apply HA; auto. apply child_gt in Hc. lia.
  - destruct (Nat.eq_dec j 0) as [->|Hj0].
    + exists l. split; [reflexivity|]. split; [|apply Permutation_refl].
      intros i k Hk Hc. apply HA; auto. apply child_gt in Hc. lia.
    + pose proof (child_of_parent j ltac:(lia)) as Hc.
      pose proof (parent_quot j ltac:(lia)) as Hq.
      revert Hc Hq. generalize ((j - 1) / 2)%nat. intros i Hc Hq.
      pose proof (child_gt _ _ Hc) as Hij.
      cbn [heap.up]. rewrite Hq.
      destruct (Z.eqb_spec (Z.of_nat i) (Z.of_nat j)) as [E|_]; [lia|].
      rewrite (Less_nat l j i) by lia.
      destruct (Z.ltb_spec (key l j) (key l i)) as [Hlt|Hge].
      * destruct (Swap_nat l i j ltac:(lia) Hj) as (l1 & -> & Hlen & Hnth & Hp).
        destruct (key_swapped _ _ _ _ Hnth) as (Ki & Kj & Ko).
        destruct (IH l1 i) as (l2 & Hup & Hok & Hp2).
        -- lia.
        -- lia.
        -- intros i' k Hk Hck Hki. rewrite Hlen in Hk.
           pose proof (child_gt _ _ Hck) as Hik.
           destruct (Nat.eq_dec k j) as [->|Hkj].
           ++ rewrite (child_unique _ _ _ Hck Hc), Ki, Kj. lia.
           ++ rewrite (Ko k Hki Hkj).
              destruct (Nat.eq_dec i' i) as [->|Hi'i].
              ** rewrite Ki. specialize (HA i k Hk Hck Hkj). lia.
              ** destruct (Nat.eq_dec i' j) as [->|Hi'j].
                 --- rewrite Kj. exact (HB i k Hc Hck Hk).
                 --- rewrite (Ko i' Hi'i Hi'j). exact (HA i' k Hk Hck Hkj).
        -- intros g k Hg Hk Hlk. rewrite Hlen in Hlk.
           pose proof (child_gt _ _ Hg) as Hgi.
           pose proof (child_gt _ _ Hk) as Hik.
           rewrite (Ko g ltac:(lia) ltac:(lia)).
           pose proof (HA g i ltac:(lia) Hg ltac:(lia)) as H1.
           destruct (Nat.eq_dec k j) as [->|Hkj].
           ++ rewrite Kj. exact H1.
           ++ rewrite (Ko k ltac:(lia) Hkj).
              specialize (HA i k Hlk Hk Hkj). lia.
        -- exists l2. split; [exact Hup|]. split; [exact Hok|].
           eapply Permutation_trans; eauto.
      * exists l. split; [reflexivity|]. split; [|apply Permutation_refl].
        intros i' k Hk Hck. destruct (Nat.eq_dec k j) as [->|Hkj].
        -- rewrite (child_unique _ _ _ Hck Hc). lia.
        -- apply HA; auto.
Qed.

Lemma down_step fuel l i n :
  heap.down fuel l (Z.of_nat i) (Z.of_nat n) =
  if (n <=? 2 * i + 1)%nat then Some l
  else
    match (if (2 * i + 2 <? n)%nat
           then Less l (Z.of_nat (2 * i + 2)) (Z.of_nat (2 * i + 1))
           else Some false) with
    | None => None
    | Some less =>
        let j := if less then (2 * i + 2)%nat else (2 * i + 1)%nat in
        match Less l (Z.of_nat j) (Z.of_nat i) with
        | None => None
        | Some false => Some l
        | Some true =>
            match fuel with
            | O => None
            | S fuel' =>
                match Swap l (Z.of_nat i) (Z.of_nat j) with
                | Some h' => heap.down fuel' h' (Z.of_nat j) (Z.of_nat n)
                | None => None
                end
            end
        end
    end.
Proof.
  assert (E1 : 2 * Z.of_nat i + 1 = Z.of_nat (2 * i + 1)) by lia.
  assert (E2 : Z.of_nat (2 * i + 1) + 1 = Z.of_nat (2 * i + 2)) by lia.
  destruct fuel; cbn [heap.down]; cbv zeta; rewrite E1, E2;
    destruct (Z.geb_spec (Z.of_nat (2 * i + 1)) (Z.of_nat n));
    destruct (Nat.leb_spec n (2 * i + 1)); try lia;
    destruct (Z.ltb_spec (Z.of_nat (2 * i + 1)) 0); try lia;
    cbn [orb]; try reflexivity;
    destruct (Z.ltb_spec (Z.of_nat (2 * i + 2)) (Z.of_nat n));
    destruct (Nat.ltb_spec (2 * i + 2) n); try lia;
    try (destruct (Less l (Z.of_nat (2 * i + 2)) (Z.of_nat (2 * i + 1)))
           as [[|]|]); reflexivity.
Qed.

Lemma down_ok :
  forall fuel l i n,
    (n <= length l)%nat -> (n <= i + fuel)%nat ->
    (forall p k, (k < n)%nat -> child p k -> p <> i -> key l p <= key l k) ->
    (forall g k, child g i -> child i k -> (k < n)%nat ->
                 key l g <= key l k) ->
    exists l',
      heap.down fuel l (Z.of_nat i) (Z.of_nat n) = Some l'
      /\ heap_to n l' /\ Permutation l' l /\ length l' = length l
      /\ forall k, (n <= k)%nat -> nth_error l' k = nth_error l k.
Proof.
  induction fuel as [|fuel IH]; intros l i n Hn Hfuel HA HB;
    rewrite down_step.
  - destruct (Nat.leb_spec n (2 * i + 1)); [|lia].
    exists l. split; [reflexivity|]. split; [|auto using Permutation_refl].
    intros p k Hk Hc. apply HA; auto. apply child_gt in Hc. lia.
  - destruct (Nat.leb_spec n (2 * i + 1)) as [Hleaf|Hin].
    { exists l. split; [reflexivity|]. split; [|auto using Permutation_refl].
      intros p k Hk Hc. apply HA; auto. unfold child in Hc. lia. }
    assert (Hj : exists j,
               (if (2 * i + 2 <? n)%nat
                then Less l (Z.of_nat (2 * i + 2)) (Z.of_nat (2 * i + 1))
                else Some false)
               = Some (j =? 2 * i + 2)%nat
               /\ child i j /\ (j < n)%nat
               /\ forall k, child i k -> (k < n)%nat -> key l j <= key l k).
    { destruct (Nat.ltb_spec (2 * i + 2) n) as [H2|H2].
      - rewrite Less_nat by lia.
        destruct (Z.ltb_spec (key l (2 * i + 2)) (key l (2 * i + 1))).
        + exists (2 * i + 2)%nat. rewrite Nat.eqb_refl.
          split; [reflexivity|]. split; [right; reflexivity|].
          split; [lia|]. intros k [->| ->] Hk; lia.
        + exists (2 * i + 1)%nat.
          destruct (Nat.eqb_spec (2 * i + 1) (2 * i + 2)); [lia|].
          split; [reflexivity|]. split; [left; reflexivity|].
          split; [lia|]. intros k [->| ->] Hk; lia.
      - exists (2 * i + 1)%nat.
        destruct (Nat.eqb_spec (2 * i + 1) (2 * i + 2)); [lia|].
        split; [reflexivity|]. split; [left; reflexivity|].
        split; [lia|]. intros k [->| ->] Hk; lia. }
    destruct Hj as (j & -> & Hc & Hjn & Hmin).
    assert (Ej : (if (j =? 2 * i + 2)%nat then (2 * i + 2)%nat
                  else (2 * i + 1)%nat) = j).
    { destruct (Nat.eqb_spec j (2 * i + 2)); unfold child in Hc; lia. }
    cbv zeta. rewrite Ej.
    pose proof (child_gt _ _ Hc) as Hij.
    rewrite (Less_nat l j i) by lia.
    destruct (Z.ltb_spec (key l j) (key l i)) as [Hlt|Hge].
    + destruct (Swap_nat l i j ltac:(lia) ltac:(lia))
        as (l1 & -> & Hlen & Hnth & Hp).
      destruct (key_swapped _ _ _ _ Hnth) as (Ki & Kj & Ko).
      destruct (IH l1 j n) as (l2 & Hd & Hok & Hp2 & Hlen2 & Hrest).
      * lia.
      * lia.
      * intros p k Hk Hck Hpj.
        pose proof (child_gt _ _ Hck) as Hpk.
        destruct (Nat.eq_dec p i) as [->|Hpi].
        -- rewrite Ki. destruct (Nat.eq_dec k j) as [->|Hkj].
           ++ rewrite Kj. lia.
           ++ rewrite (Ko k ltac:(lia) Hkj). exact (Hmin k Hck Hk).
        -- rewrite (Ko p Hpi Hpj).
           destruct (Nat.eq_dec k i) as [->|Hki].
           ++ rewrite Ki. exact (HB p j Hck Hc Hjn).
           ++ destruct (Nat.eq_dec k j) as [->|Hkj].
              ** elim Hpi. exact (child_unique _ _ _ Hck Hc).
              ** rewrite (Ko k Hki Hkj). exact (HA p k Hk Hck Hpi).
      * intros g k Hg Hk Hkn.
        pose proof (child_gt _ _ Hk) as Hjk.
        rewrite (child_unique _ _ _ Hg Hc), Ki.
        rewrite (Ko k ltac:(lia) ltac:(lia)).
        apply HA; auto. lia.
      * exists l2. split; [exact Hd|]. split; [exact Hok|].
        split; [eapply Permutation_trans; eauto|]. split; [congruence|].
        intros k Hk. rewrite (Hrest k Hk), Hnth. unfold transpose.
        destruct (Nat.eqb_spec k i); [lia|].
        destruct (Nat.eqb_spec k j); [lia|]. reflexivity.
    + exists l. split; [reflexivity|]. split; [|auto using Permutation_refl].
      intros p k Hk Hck. destruct (Nat.eq_dec p i) as [->|Hpi].
      * specialize (Hmin k Hck Hk). lia.
      * apply HA; auto.
Qed.

Lemma root_least l :
  heap_ok l -> forall k, (k < length l)%nat -> key l 0 <= key l k.
Proof.
  intros Hok k. induction k as [k IH] using lt_wf_ind. intros Hk.
  destruct (Nat.eq_dec k 0) as [->|Hk0]; [lia|].
  pose proof (child_of_parent k ltac:(lia)) as Hc.
  pose proof (child_gt _ _ Hc) as Hlt.
  specialize (IH _ Hlt ltac:(lia)).
  specialize (Hok _ _ Hk Hc). lia.
Qed.

Lemma heap_Init_nil : heap.Init [] = Some [].
Proof. reflexivity. Qed.

Lemma heap_ok_nil : heap_ok [].
Proof. intros i k Hk. simpl in Hk. lia. Qed.

Lemma heap_Push_ok pq x :
  heap_ok pq ->
  exists pq', heap.Push pq x = Some pq' /\ heap_ok pq'
              /\ Permutation pq' (x :: pq).
Proof.
  intros Hok. unfold heap.Push, Push, Go.append, Len, Go.len.
  rewrite length_app. cbn [length].
  replace (Z.of_nat (length pq + 1) - 1) with (Z.of_nat (length pq)) by lia.
  destruct (up_ok (length pq + 1) (pq ++ [x]) (length pq))
    as (pq' & Hup & Hok' & Hp).
  - rewrite length_app. simpl. lia.
  - lia.
  - intros i k Hk Hc Hne. rewrite length_app in Hk. simpl in Hk.
    pose proof (child_gt _ _ Hc) as Hik.
    unfold key. rewrite !nth_error_app1 by lia.
    apply (Hok i k); [lia | exact Hc].
  - intros g k _ Hc Hk. rewrite length_app in Hk. simpl in Hk.
    apply child_gt in Hc. lia.
  - exists pq'. split; [exact Hup|]. split; [exact Hok'|].
    eapply Permutation_trans; [exact Hp|].
    apply Permutation_sym, Permutation_cons_append.
Qed.

Lemma Pop_last (l : PriorityQueue) x :
  Pop (l ++ [x]) = Some (x, l).
Proof.
  unfold Pop, Go.len. rewrite length_app. cbn [length].
  replace (Z.of_nat (length l + 1) - 1) with (Z.of_nat (length l)) by lia.
  rewrite index_nat, nth_error_app2, Nat.sub_diag by lia. cbn [nth_error].
  rewrite slice_to_nat by (rewrite length_app; lia).
  rewrite firstn_app, Nat.sub_diag, firstn_all, firstn_O, app_nil_r.
  reflexivity.
Qed.

Lemma heap_Pop_ok pq :
  heap_ok pq -> pq <> [] ->
  exists x pq', heap.Pop pq = Some (x, pq') /\ heap_ok pq'
                /\ Permutation pq (x :: pq')
                /\ Forall (fun y => distance x <= distance y) pq'.
Proof.
  intros Hok Hne.
  assert (Hlen : (1 <= length pq)%nat).
  { destruct pq; [contradiction|]. simpl. lia. }
  set (n := (length pq - 1)%nat).
  unfold heap.Pop, Len, Go.len.
  replace (Z.of_nat (length pq) - 1) with (Z.of_nat n) by lia.
  change 0 with (Z.of_nat 0).
  destruct (Swap_nat pq 0 n ltac:(lia) ltac:(lia))
    as (l1 & -> & Hlen1 & Hnth1 & Hp1).
  destruct (key_swapped _ _ _ _ Hnth1) as (K0 & Kn & Ko).
  destruct (down_ok (length pq) l1 0 n) as (l2 & -> & Hok2 & Hp2 & Hlen2 & Hrest).
  - lia.
  - lia.
  - intros p k Hk Hc Hp0.
    pose proof (child_gt _ _ Hc) as Hpk.
    rewrite (Ko p Hp0 ltac:(lia)), (Ko k ltac:(lia) ltac:(lia)).
    apply (Hok p k); [lia | exact Hc].
  - intros g k Hg. apply child_gt in Hg. lia.
  - destruct (nth_error pq 0) as [x|] eqn:Hx;
      [|apply nth_error_None in Hx; lia].
    assert (Hl2n : nth_error l2 n = Some x).
    { rewrite (Hrest n (Nat.le_refl n)), Hnth1. unfold transpose.
      destruct (Nat.eqb_spec n 0) as [->|]; [exact Hx|].
      rewrite Nat.eqb_refl. exact Hx. }
    assert (Hsplit : l2 = firstn n l2 ++ [x]).
    { rewrite <- (firstn_skipn n l2) at 1. f_equal.
      pose proof (firstn_skipn_middle n l2 Hl2n) as Hm.
      assert (Hs : length (skipn (S n) l2) = 0%nat)
        by (rewrite length_skipn; lia).
      destruct (skipn (S n) l2); [|discriminate].
      apply (f_equal (skipn n)) in Hm.
      rewrite skipn_app, skipn_all2 in Hm by (rewrite length_firstn; lia).
      rewrite length_firstn in Hm.
      replace (n - Nat.min n (length l2))%nat with 0%nat in Hm by lia.
      simpl in Hm. congruence. }
    exists x, (firstn n l2). rewrite Hsplit at 1. rewrite Pop_last.
    split; [reflexivity|].
    assert (Hperm : Permutation pq (x :: firstn n l2)).
    { apply Permutation_sym.
      eapply Permutation_trans; [apply Permutation_cons_append|].
      rewrite <- Hsplit. eapply Permutation_trans; eauto. }
    split; [|split; [exact Hperm|]].
    + intros i k Hk Hc. rewrite length_firstn in Hk.
      pose proof (child_gt _ _ Hc) as Hik.
      unfold key. rewrite !nth_error_firstn.
      destruct (Nat.ltb_spec i n); [|lia].
      destruct (Nat.ltb_spec k n); [|lia].
      apply (Hok2 i k); [lia | exact Hc].
    + apply Forall_forall. intros y Hy.
      assert (Hin : In y pq).
      { apply (Permutation_in _ (Permutation_sym Hperm)). right. exact Hy. }
      destruct (In_nth_error _ _ Hin) as (k & Hk).
      pose proof (root_least pq Hok k) as Hr.
      unfold key in Hr. rewrite Hx, Hk in Hr. apply Hr.
      apply nth_error_Some. congruence.
Qed.

(** *** What the library does with these methods *)

(** X22. [heap.Push] on a slice in heap order does not panic, keeps the
    heap order, and adds the item and nothing else. *)
Theorem heap_Push_keeps_order (pq : PriorityQueue) (x : Item) :
  heap_ok pq ->
  exists pq', heap.Push pq x = Some pq' /\ heap_ok pq'
              /\ Permutation pq' (x :: pq) /\ Len pq' = Len pq + 1.
Proof.
  intros Hok. destruct (heap_Push_ok pq x Hok) as (pq' & Hp & Hok' & Hperm).
  exists pq'. split; [exact Hp|]. split; [exact Hok'|]. split; [exact Hperm|].
  unfold Len, Go.len. rewrite (Permutation_length Hperm). simpl length. lia.
Qed.

(** X23. [heap.Pop] panics on the empty slice; on any other slice in heap
    order it returns an item of least [distance], removes that item and
    nothing else, and keeps the heap order. *)
Theorem heap_Pop_least (pq : PriorityQueue) :
  heap_ok pq ->
  (pq = [] -> heap.Pop pq = None)
  /\ (pq <> [] ->
      exists x pq', heap.Pop pq = Some (x, pq') /\ heap_ok pq'
                    /\ Permutation pq (x :: pq')
                    /\ Forall (fun y => distance x <= distance y) pq).
Proof.
  intros Hok. split; [intros ->; reflexivity|]. intros Hne.
  destruct (heap_Pop_ok pq Hok Hne) as (x & pq' & Hp & Hok' & Hperm & Hmin).
  exists x, pq'. split; [exact Hp|]. split; [exact Hok'|].
  split; [exact Hperm|].
  rewrite Forall_forall in *. intros y Hy.
  apply (Permutation_in _ Hperm) in Hy. destruct Hy as [<-|Hy]; [lia|].
  exact (Hmin y Hy).
Qed.

(** X24. By themselves the methods [Push] and [Pop] of [PriorityQueue] are
    a stack: [Pop] after [Push] returns the item pushed and the slice as it
    was; [Pop] on the empty slice panics. *)
Theorem Pop_after_Push (pq : PriorityQueue) (x : Item) :
  Pop (Push pq x) = Some (x, pq) /\ Pop [] = None.
Proof. split; [apply Pop_last | reflexivity]. Qed.

(** X25. [Swap] panics exactly when an index is out of range; otherwise it
    exchanges the two items, keeps the length and the items, and a second
    [Swap] of the same indices restores the slice. *)
Theorem Swap_exchanges (pq : PriorityQueue) (i j : Z) :
  (Swap pq i j = None <-> ~ (0 <= i < Len pq /\ 0 <= j < Len pq))
  /\ forall pq', Swap pq i j = Some pq' ->
       Go.index pq' i = Go.index pq j /\ Go.index pq' j = Go.index pq i
       /\ Len pq' = Len pq /\ Permutation pq' pq
       /\ Swap pq' i j = Some pq.
Proof.
  assert (Hrange : forall (l : PriorityQueue) k,
             Go.index l k = None <-> ~ (0 <= k < Len l)).
  { intros l k. unfold Go.index, Len, Go.len.
    destruct (Z.leb_spec 0 k) as [Hk|Hk]; [|split; [lia | reflexivity]].
    rewrite nth_error_None. lia. }
  destruct (Z.leb_spec 0 i) as [Hi|Hi].
  2:{ assert (Go.index pq i = None) as E by (apply Hrange; lia).
      unfold Swap. rewrite E. split; [split; [lia | reflexivity]|].
      discriminate. }
  destruct (Z.leb_spec 0 j) as [Hj|Hj].
  2:{ assert (Go.index pq j = None) as E by (apply Hrange; lia).
      unfold Swap. rewrite E.
      split; [split; [lia | destruct (Go.index pq i); reflexivity]|].
      destruct (Go.index pq i); discriminate. }
  destruct (Z.ltb_spec i (Len pq)) as [Hil|Hil].
  2:{ assert (Go.index pq i = None) as E by (apply Hrange; lia).
      unfold Swap. rewrite E. split; [split; [lia | reflexivity]|].
      discriminate. }
  destruct (Z.ltb_spec j (Len pq)) as [Hjl|Hjl].
  2:{ assert (Go.index pq j = None) as E by (apply Hrange; lia).
      unfold Swap. rewrite E.
      split; [split; [lia | destruct (Go.index pq i); reflexivity]|].
      destruct (Go.index pq i); discriminate. }
  unfold Len, Go.len in Hil, Hjl.
  rewrite <- (Z2Nat.id i Hi), <- (Z2Nat.id j Hj).
  destruct (Swap_nat pq (Z.to_nat i) (Z.to_nat j) ltac:(lia) ltac:(lia))
    as (l1 & Hs & Hlen & Hnth & Hp).
  rewrite Hs. split.
  - split; [discriminate|]. intros H. elim H. unfold Len, Go.len. lia.
  - intros pq' [= <-]. rewrite !index_nat, !Hnth. unfold transpose.
    rewrite !Nat.eqb_refl.
    split; [reflexivity|].
    split; [destruct (Nat.eqb_spec (Z.to_nat j) (Z.to_nat i)) as [->|];
            reflexivity|].
    split; [unfold Len, Go.len; congruence|]. split; [exact Hp|].
    destruct (Swap_nat l1 (Z.to_nat i) (Z.to_nat j) ltac:(lia) ltac:(lia))
      as (l2 & Hs2 & Hlen2 & Hnth2 & _).
    rewrite Hs2. f_equal. apply nth_error_ext. intros k.
    rewrite Hnth2, Hnth. f_equal. unfold transpose.
    destruct (Nat.eqb_spec k (Z.to_nat i)) as [->|Hki].
    + rewrite Nat.eqb_refl.
      destruct (Nat.eqb_spec (Z.to_nat j) (Z.to_nat i)); congruence.
    + destruct (Nat.eqb_spec k (Z.to_nat j)) as [->|Hkj].
      * rewrite Nat.eqb_refl. reflexivity.
      * destruct (Nat.eqb_spec k (Z.to_nat i)); [contradiction|].
        destruct (Nat.eqb_spec k (Z.to_nat j)); [contradiction|]. reflexivity.
Qed.

(** ** Sample data *)

(** The graph of [main]. *)
Definition main_graph : Graph :=
  [ ("A"%string, [mkEdge "B" 1; mkEdge "C" 4]);
    ("B"%string, [mkEdge "C" 2; mkEdge "D" 5]);
    ("C"%string, [mkEdge "D" 1]);
    ("D"%string, []) ].

Definition sample_heap : PriorityQueue :=
  [mkItem "B" 1; mkItem "D" 6; mkItem "C" 3].

Lemma sample_heap_ok : heap_ok sample_heap.
Proof.
  intros i k Hk [-> | ->]; simpl in Hk;
    (destruct i as [|i]; [vm_compute; discriminate | lia]).
Qed.

Lemma dijkstra_returns_witness :
  exists dist,
    dijkstra heap.Init heap.Push heap.Pop main_graph "A" = Done dist.
Proof.
  apply (dijkstra_returns heap.Init heap.Push heap.Pop heap_ok
           (conj heap_Init_nil heap_ok_nil) heap_Push_ok heap_Pop_ok
           main_graph "A").
Defined.

Lemma dijkstra_shortest_witness :
  exists dist,
    dijkstra heap.Init heap.Push heap.Pop main_graph "A" = Done dist
    /\ shortest main_graph "A" dist.
Proof.
  apply (dijkstra_shortest heap.Init heap.Push heap.Pop heap_ok
           (conj heap_Init_nil heap_ok_nil) heap_Push_ok heap_Pop_ok
           main_graph "A").
  unfold weights_ok, main_graph.
  repeat constructor; vm_compute; discriminate.
Defined.

Lemma heap_Push_keeps_order_witness :
  exists pq', heap.Push sample_heap (mkItem "A" 0) = Some pq' /\ heap_ok pq'
              /\ Permutation pq' (mkItem "A" 0 :: sample_heap)
              /\ Len pq' = Len sample_heap + 1.
Proof.
  apply (heap_Push_keeps_order sample_heap (mkItem "A" 0)).
  exact sample_heap_ok.
Defined.

Lemma heap_Pop_least_witness :
  (sample_heap = [] -> heap.Pop sample_heap = None)
  /\ (sample_heap <> [] ->
      exists x pq', heap.Pop sample_heap = Some (x, pq') /\ heap_ok pq'
                    /\ Permutation sample_heap (x :: pq')
                    /\ Forall (fun y => distance x <= distance y) sample_heap).
Proof.
  apply (heap_Pop_least sample_heap). exact sample_heap_ok.
Defined.

End Routes.

(** * The decision tree of the same sources

    A [DecisionNode] points to its two children; a pointer may be [nil].
    [float64] is the binary64 format of IEEE 754, as are the primitive
    floats; [<=] on it is [PrimFloat.leb], which is false when an operand is
    not a number.  The map of features is rendered by a function of the key
    that is [0] where the map has no entry.  [None] is a panic, here the
    dereference of a nil pointer. *)

Module Decisions.

Import PrimFloat.
Open Scope string_scope.

#[warnings="-register-all"]
Inductive DecisionNode : Type :=
  mkDecisionNode {
    feature : string;
    threshold : float;
    left : option DecisionNode;
    right : option DecisionNode;
    value : string;
    isLeaf : bool
  }.

Record DecisionTree : Type := mkDecisionTree { root : option DecisionNode }.

Definition NewDecisionTree : DecisionTree := mkDecisionTree None.

(** [&DecisionNode{value: v, isLeaf: true}] *)
Definition leaf_node (v : string) : DecisionNode :=
  mkDecisionNode "" 0%float None None v true.

(** [&DecisionNode{feature: f, threshold: t, left: l, right: r}] *)
Definition test_node (f : string) (t : float) (l r : DecisionNode)
  : DecisionNode :=
  mkDecisionNode f t (Some l) (Some r) "" false.

Definition BuildTree (dt : DecisionTree) : DecisionTree :=
  mkDecisionTree
    (Some
       (test_node "age" 30%float
          (test_node "income" 50000%float
             (leaf_node "reject") (leaf_node "approve"))
          (test_node "credit_score" 700%float
             (leaf_node "review") (leaf_node "approve")))).

(** [traverse] on a node that is not [nil]. *)
Fixpoint traverse_node (node : DecisionNode) (features : string -> float)
  : option string :=
  if isLeaf node then Some (value node)
  else
    let featureValue := features (feature node) in
    if PrimFloat.leb featureValue (threshold node) then
      match left node with
      | Some child => traverse_node child features
      | None => None
      end
    else
      match right node with
      | Some child => traverse_node child features
      | None => None
      end.

Definition traverse (node : option DecisionNode) (features : string -> float)
  : option string :=
  match node with
  | Some n => traverse_node n features
  | None => None
  end.

(** [map[string]float64{"age": age, "income": income,
    "credit_score": creditScore}] *)
Definition features_of (age income creditScore : float) : string -> float :=
  fun k =>
    if String.eqb k "age" then age
    else if String.eqb k "income" then income
    else if String.eqb k "credit_score" then creditScore
    else 0%float.

Definition Predict (dt : DecisionTree) (age income creditScore : float)
  : option string :=
  traverse (root dt) (features_of age income creditScore).

(** ** Properties *)

(** Every node that is not a leaf has both children. *)
Fixpoint complete (node : DecisionNode) : Prop :=
  isLeaf node = true
  \/ match left node, right node with
     | Some l, Some r => complete l /\ complete r
     | _, _ => False
     end.

(** The values at the leaves below a node. *)
Fixpoint leaf_values (node : DecisionNode) : list string :=
  if isLeaf node then [value node]
  else
    (match left node with Some l => leaf_values l | None => [] end)
    ++ (match right node with Some r => leaf_values r | None => [] end).

Fixpoint traverse_complete (node : DecisionNode) (features : string -> float)
  {struct node} :
  complete node ->
  exists v, traverse_node node features = Some v /\ In v (leaf_values node).
Proof.
  destruct node as [ft th l r v lf]. intros Hc.
  destruct lf.
  - exists v. split; [reflexivity | left; reflexivity].
  - destruct Hc as [Hc|Hc]; [discriminate|]. simpl in Hc.
    destruct l as [l|]; [|contradiction].
    destruct r as [r|]; [|contradiction].
    destruct Hc as [Hl Hr].
    cbn [traverse_node leaf_values isLeaf feature threshold left right].
    destruct (PrimFloat.leb (features ft) th).
    + destruct (traverse_complete l features Hl) as (w & Hw & Hin).
      exists w. split; [exact Hw | apply in_or_app; left; exact Hin].
    + destruct (traverse_complete r features Hr) as (w & Hw & Hin).
      exists w. split; [exact Hw | apply in_or_app; right; exact Hin].
Qed.

(** X26. On a tree in which every node that is not a leaf has both its
    children, [traverse] does not panic and returns the value of one of the
    leaves, whatever the features are, numbers or not. *)
Theorem traverse_returns_leaf_value (node : DecisionNode)
  (features : string -> float) :
  complete node ->
  exists v, traverse (Some node) features = Some v
            /\ In v (leaf_values node).
Proof. intros Hc. exact (traverse_complete node features Hc). Qed.

(** X27. [Predict] on a tree on which [BuildTree] has not been called
    panics, the root being [nil]. *)
Theorem Predict_without_BuildTree (age income creditScore : float) :
  Predict NewDecisionTree age income creditScore = None.
Proof. reflexivity. Qed.

(** X28. After [BuildTree], whatever the tree was, [Predict] never panics
    and decides by two comparisons: up to the age of 30 by the income alone,
    otherwise, also when the age is not a number, by the credit score
    alone. *)
Theorem Predict_decision_table (dt : DecisionTree)
  (age income creditScore : float) :
  Predict (BuildTree dt) age income creditScore
  = Some (if PrimFloat.leb age 30%float
          then if PrimFloat.leb income 50000%float then "reject" else "approve"
          else if PrimFloat.leb creditScore 700%float then "review"
               else "approve").
Proof.
  unfold Predict, BuildTree, traverse, test_node, leaf_node.
  cbn [root traverse_node isLeaf feature threshold left right value].
  change (features_of age income creditScore "age") with age.
  change (features_of age income creditScore "income") with income.
  change (features_of age income creditScore "credit_score") with creditScore.
  destruct (PrimFloat.leb age 30); [destruct (PrimFloat.leb income 50000)
                                   |destruct (PrimFloat.leb creditScore 700)];
    reflexivity.
Qed.

Lemma traverse_returns_leaf_value_witness :
  exists v,
    traverse (root (BuildTree NewDecisionTree))
      (features_of 25%float 45000%float 650%float) = Some v
    /\ In v ["reject"; "approve"; "review"; "approve"].
Proof.
  apply (traverse_returns_leaf_value
           (test_node "age" 30%float
              (test_node "income" 50000%float
                 (leaf_node "reject") (leaf_node "approve"))
              (test_node "credit_score" 700%float
                 (leaf_node "review") (leaf_node "approve")))
           (features_of 25%float 45000%float 650%float)).
  simpl. right. split; right; split; left; reflexivity.
Defined.

End Decisions.
